(** * BananaFlow workflow engine: scheduler, run loop, retry wrapper, port routing

    A shallow embedding of the execution core of the application:
    - [src/types.ts]            the graph data model;
    - [src/App.tsx]             [runWorkflow] (Kahn scheduler and the per-node
                                run loop) and the connection branch of
                                [handleMouseUp];
    - [services/geminiService]  [withRetry], [formatError] and the five
                                service operations;
    - [src/App.tsx], editing    [createNode] and [addNode], unplugging an
                                edge ([handleMouseDownHandle]), the keyboard
                                shortcuts of [handleKeyDown] (delete, group,
                                ungroup, mute, copy, paste), saving and
                                loading a workflow ([downloadWorkflow],
                                [handleFileChange]) and [hexToRgb].

    JavaScript objects used as dictionaries that are only read by key are
    finite maps ([gmap string _]); the objects whose enumeration order
    is observable ([nodes], [edges], [groups]) are association lists, in
    the order in which the object lists its entries.  For the keys the
    application makes (UUID strings) that is the order of insertion; for
    an object filled from a workflow file, whose keys can be array
    indices, it is given by [OwnKeys.ownOrder]. *)

From Stdlib Require Import ZArith QArith Qabs Qround Lqa Ascii String.
From stdpp Require Import gmap strings list relations pretty.

Local Open Scope string_scope.
Local Open Scope list_scope.

(** ** Graph data model ([src/types.ts]) *)

Inductive NodeType :=
  | TEXT_INPUT | IMAGE_INPUT | TEXT_GENERATOR | IMAGE_EDITOR
  | VIDEO_GENERATOR | OUTPUT_DISPLAY | PROMPT_PRESET.

Inductive NodeStatus := IDLE | PROCESSING | COMPLETED | ERROR.

(** The union ['text' | 'image' | 'video' | 'any']. *)
Inductive PortType := text | image | video | any.

#[global] Instance NodeType_eq_dec : EqDecision NodeType.
Proof. solve_decision. Defined.
#[global] Instance NodeStatus_eq_dec : EqDecision NodeStatus.
Proof. solve_decision. Defined.
#[global] Instance PortType_eq_dec : EqDecision PortType.
Proof. solve_decision. Defined.

(** [NodeInput] and [NodeOutput] are the same interface. *)
Record Port := mkPort {
  port_id : string;
  port_label : string;
  port_type : PortType }.

Definition NodeInput := Port.
Definition NodeOutput := Port.

Record Edge := mkEdge {
  edge_id : string;
  sourceNodeId : string;
  sourceHandleId : string;
  targetNodeId : string;
  targetHandleId : string }.

(** ** JavaScript objects whose key order is observed

    [Object.keys]/[Object.values] enumerate string keys in insertion order
    (the identifiers this program makes are UUID strings, never array
    indices); [{...prev, [k]: v}] keeps the position of an existing key
    and puts a new key last. *)
Module JsObject.

Definition t (V : Type) := list (string * V).

Definition keys {V} (o : t V) : list string := map fst o.
Definition values {V} (o : t V) : list V := map snd o.

Fixpoint get {V} (o : t V) (k : string) : option V :=
  match o with
  | [] => None
  | (k', v) :: o' => if String.eqb k' k then Some v else get o' k
  end.

Fixpoint set {V} (o : t V) (k : string) (v : V) : t V :=
  match o with
  | [] => [(k, v)]
  | (k', v') :: o' =>
      if String.eqb k' k then (k, v) :: o' else (k', v') :: set o' k v
  end.

(** An object has each key once. *)
Definition wf {V} (o : t V) : Prop := NoDup (keys o).

End JsObject.

(** ** JavaScript strings and values *)
Module JsString.

(** [s.startsWith(p)] *)
Definition startsWith (s p : string) : bool := String.prefix p s.

(** [s.endsWith(p)] *)
Definition endsWith (s p : string) : bool :=
  String.prefix (String.rev p) (String.rev s).

(** [s.includes(sub)] *)
Fixpoint includes (s sub : string) : bool :=
  String.prefix sub s ||
  match s with
  | EmptyString => false
  | String _ s' => includes s' sub
  end.

Definition lowerChar (c : ascii) : ascii :=
  let n := Ascii.nat_of_ascii c in
  if (65 <=? n)%nat && (n <=? 90)%nat then Ascii.ascii_of_nat (n + 32) else c.

(** [s.toLowerCase()] on ASCII text. *)
Fixpoint toLowerCase (s : string) : string :=
  match s with
  | EmptyString => EmptyString
  | String c s' => String (lowerChar c) (toLowerCase s')
  end.

(** [s.split(sep)] for a one-character separator. *)
Fixpoint split (s : string) (sep : ascii) : list string :=
  match s with
  | EmptyString => [EmptyString]
  | String c s' =>
      if Ascii.eqb c sep then EmptyString :: split s' sep
      else match split s' sep with
           | [] => [String c EmptyString]
           | w :: ws => String c w :: ws
           end
  end.

(** Truthiness of a string. *)
Definition nonEmpty (s : string) : bool := negb (String.eqb s "").

(** [o || d] for [o : string | null | undefined]. *)
Definition orElse (o : option string) (d : string) : string :=
  match o with
  | Some s => if nonEmpty s then s else d
  | None => d
  end.

End JsString.

(** The values that flow through ports and node contents ([any]):
    - [VFile]: a browser [File]; its fields are what
      [fileToGenerativePart] reads from it;
    - [VImageText]: the object [{ image, text }], [text] being a string
      or null;
    - [VProgress]: the object [{ progress }]. *)
Inductive Value :=
  | VUndefined
  | VNull
  | VString (s : string)
  | VFile (data mimeType : string)
  | VImageText (image : string) (text : option string)
  | VProgress (progress : string).

Definition truthy (v : Value) : bool :=
  match v with
  | VUndefined | VNull => false
  | VString s => JsString.nonEmpty s
  | _ => true
  end.

Definition ofNullable (o : option string) : Value :=
  match o with Some s => VString s | None => VNull end.

(** [m[k]]: a missing property reads as [undefined]. *)
Definition prop (m : gmap string Value) (k : string) : Value :=
  default VUndefined (m !! k).

(** ** Nodes ([src/types.ts]); presentation-only fields are left out *)
Record NodeData := mkNodeData {
  label : string;
  inputs : list NodeInput;
  outputs : list NodeOutput;
  content : Value;
  status : NodeStatus;
  errorMessage : option string;
  prompt : option string;
  isMuted : bool }.

Record Node := mkNode {
  node_id : string;
  node_type : NodeType;
  data : NodeData }.

(** [HistoryItem]; its [type] is always ['image'].  The prompt is
    whatever value reached the node. *)
Record HistoryItem := mkHistoryItem {
  hist_id : string;
  hist_dataUrl : string;
  hist_prompt : Value }.

(** The argument of [updateNodeData]: the fields a call overrides. *)
Record Patch := mkPatch {
  p_status : option NodeStatus;
  p_content : option Value;
  p_errorMessage : option string }.

(** [{ ...d, ...patch }] *)
Definition applyPatch (d : NodeData) (p : Patch) : NodeData :=
  {| label := label d;
     inputs := inputs d;
     outputs := outputs d;
     content := default (content d) (p_content p);
     status := default (status d) (p_status p);
     errorMessage :=
       match p_errorMessage p with Some m => Some m | None => errorMessage d end;
     prompt := prompt d;
     isMuted := isMuted d |}.

(** ** Thrown values, outcomes and the state-and-exception monad *)

(** What a [catch] clause can receive: an [Error] object, or anything
    else (kept as its [String(...)] rendering). *)
Inductive Thrown :=
  | ErrorObj (message : string)
  | NonError (rendering : string).

(** [error instanceof Error ? error.message : String(error)] *)
Definition thrownText (e : Thrown) : string :=
  match e with ErrorObj m => m | NonError r => r end.

(** How an awaited computation ends; [Pending]: it never settles. *)
Inductive Outcome (A : Type) :=
  | Return (a : A)
  | Throw (e : Thrown)
  | Pending.
Arguments Return {A} _.
Arguments Throw {A} _.
Arguments Pending {A}.

Definition M (St A : Type) : Type := St → Outcome A * St.

Definition ret {St A} (a : A) : M St A := fun s => (Return a, s).

Definition bind {St A B} (m : M St A) (k : A → M St B) : M St B :=
  fun s =>
    match m s with
    | (Return a, s') => k a s'
    | (Throw e, s') => (Throw e, s')
    | (Pending, s') => (Pending, s')
    end.

Definition throw {St A} (e : Thrown) : M St A := fun s => (Throw e, s).

(** [try { body } catch (error) { handler }] *)
Definition tryCatch {St A} (body : M St A) (handler : Thrown → M St A)
  : M St A :=
  fun s =>
    match body s with
    | (Throw e, s') => handler e s'
    | r => r
    end.

Definition modify {St} (f : St → St) : M St unit := fun s => (Return tt, f s).

(** Run a computation on a component of the state. *)
Definition zoom {St Sub A} (proj : St → Sub) (upd : Sub → St → St)
    (m : M Sub A) : M St A :=
  fun s => let r := m (proj s) in (r.1, upd r.2 s).

Notation "'let*' x ':=' c1 'in' c2" := (bind c1 (fun x => c2))
  (at level 10, x pattern, c1 at level 100, c2 at level 200).

(** ** The remote generation API ([@google/genai]) as seen by the service *)

(** The fields of a parsed error envelope that the code looks at:
    [parsed?.error?.code], [parsed?.error?.status], [parsed?.error?.message]. *)
Record ErrorDetails := mkErrorDetails {
  err_code : option Z;
  err_status : option string;
  err_message : option string }.

Inductive ReqPart :=
  | ReqInline (data : option string) (mimeType : string)
  | ReqText (text : Value).

Inductive Contents :=
  | Plain (prompt : Value)
  | Parts (parts : list ReqPart).

Record RespPart := mkRespPart {
  part_text : option string;
  part_inlineData : option string }.

(** [resp_parts] is [response.candidates[0].content.parts]; [None] when
    reading that chain hits [undefined]. *)
Record ContentResponse := mkContentResponse {
  resp_text : string;
  resp_parts : option (list RespPart) }.

Record GeneratedImage := mkGeneratedImage {
  imageBytes : string;
  imageMimeType : option string }.

(** [op_uri] is [operation.response?.generatedVideos?.[0]?.video?.uri]. *)
Record Operation := mkOperation {
  op_done : bool;
  op_uri : option string }.

Inductive Request :=
  | ReqGenerateContent (model : string) (contents : Contents)
  | ReqGenerateImages (model : string) (prompt : Value)
  | ReqGenerateVideos (model : string) (prompt : Value)
      (image : option (string * string))
  | ReqGetVideosOperation (operation : Operation)
  | ReqFetch (url : string).

(** Everything the program obtains from outside.  The [nat] argument of
    a remote operation is the number of remote invocations made before
    it, so an operation may fail at first and succeed later. *)
Record Env := mkEnv {
  ai_generateContent : nat → string → Contents → Thrown + ContentResponse;
  ai_generateImages :
    nat → string → Value → Thrown + option (list (option GeneratedImage));
  ai_generateVideos :
    nat → string → Value → option (string * string) → Thrown + Operation;
  ai_getVideosOperation : nat → Operation → Thrown + Operation;
  fetchObjectUrl : nat → string → Thrown + string;
  Math_random : nat → Q;
  crypto_randomUUID : nat → string;
  JSON_parse : string → option ErrorDetails;
  typeErrorMessage : string;
  API_KEY : option string }.

(** Observable trace of the service: remote invocations, timer waits
    (milliseconds) and the number of [Math.random()] draws. *)
Record Remote := mkRemote {
  calls : list Request;
  delays : list Q;
  draws : nat }.

Record ImageFile := mkImageFile {
  file_data : option string;
  file_mimeType : string }.

(** [{ newBase64Image, text }] *)
Record EditResult := mkEditResult {
  newBase64Image : option string;
  result_text : option string }.

(** ** [services/geminiService] *)
Module GeminiService.
Section WithEnv.
Variable env : Env.

Definition MAX_RETRIES : nat := 3.
Definition INITIAL_DELAY_MS : Z := 2000.

Definition logCall (req : Request) (s : Remote) : Remote :=
  mkRemote (calls s ++ [req]) (delays s) (draws s).
Definition logDelay (ms : Q) (s : Remote) : Remote :=
  mkRemote (calls s) (delays s ++ [ms]) (draws s).
Definition countDraw (s : Remote) : Remote :=
  mkRemote (calls s) (delays s) (S (draws s)).

(** One invocation of a remote operation: it is logged, and settles as
  the environment says. *)
Definition invoke {R} (req : Request) (f : nat → Thrown + R) : M Remote R :=
  fun s =>
    match f (length (calls s)) with
    | inl e => (Throw e, logCall req s)
    | inr r => (Return r, logCall req s)
    end.

(** [delay(ms)] *)
Definition delay (ms : Q) : M Remote unit := modify (logDelay ms).

(** [Math.random()] *)
Definition random : M Remote Q :=
  fun s => (Return (Math_random env (draws s)), countDraw s).

(** The classification computed in the [catch] clause of [withRetry]. *)
Definition isRateLimitError (error : Thrown) : bool :=
  match error with
  | ErrorObj message =>
      if JsString.nonEmpty message then
        match JSON_parse env message with
        | Some errorDetails =>
            bool_decide (err_code errorDetails = Some 429%Z) ||
            bool_decide (err_status errorDetails = Some "RESOURCE_EXHAUSTED")
        | None =>
            JsString.includes message "429" ||
            JsString.includes (JsString.toLowerCase message) "rate limit"
        end
      else false
  | NonError _ => false
  end.

(** [INITIAL_DELAY_MS * Math.pow(2, i)] *)
Definition backoffTime (i : nat) : Q :=
  inject_Z (INITIAL_DELAY_MS * 2 ^ Z.of_nat i).

(** The [for (let i = 0; i < MAX_RETRIES; i++)] loop of [withRetry];
  [remaining] is [MAX_RETRIES - i]. *)
Fixpoint retryLoop {Args Res} (apiCall : Args → M Remote Res) (args : Args)
    (remaining i : nat) (lastError : Thrown) : M Remote Res :=
  match remaining with
  | O => throw lastError
  | S remaining' =>
      tryCatch (apiCall args) (fun error =>
        if isRateLimitError error then
          if (i <? MAX_RETRIES - 1)%nat then
            let* r := random in
            let jitter := (r * 1000)%Q in
            let waitTime := (backoffTime i + jitter)%Q in
            let* _ := delay waitTime in
            retryLoop apiCall args remaining' (S i) error
          else throw error
        else throw error)
  end.

Definition withRetry {Args Res} (apiCall : Args → M Remote Res)
  : Args → M Remote Res :=
  fun args => retryLoop apiCall args MAX_RETRIES 0 (NonError "undefined").

Definition formatError (error : Thrown) (context : string) : string :=
  let errorMessage := thrownText error in
  let errorMessage' :=
    match JSON_parse env errorMessage with
    | Some parsedError =>
        match err_message parsedError with
        | Some m =>
            if JsString.nonEmpty m then
              match err_status parsedError with
              | Some st =>
                  if JsString.nonEmpty st
                  then m +:+ " (Status: " +:+ st +:+ ")" else m
              | None => m
              end
            else errorMessage
        | None => errorMessage
        end
    | None => errorMessage
    end in
  "Error: " +:+ errorMessage'.

(** A remote operation as a function of its arguments: [request] is
  what is sent, [settle k args] how the invocation number [k]
  settles. *)
Definition remoteCall {Args Res} (request : Args → Request)
    (settle : nat → Args → Thrown + Res) : Args → M Remote Res :=
  fun args => invoke (request args) (fun k => settle k args).

Definition generateContentWithRetry
  : string * Contents → M Remote ContentResponse :=
  withRetry (remoteCall (fun a => ReqGenerateContent a.1 a.2)
                        (fun k a => ai_generateContent env k a.1 a.2)).

Definition generateImagesWithRetry
  : string * Value → M Remote (option (list (option GeneratedImage))) :=
  withRetry (remoteCall (fun a => ReqGenerateImages a.1 a.2)
                        (fun k a => ai_generateImages env k a.1 a.2)).

Definition generateVideosWithRetry
  : string * Value * option (string * string) → M Remote Operation :=
  withRetry (remoteCall (fun a => ReqGenerateVideos a.1.1 a.1.2 a.2)
                        (fun k a => ai_generateVideos env k a.1.1 a.1.2 a.2)).

Definition getVideosOperationWithRetry : Operation → M Remote Operation :=
  withRetry (remoteCall ReqGetVideosOperation (ai_getVideosOperation env)).

Definition generateText (prompt : Value) : M Remote string :=
  if negb (truthy prompt) then ret "Error: Prompt is empty."
  else
    tryCatch
      (let* response :=
         generateContentWithRetry ("gemini-2.5-flash", Plain prompt) in
       ret (resp_text response))
      (fun error => ret (formatError error "generateText")).

Definition generateImage (prompt : Value) : M Remote string :=
  if negb (truthy prompt) then ret "Error: Prompt is empty."
  else
    tryCatch
      (let* generated :=
         generateImagesWithRetry ("imagen-4.0-generate-001", prompt) in
       match generated with
       | Some (Some img :: _) =>
           let mimeType := JsString.orElse (imageMimeType img) "image/jpeg" in
           ret ("data:" +:+ mimeType +:+ ";base64," +:+ imageBytes img)
       | _ => ret "Error: Image generation failed to produce an image."
       end)
      (fun error => ret (formatError error "generateImage")).

(** The loop over [response.candidates[0].content.parts]. *)
Definition scanPart (acc : EditResult) (part : RespPart) : EditResult :=
  match part_text part with
  | Some t =>
      if JsString.nonEmpty t then mkEditResult (newBase64Image acc) (Some t)
      else match part_inlineData part with
           | Some d => mkEditResult (Some d) (result_text acc)
           | None => acc
           end
  | None =>
      match part_inlineData part with
      | Some d => mkEditResult (Some d) (result_text acc)
      | None => acc
      end
  end.

Definition imageCall (parts : list ReqPart) (context : string)
  : M Remote EditResult :=
  tryCatch
    (let* response :=
       generateContentWithRetry
         ("gemini-2.5-flash-image-preview", Parts parts) in
     match resp_parts response with
     | None => throw (ErrorObj (typeErrorMessage env))
     | Some ps => ret (fold_left scanPart ps (mkEditResult None None))
     end)
    (fun error => ret (mkEditResult None (Some (formatError error context)))).

Definition editImage (base64Image : option string) (mimeType : string)
    (prompt : Value) : M Remote EditResult :=
  if negb (JsString.nonEmpty (default "" base64Image)) || negb (truthy prompt)
  then ret (mkEditResult None (Some "Error: Image or prompt is missing."))
  else imageCall [ReqInline base64Image mimeType; ReqText prompt] "editImage".

Definition executePreset (inputs : list ImageFile) (prompt : string)
  : M Remote EditResult :=
  if bool_decide (length inputs = 0%nat) || negb (JsString.nonEmpty prompt)
  then ret (mkEditResult None (Some "Error: Image(s) or prompt is missing."))
  else
    imageCall
      (map (fun input => ReqInline (file_data input) (file_mimeType input))
           inputs ++ [ReqText (VString prompt)])
      "executePreset".

(** [generateVideo] reports progress through a callback; the messages
  are collected, in order, next to the service trace. *)
Definition onProgress (message : string) : M (Remote * list string) unit :=
  modify (fun s => (s.1, s.2 ++ [message])).

Definition remote {A} (m : M Remote A) : M (Remote * list string) A :=
  zoom fst (fun r s => (r, s.2)) m.

(** [while (!operation.done) { ... }]; [Pending] when [fuel] rounds of
  polling never saw [done]. *)
Fixpoint poll (fuel : nat) (operation : Operation)
  : M (Remote * list string) Operation :=
  if op_done operation then ret operation
  else
    match fuel with
    | O => fun s => (Pending, s)
    | S fuel' =>
        let* _ := remote (delay 10000) in
        let* _ := onProgress "Checking video status..." in
        let* operation' := remote (getVideosOperationWithRetry operation) in
        poll fuel' operation'
    end.

Definition generateVideo (fuel : nat) (base64Image mimeType : option string)
    (prompt : Value) : M (Remote * list string) string :=
  if negb (truthy prompt) then ret "Error: Prompt is empty."
  else
    tryCatch
      (let* _ := onProgress "Starting video generation..." in
       let image :=
         match base64Image, mimeType with
         | Some b, Some m =>
             if JsString.nonEmpty b && JsString.nonEmpty m
             then Some (b, m) else None
         | _, _ => None
         end in
       let* operation :=
         remote (generateVideosWithRetry
                   ("veo-2.0-generate-001", prompt, image)) in
       let* _ := onProgress
         "Video processing has started. This may take a few minutes..." in
       let* operation := poll fuel operation in
       let* _ := onProgress "Video processing complete. Fetching video..." in
       match op_uri operation with
       | Some downloadLink =>
           if JsString.nonEmpty downloadLink then
             let url := downloadLink +:+ "&key=" +:+
                        default "undefined" (API_KEY env) in
             let* objectUrl :=
               remote (invoke (ReqFetch url)
                              (fun k => fetchObjectUrl env k url)) in
             let* _ := onProgress "Video fetched successfully." in
             ret objectUrl
           else throw (ErrorObj "Video URI not found in response.")
       | None => throw (ErrorObj "Video URI not found in response.")
       end)
      (fun error =>
         let errorMessage := formatError error "generateVideo" in
         let* _ := onProgress errorMessage in
         ret errorMessage).

End WithEnv.
End GeminiService.

(** The interface [App.tsx] imports as [geminiService]. *)
Record Service := mkService {
  generateText : Value → M Remote string;
  generateImage : Value → M Remote string;
  editImage : option string → string → Value → M Remote EditResult;
  executePreset : list ImageFile → string → M Remote EditResult;
  generateVideo :
    option string → option string → Value → M (Remote * list string) string }.

(** The service as implemented, with a bound on the rounds of polling. *)
Definition liveService (env : Env) (pollFuel : nat) : Service :=
  {| generateText := GeminiService.generateText env;
     generateImage := GeminiService.generateImage env;
     editImage := GeminiService.editImage env;
     executePreset := GeminiService.executePreset env;
     generateVideo := GeminiService.generateVideo env pollFuel |}.


(** ** The topological scheduler ([runWorkflow], App.tsx 514-532) *)

(** Values stored in [inDegree]: a number, or [NaN] (what
    [undefined++] leaves behind). *)
Inductive jsnum := Num (z : Z) | NaN.

(** Exceptions raised by the language runtime. *)
Inductive Exn := TypeError.

Module Scheduler.

(** [x++] / [x--] on a property that may be missing. *)
Definition incr (o : option jsnum) : jsnum :=
  match o with Some (Num z) => Num (z + 1)%Z | _ => NaN end.
Definition decr (o : option jsnum) : jsnum :=
  match o with Some (Num z) => Num (z - 1)%Z | _ => NaN end.
(** [x === 0] *)
Definition isZero (o : option jsnum) : bool :=
  match o with Some (Num 0%Z) => true | _ => false end.

(** [nodeIds.reduce((acc, id) => ({ ...acc, [id]: [] }), {})] *)
Definition initAdj (nodeIds : list string) : gmap string (list string) :=
  fold_left (fun acc id => <[id := []]> acc) nodeIds ∅.

(** [nodeIds.reduce((acc, id) => ({ ...acc, [id]: 0 }), {})] *)
Definition initInDegree (nodeIds : list string) : gmap string jsnum :=
  fold_left (fun acc id => <[id := Num 0%Z]> acc) nodeIds ∅.

(** The body of [Object.values(edges).forEach]:
  [adj[edge.sourceNodeId].push(edge.targetNodeId)] raises a TypeError
  when [adj[edge.sourceNodeId]] is undefined;
  [inDegree[edge.targetNodeId]++] never raises. *)
Definition addEdge (adj : gmap string (list string))
    (inDegree : gmap string jsnum) (edge : Edge)
  : Exn + (gmap string (list string) * gmap string jsnum) :=
  match adj !! sourceNodeId edge with
  | None => inl TypeError
  | Some vs =>
      inr (<[sourceNodeId edge := vs ++ [targetNodeId edge]]> adj,
           <[targetNodeId edge := incr (inDegree !! targetNodeId edge)]> inDegree)
  end.

Fixpoint addEdges (es : list Edge) (adj : gmap string (list string))
    (inDegree : gmap string jsnum)
  : Exn + (gmap string (list string) * gmap string jsnum) :=
  match es with
  | [] => inr (adj, inDegree)
  | edge :: es' =>
      match addEdge adj inDegree edge with
      | inl e => inl e
      | inr (adj', inDegree') => addEdges es' adj' inDegree'
      end
  end.

(** The body of [adj[u]?.forEach(v => ...)]:
  [inDegree[v]--; if (inDegree[v] === 0) queue.push(v)]. *)
Definition relax (st : gmap string jsnum * list string) (v : string)
  : gmap string jsnum * list string :=
  let inDegree' := <[v := decr (st.1 !! v)]> st.1 in
  if isZero (inDegree' !! v) then (inDegree', st.2 ++ [v])
  else (inDegree', st.2).

(** One iteration of [while (queue.length > 0)] on a non-empty queue
  [u :: queue]. *)
Definition visit (adj : gmap string (list string)) (u : string)
    (inDegree : gmap string jsnum) (queue : list string)
  : gmap string jsnum * list string :=
  match adj !! u with
  | None => (inDegree, queue)
  | Some vs => fold_left relax vs (inDegree, queue)
  end.

(** The [while] loop; [None] when [fuel] iterations did not empty the
  queue. *)
Fixpoint loop (fuel : nat) (adj : gmap string (list string))
    (inDegree : gmap string jsnum) (queue executionOrder : list string)
  : option (list string) :=
  match queue with
  | [] => Some executionOrder
  | u :: queue' =>
      match fuel with
      | O => None
      | S fuel' =>
          let st := visit adj u inDegree queue' in
          loop fuel' adj st.1 st.2 (executionOrder ++ [u])
      end
  end.

(** Outcome of the scheduling phase. *)
Inductive result :=
  | Raised (e : Exn)
  | Order (executionOrder : list string)
  | Unfinished.

(** Lines 514-532.  Every node is dequeued at most once, so
  [length nodeIds] iterations are enough (lemma [loop_total]). *)
Definition executionOrder (nodeIds : list string) (edges : list Edge)
  : result :=
  match addEdges edges (initAdj nodeIds) (initInDegree nodeIds) with
  | inl e => Raised e
  | inr (adj, inDegree) =>
      let queue :=
        filter (fun id => isZero (inDegree !! id)) nodeIds in
      match loop (length nodeIds) adj inDegree queue [] with
      | Some order => Order order
      | None => Unfinished
      end
  end.

End Scheduler.

(** ** [runWorkflow]: the per-node run loop (App.tsx 499-708) *)
Module Workflow.

(** The React state touched by a run, a log of the [updateNodeData]
  calls, the number of [crypto.randomUUID()] draws, and the trace of
  the service. *)
Record World := mkWorld {
  w_nodes : JsObject.t Node;
  w_history : list HistoryItem;
  w_isProcessing : bool;
  w_updates : list (string * Patch);
  w_uuids : nat;
  w_remote : Remote }.

Definition setNodes (f : JsObject.t Node → JsObject.t Node) (w : World) : World :=
  mkWorld (f (w_nodes w)) (w_history w) (w_isProcessing w) (w_updates w)
          (w_uuids w) (w_remote w).

Definition setIsProcessing (b : bool) (w : World) : World :=
  mkWorld (w_nodes w) (w_history w) b (w_updates w) (w_uuids w) (w_remote w).

Definition setRemote (r : Remote) (w : World) : World :=
  mkWorld (w_nodes w) (w_history w) (w_isProcessing w) (w_updates w)
          (w_uuids w) r.

Definition logUpdate (nodeId : string) (patch : Patch) (w : World) : World :=
  mkWorld (w_nodes w) (w_history w) (w_isProcessing w)
          (w_updates w ++ [(nodeId, patch)]) (w_uuids w) (w_remote w).

(** [updateNodeData] (App.tsx 162-170). *)
Definition patchNode (nodeId : string) (patch : Patch)
    (prev : JsObject.t Node) : JsObject.t Node :=
  match JsObject.get prev nodeId with
  | None => prev
  | Some n =>
      JsObject.set prev nodeId
        (mkNode (node_id n) (node_type n) (applyPatch (data n) patch))
  end.

Definition updateNodeData (nodeId : string) (patch : Patch) (w : World) : World :=
  logUpdate nodeId patch (setNodes (patchNode nodeId patch) w).

Definition statusPatch (s : NodeStatus) : Patch := mkPatch (Some s) None None.
Definition resultPatch (s : NodeStatus) (c : Value) : Patch :=
  mkPatch (Some s) (Some c) None.
Definition progressPatch (progress : string) : Patch :=
  mkPatch None (Some (VProgress progress)) None.
Definition errorPatch (message : string) : Patch :=
  mkPatch (Some ERROR) None (Some message).

(** The first [setNodes] of [runWorkflow] (App.tsx 502-512). *)
Definition resetNode (n : Node) : Node :=
  mkNode (node_id n) (node_type n)
    {| label := label (data n);
       inputs := inputs (data n);
       outputs := outputs (data n);
       content :=
         match node_type n with
         | TEXT_INPUT | IMAGE_INPUT => content (data n)
         | _ => VNull
         end;
       status := IDLE;
       errorMessage := None;
       prompt := prompt (data n);
       isMuted := isMuted (data n) |}.

Definition resetNodes (prev : JsObject.t Node) : JsObject.t Node :=
  map (fun kv => (kv.1, resetNode kv.2)) prev.

(** [inputs[edge.targetHandleId] = nodeOutputs[edge.sourceHandleId]]
  over the edges that target [nodeId] (App.tsx 539-543). *)
Definition gatherInputs (edges : list Edge) (nodeId : string)
    (nodeOutputs : gmap string Value) : gmap string Value :=
  fold_left
    (fun inputs edge =>
       <[targetHandleId edge := prop nodeOutputs (sourceHandleId edge)]> inputs)
    (filter (fun e => targetNodeId e = nodeId) edges) ∅.

(** [processImageInput] (App.tsx 562-574). *)
Definition processImageInput (imageInput : Value) : option ImageFile :=
  match imageInput with
  | VFile d m => Some (mkImageFile (Some d) m)
  | VString s =>
      if JsString.nonEmpty s && JsString.startsWith s "data:image" then
        let pieces := JsString.split s "," in
        let meta := default "" (pieces !! 0%nat) in
        let base64 := pieces !! 1%nat in
        let mimeType :=
          default ""
            (JsString.split (default "" (JsString.split meta ":" !! 1%nat)) ";"
               !! 0%nat) in
        Some (mkImageFile base64 mimeType)
      else None
  | _ => None
  end.

(** [imageInputsRaw] of the PROMPT_PRESET case (App.tsx 633-643). *)
Definition presetInputs (edges : list Edge) (nodeId : string) (node : Node)
    (inputValues nodeOutputs : gmap string Value) : list Value :=
  match List.find
          (fun i => String.eqb (port_id i) (nodeId +:+ "-input-multi-image"))
          (inputs (data node)) with
  | Some multiImageInput =>
      let multiInputEdges :=
        filter (fun e => targetNodeId e = nodeId ∧
                         targetHandleId e = port_id multiImageInput) edges in
      map (fun edge => prop nodeOutputs (sourceHandleId edge)) multiInputEdges
  | None =>
      map (fun input => prop inputValues (port_id input)) (inputs (data node))
  end.

(** [.map(processImageInput)] followed by [.filter(Boolean)]. *)
Definition imageFilesOf (raw : list Value) : list ImageFile :=
  omap processImageInput raw.

(** The [node.data.outputs.forEach] after a successful dispatch
  (App.tsx 690-696). *)
Definition routeOutputs (node : Node) (output : Value)
    (nodeOutputs : gmap string Value) : gmap string Value :=
  fold_left
    (fun acc o =>
       <[port_id o :=
           match node_type node, output with
           | IMAGE_EDITOR, VImageText img txt
           | PROMPT_PRESET, VImageText img txt =>
               if bool_decide (port_type o = image) then VString img
               else ofNullable txt
           | _, _ => output
           end]> acc)
    (outputs (data node)) nodeOutputs.

(** The muted branch (App.tsx 547-553). *)
Definition passThrough (node : Node) (inputValues nodeOutputs : gmap string Value)
  : gmap string Value :=
  match inputs (data node) with
  | firstInputHandle :: _ =>
      let inputValue := prop inputValues (port_id firstInputHandle) in
      fold_left (fun acc outputHandle => <[port_id outputHandle := inputValue]> acc)
                (outputs (data node)) nodeOutputs
  | [] => nodeOutputs
  end.

(** What one iteration of [for (const nodeId of executionOrder)] does
  to the loop. *)
Inductive Step :=
  | Next (nodeOutputs : gmap string Value)
  | Halt
  | Stuck
  | Crash (e : Exn).

Inductive RunOutcome :=
  | Finished
  | HaltedAt (nodeId : string)
  | StuckAt (nodeId : string)
  | Crashed (e : Exn)
  | SchedulerUnfinished.

(** [w'] differs from [w], on the node map, at most at the nodes of
  [ids], and every [updateNodeData] call made in between was for one
  of them. *)
Definition touchesOnly (ids : list string) (w w' : World) : Prop :=
  (∀ k, k ∉ ids → JsObject.get (w_nodes w') k = JsObject.get (w_nodes w) k) ∧
  (∀ k, is_Some (JsObject.get (w_nodes w) k) →
        is_Some (JsObject.get (w_nodes w') k)) ∧
  ∃ log, w_updates w' = w_updates w ++ log ∧ Forall (λ u, u.1 ∈ ids) log.

(** Every state the computation [m] can end in is related to its start. *)
Definition framed {A} (nodeId : string) (m : M World A) : Prop :=
  ∀ w, touchesOnly [nodeId] w (m w).2.

Definition statusOf (w : World) (nodeId : string) : option NodeStatus :=
  (fun n => status (data n)) <$> JsObject.get (w_nodes w) nodeId.
Definition contentOf (w : World) (nodeId : string) : option Value :=
  (fun n => content (data n)) <$> JsObject.get (w_nodes w) nodeId.
Definition errorMessageOf (w : World) (nodeId : string) : option string :=
  JsObject.get (w_nodes w) nodeId ≫= fun n => errorMessage (data n).

Section WithService.
Variable env : Env.
Variable geminiService : Service.

Definition service {A} (m : M Remote A) : M World A :=
  zoom w_remote setRemote m.

(** A call of [geminiService.generateVideo] whose callback is
  [progress => updateNodeData(nodeId, { content: { progress } })]. *)
Definition videoService (nodeId : string) (m : M (Remote * list string) string)
  : M World string :=
  fun w =>
    let r := m (w_remote w, []) in
    (r.1, fold_left (fun w' progress =>
                       updateNodeData nodeId (progressPatch progress) w')
                    r.2.2 (setRemote r.2.1 w)).

(** [crypto.randomUUID()] followed by
  [setHistory(prev => [historyItem, ...prev])]. *)
Definition pushHistory (dataUrl : string) (prompt : Value) : M World unit :=
  modify (fun w =>
    let item := mkHistoryItem (crypto_randomUUID env (w_uuids w)) dataUrl prompt in
    mkWorld (w_nodes w) (item :: w_history w) (w_isProcessing w)
            (w_updates w) (S (w_uuids w)) (w_remote w)).

(** The [switch (node.type)] inside [try] (App.tsx 576-686). *)
Definition dispatch (edges : list Edge) (nodeId : string) (node : Node)
    (inputValues nodeOutputs : gmap string Value) : M World Value :=
  match node_type node with
  | TEXT_INPUT | IMAGE_INPUT => ret (content (data node))
  | TEXT_GENERATOR =>
      let prompt := prop inputValues (nodeId +:+ "-input") in
      let* output := service (generateText geminiService prompt) in
      ret (VString output)
  | IMAGE_EDITOR =>
      let imageInput := prop inputValues (nodeId +:+ "-input-image") in
      let textInput := prop inputValues (nodeId +:+ "-input-text") in
      if negb (truthy textInput) then
        throw (ErrorObj "A text prompt is required for image generation/editing.")
      else
        match processImageInput imageInput with
        | Some imageFile =>
            let* result :=
              service (editImage geminiService (file_data imageFile)
                                 (file_mimeType imageFile) textInput) in
            match newBase64Image result with
            | Some b =>
                if JsString.nonEmpty b then
                  let dataUrl :=
                    "data:" +:+ file_mimeType imageFile +:+ ";base64," +:+ b in
                  let* _ := pushHistory dataUrl textInput in
                  ret (VImageText dataUrl (result_text result))
                else
                  throw (ErrorObj (JsString.orElse (result_text result)
                           "Image editing failed to produce an image."))
            | None =>
                throw (ErrorObj (JsString.orElse (result_text result)
                         "Image editing failed to produce an image."))
            end
        | None =>
            let* result := service (generateImage geminiService textInput) in
            if JsString.nonEmpty result && JsString.startsWith result "data:image"
            then
              let* _ := pushHistory result textInput in
              ret (VImageText result None)
            else
              throw (ErrorObj (JsString.orElse (Some result)
                       "Image generation failed."))
        end
  | PROMPT_PRESET =>
      let imageInputsRaw :=
        presetInputs edges nodeId node inputValues nodeOutputs in
      let imageFiles := imageFilesOf imageInputsRaw in
      match imageFiles, prompt (data node) with
      | first :: _, Some template =>
          if JsString.nonEmpty template then
            let* result :=
              service (executePreset geminiService imageFiles template) in
            match newBase64Image result with
            | Some b =>
                if JsString.nonEmpty b then
                  let dataUrl :=
                    "data:" +:+ file_mimeType first +:+ ";base64," +:+ b in
                  let* _ := pushHistory dataUrl (VString template) in
                  ret (VImageText dataUrl (result_text result))
                else
                  throw (ErrorObj (JsString.orElse (result_text result)
                           "Preset failed to produce an image."))
            | None =>
                throw (ErrorObj (JsString.orElse (result_text result)
                         "Preset failed to produce an image."))
            end
          else
            throw (ErrorObj ("Missing required inputs for preset: "
                             +:+ label (data node)))
      | _, _ =>
          throw (ErrorObj ("Missing required inputs for preset: "
                           +:+ label (data node)))
      end
  | VIDEO_GENERATOR =>
      let imageInput := prop inputValues (nodeId +:+ "-input-image") in
      let textInput := prop inputValues (nodeId +:+ "-input-text") in
      let imageFile := processImageInput imageInput in
      let orNull (o : option string) :=
        match o with
        | Some s => if JsString.nonEmpty s then Some s else None
        | None => None
        end in
      let* output :=
        videoService nodeId
          (generateVideo geminiService
             (orNull (imageFile ≫= file_data))
             (orNull (file_mimeType <$> imageFile))
             textInput) in
      ret (VString output)
  | OUTPUT_DISPLAY => ret (prop inputValues (nodeId +:+ "-input"))
  end.

(** The body of [for (const nodeId of executionOrder)]
  (App.tsx 537-704); [nodes] is the object captured by the callback. *)
Definition runNode (nodes : JsObject.t Node) (edges : list Edge)
    (nodeId : string) (nodeOutputs : gmap string Value) (w : World)
  : Step * World :=
  match JsObject.get nodes nodeId with
  | None => (Crash TypeError, w)
  | Some node =>
      let inputValues := gatherInputs edges nodeId nodeOutputs in
      if isMuted (data node) then
        (Next (passThrough node inputValues nodeOutputs),
         updateNodeData nodeId (statusPatch COMPLETED) w)
      else
        let w1 :=
          updateNodeData nodeId
            (resultPatch PROCESSING (VProgress "Starting...")) w in
        match dispatch edges nodeId node inputValues nodeOutputs w1 with
        | (Return output, w2) =>
            (Next (routeOutputs node output nodeOutputs),
             updateNodeData nodeId (resultPatch COMPLETED output) w2)
        | (Throw error, w2) =>
            let errorMessage := thrownText error in
            (Halt,
             setIsProcessing false
               (updateNodeData nodeId (errorPatch errorMessage) w2))
        | (Pending, w2) => (Stuck, w2)
        end
  end.

Fixpoint runNodes (nodes : JsObject.t Node) (edges : list Edge)
    (order : list string) (nodeOutputs : gmap string Value) (w : World)
  : RunOutcome * World :=
  match order with
  | [] => (Finished, setIsProcessing false w)
  | nodeId :: rest =>
      match runNode nodes edges nodeId nodeOutputs w with
      | (Next nodeOutputs', w') => runNodes nodes edges rest nodeOutputs' w'
      | (Halt, w') => (HaltedAt nodeId, w')
      | (Stuck, w') => (StuckAt nodeId, w')
      | (Crash e, w') => (Crashed e, w')
      end
  end.

(** The loop state ([nodeOutputs] and the world) after the nodes of
  [prefix] have all been executed without stopping the loop. *)
Fixpoint loopState (nodes : JsObject.t Node) (edges : list Edge)
    (prefix : list string) (nodeOutputs : gmap string Value) (w : World)
  : option (gmap string Value * World) :=
  match prefix with
  | [] => Some (nodeOutputs, w)
  | nodeId :: rest =>
      match runNode nodes edges nodeId nodeOutputs w with
      | (Next nodeOutputs', w') => loopState nodes edges rest nodeOutputs' w'
      | _ => None
      end
  end.

(** The state in which the loop over the execution order starts. *)
Definition startRun (w : World) : World :=
  setNodes resetNodes (setIsProcessing true w).

(** [runWorkflow]; the captured [nodes] is the node map at the time of
    the call, [edges] the edge map.  The reset writes [status],
    [errorMessage] and the [content] of non-input nodes into the node
    objects that [nodes] also holds; the loop reads none of these from
    [nodes], so [nodes] is taken as it was. *)
Definition runWorkflow (edges : JsObject.t Edge) (w : World)
  : RunOutcome * World :=
  let nodes := w_nodes w in
  let w1 := startRun w in
  match Scheduler.executionOrder (JsObject.keys nodes) (JsObject.values edges) with
  | Scheduler.Raised e => (Crashed e, w1)
  | Scheduler.Unfinished => (SchedulerUnfinished, w1)
  | Scheduler.Order executionOrder =>
      runNodes nodes (JsObject.values edges) executionOrder ∅ w1
  end.

End WithService.
End Workflow.

(** ** Creating an edge on mouse-up (App.tsx 416-477) *)
Module Connect.

(** Where the mouse button was released: on an input handle or on
  something else; the [option] is the [data-node-id] of the enclosing
  node element. *)
Inductive DropTarget :=
  | OnHandle (nodeId : option string) (handleId : string)
  | OnBody (nodeId : option string).

Definition isTypeCompatible (sourceType targetType : PortType) : bool :=
  bool_decide (sourceType = targetType) ||
  bool_decide (targetType = any) ||
  bool_decide (sourceType = any).

Definition isAlreadyConnected (edges : JsObject.t Edge)
    (nodeId handleId : string) : bool :=
  existsb (fun edge => String.eqb (targetNodeId edge) nodeId &&
                       String.eqb (targetHandleId edge) handleId)
          (JsObject.values edges).

Definition isMultiImageHandle (targetNode : option Node) (handleId : string)
  : bool :=
  match targetNode with
  | Some n => bool_decide (node_type n = PROMPT_PRESET) &&
              JsString.endsWith handleId "-input-multi-image"
  | None => false
  end.

(** The [for (const input of targetNode.data.inputs)] loop. *)
Fixpoint scanInputs (edges : JsObject.t Edge) (targetNode : Node)
    (potentialTargetNodeId : string) (sourceType : PortType)
    (inputs : list NodeInput) : option string :=
  match inputs with
  | [] => None
  | input :: rest =>
      if negb (isTypeCompatible sourceType (port_type input)) then
        scanInputs edges targetNode potentialTargetNodeId sourceType rest
      else if negb (isAlreadyConnected edges potentialTargetNodeId (port_id input))
              || isMultiImageHandle (Some targetNode) (port_id input)
      then Some (port_id input)
      else scanInputs edges targetNode potentialTargetNodeId sourceType rest
  end.

(** [targetNodeId] and [targetHandleId] before the final check. *)
Definition resolveTarget (nodes : JsObject.t Node) (edges : JsObject.t Edge)
    (sourceNodeId sourceHandleId : string) (drop : DropTarget)
  : option string * option string :=
  match drop with
  | OnHandle targetNodeId targetHandleId => (targetNodeId, Some targetHandleId)
  | OnBody None => (None, None)
  | OnBody (Some potentialTargetNodeId) =>
      if JsString.nonEmpty potentialTargetNodeId then
        let sourceType :=
          JsObject.get nodes sourceNodeId ≫= fun sourceNode =>
          port_type <$>
            List.find (fun o => String.eqb (port_id o) sourceHandleId)
                      (outputs (data sourceNode)) in
        match JsObject.get nodes potentialTargetNodeId, sourceType with
        | Some targetNode, Some sourceType =>
            if negb (String.eqb sourceNodeId potentialTargetNodeId) then
              match scanInputs edges targetNode potentialTargetNodeId
                               sourceType (inputs (data targetNode)) with
              | Some h => (Some potentialTargetNodeId, Some h)
              | None => (None, None)
              end
            else (None, None)
        | _, _ => (None, None)
        end
      else (None, None)
  end.

(** The connecting branch of [handleMouseUp]: the new edge map.
  [newId] is the identifier [crypto.randomUUID()] returns. *)
Definition connect (nodes : JsObject.t Node) (edges : JsObject.t Edge)
    (sourceNodeId sourceHandleId : string) (drop : DropTarget)
    (newId : string) : JsObject.t Edge :=
  match resolveTarget nodes edges sourceNodeId sourceHandleId drop with
  | (Some targetNodeId, Some targetHandleId) =>
      if JsString.nonEmpty targetNodeId && JsString.nonEmpty targetHandleId
         && negb (String.eqb sourceNodeId targetNodeId) then
        let targetNode := JsObject.get nodes targetNodeId in
        if negb (isAlreadyConnected edges targetNodeId targetHandleId)
           || isMultiImageHandle targetNode targetHandleId then
          JsObject.set edges newId
            (mkEdge newId sourceNodeId sourceHandleId targetNodeId targetHandleId)
        else edges
      else edges
  | _ => edges
  end.

(** [setEdges(prev => ({ ...prev, [newEdge.id]: newEdge }))], once per
  edge of [created], in that order. *)
Definition insertEdges (created : list Edge) (edges : JsObject.t Edge)
  : JsObject.t Edge :=
  fold_left (fun prev newEdge => JsObject.set prev (edge_id newEdge) newEdge)
            created edges.

(** The port the specification's resolver returns: the first input
  port, in declaration order, that is type-compatible and available. *)
Definition qualifies (edges : JsObject.t Edge) (targetNode : Node)
    (targetNodeId : string) (sourceType : PortType) (input : NodeInput) : bool :=
  isTypeCompatible sourceType (port_type input) &&
  (negb (isAlreadyConnected edges targetNodeId (port_id input))
   || isMultiImageHandle (Some targetNode) (port_id input)).

Definition firstQualifying (edges : JsObject.t Edge) (targetNode : Node)
    (targetNodeId : string) (sourceType : PortType) : option NodeInput :=
  head (List.filter (qualifies edges targetNode targetNodeId sourceType)
                    (inputs (data targetNode))).

End Connect.


(** ** Graph-theoretic vocabulary used by the statements *)
Module Graph.

(** [u -> v]: some edge of the edge map goes from [u] to [v]. *)
Definition edgeRel (es : list Edge) (u v : string) : Prop :=
  ∃ e, e ∈ es ∧ sourceNodeId e = u ∧ targetNodeId e = v.

(** [v] lies on a cycle: a non-empty path leads from [v] back to [v]. *)
Definition onCycle (es : list Edge) (v : string) : Prop :=
  tc (edgeRel es) v v.

Definition acyclic (es : list Edge) : Prop := ∀ v, ¬ onCycle es v.

(** [v] is on a cycle or downstream of one. *)
Definition blocked (es : list Edge) (v : string) : Prop :=
  ∃ c, onCycle es c ∧ rtc (edgeRel es) c v.

(** [a] occurs in [l] at a smaller index than [b]. *)
Definition before (a b : string) (l : list string) : Prop :=
  ∃ i j, l !! i = Some a ∧ l !! j = Some b ∧ (i < j)%nat.

Definition sourcesPresent (nodeIds : list string) (es : list Edge) : Prop :=
  ∀ e, e ∈ es → sourceNodeId e ∈ nodeIds.

Definition endpointsPresent (nodeIds : list string) (es : list Edge) : Prop :=
  ∀ e, e ∈ es → sourceNodeId e ∈ nodeIds ∧ targetNodeId e ∈ nodeIds.

(** Number of edges into [v] whose source is not yet in [done]. *)
Definition remaining (es : list Edge) (done : list string) (v : string) : nat :=
  length (filter (λ e, targetNodeId e = v ∧ sourceNodeId e ∉ done) es).

(** Targets of the edges leaving [u], in edge order. *)
Definition successors (es : list Edge) (u : string) : list string :=
  map targetNodeId (filter (λ e, sourceNodeId e = u) es).

Definition occ (v : string) (l : list string) : nat :=
  length (filter (λ x, x = v) l).

(** State of [adj] and [inDegree] after the edges [seen] have been
  added. *)
Definition tablesAfter (nodeIds : list string) (seen : list Edge)
    (adj : gmap string (list string)) (inDegree : gmap string jsnum) : Prop :=
  (∀ u, u ∈ nodeIds → adj !! u = Some (successors seen u)) ∧
  (∀ u, u ∉ nodeIds → adj !! u = None) ∧
  (∀ v, v ∈ nodeIds →
        inDegree !! v = Some (Num (Z.of_nat (remaining seen [] v)))) ∧
  (∀ v, v ∉ nodeIds → inDegree !! v = None ∨ inDegree !! v = Some NaN).

(** Loop invariant of [while (queue.length > 0)]. *)
Record Inv (nodeIds : list string) (es : list Edge)
    (inDegree : gmap string jsnum) (queue order : list string) : Prop := {
  inv_nodup : NoDup (order ++ queue);
  inv_nodes : ∀ x, x ∈ order ++ queue → x ∈ nodeIds;
  inv_count : ∀ v, v ∈ nodeIds →
    inDegree !! v = Some (Num (Z.of_nat (remaining es order v)));
  inv_nan : ∀ v, v ∉ nodeIds → inDegree !! v = None ∨ inDegree !! v = Some NaN;
  inv_ready : ∀ v, v ∈ nodeIds →
    (v ∈ order ++ queue ↔ remaining es order v = 0%nat);
  inv_topo : ∀ e, e ∈ es → targetNodeId e ∈ order →
    before (sourceNodeId e) (targetNodeId e) order }.

(** What the scheduler guarantees about its output. *)
Definition kahnOutput (nodeIds : list string) (es : list Edge)
    (order : list string) : Prop :=
  NoDup order ∧
  (∀ x, x ∈ order → x ∈ nodeIds) ∧
  (∀ e, e ∈ es → targetNodeId e ∈ order →
        before (sourceNodeId e) (targetNodeId e) order) ∧
  (∀ v, v ∈ nodeIds → v ∉ order →
        ∃ e, e ∈ es ∧ targetNodeId e = v ∧ sourceNodeId e ∉ order).

End Graph.

(** ** Example workflows *)
Module Examples.

Definition textInput (id userText : string) : Node :=
  mkNode id TEXT_INPUT
    (mkNodeData "Text Input" [] [mkPort (id +:+ "-output") "Text" text]
                (VString userText) IDLE None None false).

Definition imageInput (id dataUrl : string) : Node :=
  mkNode id IMAGE_INPUT
    (mkNodeData "Image Input" [] [mkPort (id +:+ "-output") "Image" image]
                (VString dataUrl) IDLE None None false).

Definition textGenerator (id : string) (muted : bool) : Node :=
  mkNode id TEXT_GENERATOR
    (mkNodeData "Text Generator"
                [mkPort (id +:+ "-input") "Prompt" text]
                [mkPort (id +:+ "-output") "Text" text]
                VNull IDLE None None muted).

Definition imageEditor (id : string) : Node :=
  mkNode id IMAGE_EDITOR
    (mkNodeData "Image Generator/Editor"
                [mkPort (id +:+ "-input-image") "Image (Optional)" image;
                 mkPort (id +:+ "-input-text") "Prompt" text]
                [mkPort (id +:+ "-output-image") "Image" image;
                 mkPort (id +:+ "-output-text") "Text" text]
                VNull IDLE None None false).

Definition outputDisplay (id : string) : Node :=
  mkNode id OUTPUT_DISPLAY
    (mkNodeData "Output" [mkPort (id +:+ "-input") "Input" any] []
                VNull IDLE None None false).

Definition multiPreset (id template : string) : Node :=
  mkNode id PROMPT_PRESET
    (mkNodeData "Preset"
                [mkPort (id +:+ "-input-multi-image") "Images" image]
                [mkPort (id +:+ "-output-0") "Image" image]
                VNull IDLE None (Some template) false).

Definition object (ns : list Node) : JsObject.t Node :=
  map (fun n => (node_id n, n)) ns.

Definition wire (id src srcHandle tgt tgtHandle : string) : string * Edge :=
  (id, mkEdge id src srcHandle tgt tgtHandle).

(** TextInput("a cat") -> TextGenerator -> OutputDisplay *)
Definition chainNodes : JsObject.t Node :=
  object [textInput "t" "a cat"; textGenerator "g" false; outputDisplay "o"].
Definition chainEdges : JsObject.t Edge :=
  [wire "e1" "t" "t-output" "g" "g-input";
   wire "e2" "g" "g-output" "o" "o-input"].

(** A two-node cycle [a <-> b] with a node [c] downstream of it. *)
Definition loopNodes : JsObject.t Node :=
  object [textGenerator "a" false; textGenerator "b" false; outputDisplay "c"].
Definition loopEdges : JsObject.t Edge :=
  [wire "e1" "a" "a-output" "b" "b-input";
   wire "e2" "b" "b-output" "a" "a-input";
   wire "e3" "b" "b-output" "c" "c-input"].

(** An edge whose source node is not in the node map. *)
Definition danglingEdges : JsObject.t Edge :=
  [wire "e1" "ghost" "ghost-output" "g" "g-input"].

Definition chainRank (id : string) : nat :=
  if String.eqb id "t" then 0 else if String.eqb id "g" then 1 else 2.

Definition emptyRemote : Remote := mkRemote [] [] 0.

Definition world (nodes : JsObject.t Node) : Workflow.World :=
  Workflow.mkWorld nodes [] false [] 0 emptyRemote.

(** An environment whose text-completion operation answers
  "429 Too Many Requests" twice and then succeeds, or fails for good
  with "boom" when [broken].  None of the error messages used here is
  JSON text, so [JSON.parse] throws on them. *)
Definition sampleEnv (broken : bool) : Env :=
  {| ai_generateContent k _ _ :=
       if broken then inl (ErrorObj "boom")
       else if (k <? 2)%nat then inl (ErrorObj "429 Too Many Requests")
       else inr (mkContentResponse "a fluffy cat" None);
     ai_generateImages _ _ _ := inl (ErrorObj "boom");
     ai_generateVideos _ _ _ _ := inl (ErrorObj "boom");
     ai_getVideosOperation _ _ := inl (ErrorObj "boom");
     fetchObjectUrl _ _ := inl (ErrorObj "boom");
     Math_random _ := (1 # 2)%Q;
     crypto_randomUUID k := "uuid-" +:+ String (Ascii.ascii_of_nat (48 + k)) "";
     JSON_parse _ := None;
     typeErrorMessage := "Cannot read properties of undefined";
     API_KEY := None |}.

Definition textRequest : string * Contents :=
  ("gemini-2.5-flash", Plain (VString "a cat")).

(** The chain with its generator muted, and the loop state in which the
    generator is reached. *)
Definition mutedNodes : JsObject.t Node :=
  object [textInput "t" "a cat"; textGenerator "g" true; outputDisplay "o"].

(** A stand-in for the service, as a test would supply it; the preset
    operation records the images and the template it is called with. *)
Definition mockService : Service :=
  {| generateText _ := ret "mock completion";
     generateImage _ := ret "data:image/png;base64,GENERATED";
     editImage _ _ _ := ret (mkEditResult (Some "IMGY") (Some "done"));
     executePreset images template :=
       fun s =>
         (Return (mkEditResult (Some "IMGZ") None),
          GeminiService.logCall
            (ReqGenerateContent "mock-preset"
               (Parts (map (fun f => ReqInline (file_data f) (file_mimeType f))
                           images ++ [ReqText (VString template)])))
            s);
     generateVideo _ _ _ := ret "blob:mock-video" |}.

(** ImageInput(imgX) and TextInput("make it blue") -> ImageEditor. *)
Definition editNodes : JsObject.t Node :=
  object [imageInput "i" "data:image/png;base64,IMGX";
          textInput "t" "make it blue"; imageEditor "d"; outputDisplay "o"].
Definition editEdges : JsObject.t Edge :=
  [wire "e1" "i" "i-output" "d" "d-input-image";
   wire "e2" "t" "t-output" "d" "d-input-text";
   wire "e3" "d" "d-output-image" "o" "o-input"].
Definition editOutputs : gmap string Value :=
  {["i-output" := VString "data:image/png;base64,IMGX";
    "t-output" := VString "make it blue"]}.

(** Two ImageInput nodes wired, one after the other, into the
    aggregating port of a preset node. *)
Definition presetCreated : list Edge :=
  [mkEdge "e1" "i1" "i1-output" "p" "p-input-multi-image";
   mkEdge "e2" "i2" "i2-output" "p" "p-input-multi-image"].
Definition presetNodes : JsObject.t Node :=
  object [imageInput "i1" "data:image/png;base64,ONE";
          imageInput "i2" "data:image/png;base64,TWO";
          multiPreset "p" "blend"; outputDisplay "o"].
Definition presetEdges : JsObject.t Edge :=
  Connect.insertEdges
    (presetCreated ++ [mkEdge "e3" "p" "p-output-0" "o" "o-input"]) [].

(** ImageInput -> ImageEditor -> OutputDisplay, the editor having no
    text prompt connected. *)
Definition promptlessNodes : JsObject.t Node :=
  object [imageInput "i" "data:image/png;base64,AAAA"; imageEditor "d";
          outputDisplay "o"].
Definition promptlessEdges : JsObject.t Edge :=
  [wire "e1" "i" "i-output" "d" "d-input-image";
   wire "e2" "d" "d-output-image" "o" "o-input"].

Definition promptlessPrefix : gmap string Value * Workflow.World :=
  default (∅, world promptlessNodes)
    (Workflow.loopState (sampleEnv true) (liveService (sampleEnv true) 0)
       promptlessNodes (JsObject.values promptlessEdges) ["i"] ∅
       (Workflow.startRun (world promptlessNodes))).

Definition promptlessDispatch : Outcome Value * Workflow.World :=
  Workflow.dispatch (sampleEnv true) (liveService (sampleEnv true) 0)
    (JsObject.values promptlessEdges) "d" (imageEditor "d")
    (Workflow.gatherInputs (JsObject.values promptlessEdges) "d"
       promptlessPrefix.1)
    promptlessPrefix.1
    (Workflow.updateNodeData "d"
       (Workflow.resultPatch PROCESSING (VProgress "Starting..."))
       promptlessPrefix.2).


End Examples.

(** ** Vocabulary for the statements about whole runs *)
Module Observe.

(** The part of a node that a run never writes: everything except
  [status], [content] and [errorMessage]. *)
Definition shape (n : Node)
  : string * NodeType * string * list NodeInput * list NodeOutput
    * option string * bool :=
  (node_id n, node_type n, label (data n), inputs (data n), outputs (data n),
   prompt (data n), isMuted (data n)).

Definition shapes (o : JsObject.t Node) :=
  map (fun kv => (kv.1, shape kv.2)) o.

(** A node whose execution involves neither the service nor the
  history: a muted node, or an input or display node. *)
Definition quiet (n : Node) : bool :=
  isMuted (data n) ||
  match node_type n with
  | TEXT_INPUT | IMAGE_INPUT | OUTPUT_DISPLAY => true
  | _ => false
  end.

(** The edges that end in the input port [handleId] of [nodeId]. *)
Definition incoming (es : list Edge) (nodeId handleId : string) : list Edge :=
  filter (fun e => targetNodeId e = nodeId ∧ targetHandleId e = handleId) es.

(** Every input port other than an aggregating one has at most one
  incoming edge. *)
Definition singleConnection (nodes : JsObject.t Node) (es : list Edge) : Prop :=
  ∀ nodeId handleId,
    Connect.isMultiImageHandle (JsObject.get nodes nodeId) handleId = false →
    (length (incoming es nodeId handleId) ≤ 1)%nat.

(** Every state the computation [m] can end in is related by [R] to
  the state it started in. *)
Definition kept {A} (R : Workflow.World → Workflow.World → Prop)
    (m : M Workflow.World A) : Prop :=
  ∀ w, R w (m w).2.

(** [w'] has the history of [w] with [added] put in front, the
  identifiers of [added] being the successive [crypto.randomUUID()]
  draws, newest first. *)
Definition historyGrown (env : Env) (added : list HistoryItem)
    (w w' : Workflow.World) : Prop :=
  Workflow.w_history w' = added ++ Workflow.w_history w ∧
  Workflow.w_uuids w' = (Workflow.w_uuids w + length added)%nat ∧
  map hist_id added
  = rev (map (crypto_randomUUID env)
             (seq (Workflow.w_uuids w) (length added))).

End Observe.


(** ** Editing the graph (App.tsx 266-294 and 749-914) *)
Module Editor.

Record Group := mkGroup {
  group_id : string;
  group_label : string;
  group_color : string;
  nodeIds : list string }.

(** [delete copy[k]] on a copy of the object. *)
Definition delete {V} (o : JsObject.t V) (k : string) : JsObject.t V :=
  filter (fun kv => kv.1 ≠ k) (o : list (string * V)).

(** Every entry is stored under its own identifier, as
  [{ ...prev, [x.id]: x }] and [Object.fromEntries(xs.map(x => [x.id, x]))]
  store it. *)
Definition keyed {V} (id : V → string) (o : JsObject.t V) : Prop :=
  Forall (fun kv => kv.1 = id kv.2) o.

Inductive HandleType := InputHandle | OutputHandle.

(** The test of [handleMouseDownHandle]:
  [handleId === `${nodeId}-input-multi-image`]. *)
Definition isMultiImageHandle (targetNode : option Node)
    (nodeId handleId : string) : bool :=
  match targetNode with
  | Some n => bool_decide (node_type n = PROMPT_PRESET) &&
              String.eqb handleId (nodeId +:+ "-input-multi-image")
  | None => false
  end.

(** [handleMouseDownHandle] (App.tsx 266-294): the new edge map and the
  new value of [connectingEdge.current]. *)
Definition handleMouseDownHandle (nodes : JsObject.t Node)
    (edges : JsObject.t Edge) (connectingEdge : option (string * string))
    (nodeId handleId : string) (handleType : HandleType)
  : JsObject.t Edge * option (string * string) :=
  match handleType with
  | OutputHandle => (edges, Some (nodeId, handleId))
  | InputHandle =>
      if isMultiImageHandle (JsObject.get nodes nodeId) nodeId handleId
      then (edges, connectingEdge)
      else
        match List.find
                (fun edge => String.eqb (targetNodeId edge) nodeId &&
                             String.eqb (targetHandleId edge) handleId)
                (JsObject.values edges) with
        | Some connectedEdge =>
            (delete edges (edge_id connectedEdge),
             Some (sourceNodeId connectedEdge, sourceHandleId connectedEdge))
        | None => (edges, connectingEdge)
        end
  end.

(** [selectedNodeIds.has(id)]; the [Set] is the list of its elements
  in insertion order. *)
Definition has (selectedNodeIds : list string) (id : string) : bool :=
  bool_decide (id ∈ selectedNodeIds).

(** Delete key with nodes selected, the three updaters of
  App.tsx 779-804. *)
Definition deleteNodes (selectedNodeIds : list string)
    (prevNodes : JsObject.t Node) : JsObject.t Node :=
  fold_left (fun newNodes id => delete newNodes id) selectedNodeIds prevNodes.

Definition deleteEdgesOf (selectedNodeIds : list string)
    (prevEdges : JsObject.t Edge) : JsObject.t Edge :=
  fold_left
    (fun newEdges edge =>
       if has selectedNodeIds (sourceNodeId edge)
          || has selectedNodeIds (targetNodeId edge)
       then delete newEdges (edge_id edge) else newEdges)
    (JsObject.values prevEdges) prevEdges.

(** [newGroups[k].nodeIds = ids]: a TypeError when [newGroups[k]] is
  undefined. *)
Definition setNodeIds (newGroups : JsObject.t Group) (k : string)
    (ids : list string) : Exn + JsObject.t Group :=
  match JsObject.get newGroups k with
  | None => inl TypeError
  | Some g =>
      inr (JsObject.set newGroups k
             (mkGroup (group_id g) (group_label g) (group_color g) ids))
  end.

(** The body of [Object.values(newGroups).forEach(group => ...)].
  [group] is the object stored under its identifier, so it is read
  here before the loop writes it. *)
Definition removeMembers (selectedNodeIds : list string)
    (acc : Exn + JsObject.t Group) (group : Group) : Exn + JsObject.t Group :=
  match acc with
  | inl e => inl e
  | inr newGroups =>
      let newNodeIds :=
        filter (fun id => id ∉ selectedNodeIds) (nodeIds group) in
      if bool_decide (length newNodeIds = 0%nat)
      then inr (delete newGroups (group_id group))
      else setNodeIds newGroups (group_id group) newNodeIds
  end.

Definition pruneGroups (selectedNodeIds : list string)
    (prevGroups : JsObject.t Group) : Exn + JsObject.t Group :=
  fold_left (removeMembers selectedNodeIds) (JsObject.values prevGroups)
            (inr prevGroups).

(** The state the keyboard handler works on. *)
Record Canvas := mkCanvas {
  c_nodes : JsObject.t Node;
  c_edges : JsObject.t Edge;
  c_groups : JsObject.t Group;
  selectedNodeIds : list string;
  selectedEdgeId : option string }.

(** The block [if (selectedNodeIds.size > 0) { ... }] (App.tsx 778-806). *)
Definition deleteSelection (c : Canvas) : Exn + Canvas :=
  if (0 <? length (selectedNodeIds c))%nat then
    match pruneGroups (selectedNodeIds c) (c_groups c) with
    | inl e => inl e
    | inr newGroups =>
        inr (mkCanvas (deleteNodes (selectedNodeIds c) (c_nodes c))
                      (deleteEdgesOf (selectedNodeIds c) (c_edges c))
                      newGroups [] (selectedEdgeId c))
    end
  else inr c.

(** The Delete/Backspace branch of [handleKeyDown] (App.tsx 767-807). *)
Definition handleDeleteKey (c : Canvas) : Exn + Canvas :=
  match selectedEdgeId c with
  | Some id =>
      if JsString.nonEmpty id then
        inr (mkCanvas (c_nodes c) (delete (c_edges c) id) (c_groups c)
                      (selectedNodeIds c) None)
      else deleteSelection c
  | None => deleteSelection c
  end.

(** [groupsToUpdate.add(groupId)] *)
Definition add (s : list string) (x : string) : list string :=
  if bool_decide (x ∈ s) then s else s ++ [x].

(** The first loop of the ungroup branch (App.tsx 815-821). *)
Definition groupsToUpdate (selectedNodeIds : list string)
    (newGroups : JsObject.t Group) : list string :=
  fold_left
    (fun acc nodeId =>
       fold_left
         (fun acc groupId =>
            match JsObject.get newGroups groupId with
            | Some g => if bool_decide (nodeId ∈ nodeIds g) then add acc groupId
                        else acc
            | None => acc
            end)
         (JsObject.keys newGroups) acc)
    selectedNodeIds [].

(** The body of [groupsToUpdate.forEach(groupId => ...)]
  (App.tsx 823-831). *)
Definition ungroupStep (selectedNodeIds : list string)
    (acc : Exn + JsObject.t Group) (groupId : string) : Exn + JsObject.t Group :=
  match acc with
  | inl e => inl e
  | inr newGroups =>
      match JsObject.get newGroups groupId with
      | None => inl TypeError
      | Some group =>
          let newNodeIds :=
            filter (fun id => id ∉ selectedNodeIds) (nodeIds group) in
          if bool_decide (length newNodeIds = 0%nat)
          then inr (delete newGroups groupId)
          else inr (JsObject.set newGroups groupId
                      (mkGroup (group_id group) (group_label group)
                               (group_color group) newNodeIds))
      end
  end.

(** Shift + group shortcut (App.tsx 811-834). *)
Definition ungroup (selectedNodeIds : list string)
    (prevGroups : JsObject.t Group) : Exn + JsObject.t Group :=
  fold_left (ungroupStep selectedNodeIds)
            (groupsToUpdate selectedNodeIds prevGroups) (inr prevGroups).

(** Group shortcut (App.tsx 836-845); [newId] and [color] are what
  [crypto.randomUUID()] and [getRandomColor()] return. *)
Definition group (selectedNodeIds : list string) (newId color : string)
    (prev : JsObject.t Group) : JsObject.t Group :=
  if (0 <? length selectedNodeIds)%nat then
    JsObject.set prev newId (mkGroup newId "New Group" color selectedNodeIds)
  else prev.

(** What is left of a group once the selected nodes are taken out of
  it: nothing when no member remains. *)
Definition withoutSelected (selectedNodeIds : list string) (g : Group)
  : option Group :=
  let newNodeIds := filter (fun id => id ∉ selectedNodeIds) (nodeIds g) in
  if bool_decide (length newNodeIds = 0%nat) then None
  else Some (mkGroup (group_id g) (group_label g) (group_color g) newNodeIds).

(** The node with [isMuted] negated. *)
Definition toggled (n : Node) : Node :=
  mkNode (node_id n) (node_type n)
    {| label := label (data n);
       inputs := inputs (data n);
       outputs := outputs (data n);
       content := content (data n);
       status := status (data n);
       errorMessage := errorMessage (data n);
       prompt := prompt (data n);
       isMuted := negb (isMuted (data n)) |}.

(** Mute shortcut (App.tsx 848-859). *)
Definition toggleMute (selectedNodeIds : list string)
    (prev : JsObject.t Node) : JsObject.t Node :=
  fold_left
    (fun newNodes id =>
       match JsObject.get newNodes id with
       | Some n => JsObject.set newNodes id (toggled n)
       | None => newNodes
       end)
    selectedNodeIds prev.

End Editor.

(** ** Creating nodes ([createNode], App.tsx 15-49)

    The table [PRESET_CONFIGS] comes from [./presets]; [createNode]
    reads, of an entry, its label, its prompt and the label and type of
    each input and output.  The table is a finite map over its own
    keys: the properties every object inherits ([constructor] and the
    like) are not preset identifiers. *)
Module Factory.

Record PortSpec := mkPortSpec {
  spec_label : string;
  spec_type : PortType }.

Record PresetConfig := mkPresetConfig {
  cfg_label : string;
  cfg_prompt : option string;
  cfg_inputs : list PortSpec;
  cfg_outputs : list PortSpec }.

(** [specs.map((spec, index) => ({ ...spec, id: `${id}${infix}${index}` }))] *)
Definition indexed (id infix : string) (specs : list PortSpec) : list Port :=
  imap (fun index spec =>
          mkPort (id +:+ infix +:+ pretty index) (spec_label spec)
                 (spec_type spec))
       specs.

Section WithPresets.
Variable PRESET_CONFIGS : gmap string PresetConfig.

(** [baseNode] with the label, ports and prompt of the case. *)
Definition make (id : string) (type : NodeType) (label : string)
    (inputs : list NodeInput) (outputs : list NodeOutput)
    (prompt : option string) : Node :=
  mkNode id type (mkNodeData label inputs outputs VNull IDLE None prompt false).

(** [createNode(type, position, presetId)]; [id] is what
  [crypto.randomUUID()] returns. *)
Definition createNode (id : string) (type : NodeType)
    (presetId : option string) : Thrown + Node :=
  match type with
  | TEXT_INPUT =>
      inr (make id type "Text Input" []
             [mkPort (id +:+ "-output") "Text" text] None)
  | IMAGE_INPUT =>
      inr (make id type "Image Input" []
             [mkPort (id +:+ "-output") "Image" image] None)
  | TEXT_GENERATOR =>
      inr (make id type "Text Generator"
             [mkPort (id +:+ "-input") "Prompt" text]
             [mkPort (id +:+ "-output") "Text" text] None)
  | IMAGE_EDITOR =>
      inr (make id type "Image Generator/Editor"
             [mkPort (id +:+ "-input-image") "Image (Optional)" image;
              mkPort (id +:+ "-input-text") "Prompt" text]
             [mkPort (id +:+ "-output-image") "Image" image;
              mkPort (id +:+ "-output-text") "Text" text] None)
  | VIDEO_GENERATOR =>
      inr (make id type "Video Generator"
             [mkPort (id +:+ "-input-image") "Image" image;
              mkPort (id +:+ "-input-text") "Text" text]
             [mkPort (id +:+ "-output") "Video" video] None)
  | OUTPUT_DISPLAY =>
      inr (make id type "Output"
             [mkPort (id +:+ "-input") "Input" any] [] None)
  | PROMPT_PRESET =>
      match presetId ≫= fun p =>
              if JsString.nonEmpty p then PRESET_CONFIGS !! p else None with
      | None =>
          inl (ErrorObj ("Unknown presetId: " +:+ default "undefined" presetId))
      | Some config =>
          let inputs :=
            if (1 <? length (cfg_inputs config))%nat &&
               forallb (fun i => bool_decide (spec_type i = image))
                       (cfg_inputs config)
            then [mkPort (id +:+ "-input-multi-image") "Images" image]
            else indexed id "-input-" (cfg_inputs config) in
          let outputs := indexed id "-output-" (cfg_outputs config) in
          inr (make id type (cfg_label config) inputs outputs (cfg_prompt config))
      end
  end.

(** [addNode] (App.tsx 143-150): the node map after the call, when
  [createNode] does not throw. *)
Definition addNode (id : string) (type : NodeType) (presetId : option string)
    (prev : JsObject.t Node) : Thrown + JsObject.t Node :=
  match createNode id type presetId with
  | inl e => inl e
  | inr newNode => inr (JsObject.set prev (node_id newNode) newNode)
  end.

End WithPresets.
End Factory.

(** ** The order in which an object lists its properties

    [Object.keys], [Object.values] and [for ... in] list the keys that
    are array indices first, in ascending numeric order, and then the
    other keys in the order in which they were added.  The identifiers
    the application makes ([crypto.randomUUID()]) are never array
    indices; those of a workflow file can be. *)
Module OwnKeys.

Definition digit (c : ascii) : option N :=
  let n := N_of_ascii c in
  if (48 <=? n)%N && (n <=? 57)%N then Some (n - 48)%N else None.

Fixpoint numeral (s : string) (acc : N) : option N :=
  match s with
  | EmptyString => Some acc
  | String c s' =>
      match digit c with
      | Some d => numeral s' (acc * 10 + d)%N
      | None => None
      end
  end.

(** The number a key stands for when it is an array index: the decimal
  numeral, without leading zero, of an integer from 0 to 2^32 - 2. *)
Definition arrayIndex (k : string) : option N :=
  match k with
  | EmptyString => None
  | String c rest =>
      if Ascii.eqb c "0" && negb (String.eqb rest "") then None
      else
        match numeral k 0 with
        | Some n => if (n <? 4294967295)%N then Some n else None
        | None => None
        end
  end.

Fixpoint insertByIndex {V} (n : N) (kv : string * V)
    (sorted : list (N * (string * V))) : list (N * (string * V)) :=
  match sorted with
  | [] => [(n, kv)]
  | (m, x) :: rest =>
      if (n <? m)%N then (n, kv) :: sorted
      else (m, x) :: insertByIndex n kv rest
  end.

(** The entries whose key is an array index, by ascending index. *)
Definition byIndex {V} (o : list (string * V)) : list (N * (string * V)) :=
  fold_left
    (fun acc kv =>
       match arrayIndex kv.1 with
       | Some n => insertByIndex n kv acc
       | None => acc
       end)
    o [].

(** The entries of an object, given in the order in which its keys were
  added, in the order in which the object lists them. *)
Definition ownOrder {V} (o : JsObject.t V) : JsObject.t V :=
  map snd (byIndex o)
  ++ filter (fun kv => arrayIndex kv.1 = None) (o : list (string * V)).

End OwnKeys.

(** ** Numbers

    A number is a binary64 value; the finite ones are rationals.
    [x + 1] is the rational [x + 1] rounded to the nearest binary64
    value, ties to the even significand (magnitudes below 2^1024). *)
Module JsNumber.

#[global] Instance Q_eq_dec : EqDecision Q.
Proof. solve_decision. Defined.

(** The integer part of the binary logarithm of a positive rational. *)
Definition floorLog2 (a : Q) : Z :=
  let k := (Z.log2 (Qnum a) - Z.log2 (Zpos (Qden a)))%Z in
  if Qle_bool (2 ^ k) a then k else (k - 1)%Z.

(** The binary64 value nearest to [q].  An integer of magnitude at most
  2^53 is one; otherwise [q] is rounded to a multiple of the unit in
  the last place of its binade (of the smallest binade for a
  subnormal). *)
Definition roundToDouble (q : Q) : Q :=
  if (Qden q =? 1)%positive && (Z.abs (Qnum q) <=? 2 ^ 53)%Z then q
  else if (Qnum q =? 0)%Z then 0%Q
  else
    let a := Qabs q in
    let e := Z.max (floorLog2 a) (-1022) in
    let ulp := (2 ^ (e - 52))%Q in
    let n := (a / ulp)%Q in
    let f := Qfloor n in
    let r := (n - inject_Z f)%Q in
    let m :=
      if Qle_bool (1 # 2) r then
        if Qle_bool r (1 # 2) then (if Z.even f then f else f + 1)%Z
        else (f + 1)%Z
      else f in
    Qred (inject_Z (Z.sgn (Qnum q) * m) * ulp).

(** [x + 1], and the value of [x] after [x++]. *)
Definition succ (x : Q) : Q := roundToDouble (x + 1).

(** [x] as a condition: a number other than 0. *)
Definition truthy (x : Q) : bool := negb (Qeq_bool x 0).

(** [x > y] *)
Definition gt (x y : Q) : bool := negb (Qle_bool x y).

End JsNumber.

(** ** Saving and loading a workflow (App.tsx 709-726 and 971-1044) *)
Module Loader.

(** [Object.fromEntries(xs.map(x => [x.id, x]))], as the object lists
  its entries. *)
Definition fromEntries {V} (id : V → string) (xs : list V) : JsObject.t V :=
  OwnKeys.ownOrder (fold_left (fun o x => JsObject.set o (id x) x) xs []).

(** The [zIndex] property of a node, as a workflow file can give it:
  not there, [null], or a number. *)
Inductive Index :=
  | Absent
  | Null
  | Num (z : Q).
#[global] Instance Index_eq_dec : EqDecision Index.
Proof. solve_decision. Defined.

(** A node together with its stacking index. *)
Record StoredNode := mkStoredNode {
  stored : Node;
  zIndex : Index }.

Definition stored_id (n : StoredNode) : string := node_id (stored n).

(** The part of the application state that is saved and loaded, and the
  counter [zIndexCounter.current]. *)
Record State := mkState {
  s_nodes : JsObject.t StoredNode;
  s_edges : JsObject.t Edge;
  s_groups : JsObject.t Editor.Group;
  s_history : list HistoryItem;
  s_zIndexCounter : Q }.

(** The parsed content of a workflow file; a field is [None] when the
  file lacks it. *)
Record File := mkFile {
  file_nodes : option (list StoredNode);
  file_edges : option (list Edge);
  file_groups : option (list Editor.Group);
  file_history : option (list HistoryItem) }.

(** The object [downloadWorkflow] serialises (App.tsx 711-719). *)
Definition workflowOf (st : State) : File :=
  mkFile (Some (JsObject.values (s_nodes st)))
         (Some (JsObject.values (s_edges st)))
         (Some (JsObject.values (s_groups st)))
         (Some (s_history st)).

(** The body of the first [workflow.nodes.map] (App.tsx 980-986):
  [if (n.zIndex && n.zIndex > maxZ) maxZ = n.zIndex]. *)
Definition largest (maxZ : Q) (n : StoredNode) : Q :=
  match zIndex n with
  | Num z => if JsNumber.truthy z && JsNumber.gt z maxZ then z else maxZ
  | _ => maxZ
  end.

(** The body of the second [map] (App.tsx 988-994): the nodes produced
  so far and [maxZ].  Only [n.zIndex === undefined] gets an index. *)
Definition assign (acc : list StoredNode * Q) (n : StoredNode)
  : list StoredNode * Q :=
  match zIndex n with
  | Absent =>
      let maxZ := JsNumber.succ acc.2 in
      (acc.1 ++ [mkStoredNode (stored n) (Num maxZ)], maxZ)
  | _ => (acc.1 ++ [n], acc.2)
  end.

(** [finalNodes] and the final [maxZ]. *)
Definition finalNodes (nodes : list StoredNode) : list StoredNode * Q :=
  fold_left assign nodes ([], fold_left largest nodes 0%Q).

(** How many of [nodes] lack a stacking index. *)
Definition missing (nodes : list StoredNode) : Z :=
  Z.of_nat (length (filter (fun n => zIndex n = Absent) nodes)).

Section WithJson.
(** [JSON.stringify] and [JSON.parse] on workflow files; parsing fails
  on text that is not JSON. *)
Variable JSON_stringify : File → string.
Variable JSON_parse : string → option File.

(** The text [downloadWorkflow] offers for download. *)
Definition downloadWorkflow (st : State) : string :=
  JSON_stringify (workflowOf st).

(** [reader.onload] of [handleFileChange] (App.tsx 976-1041): the
  state after the file text has been read; on a parse error or a file
  without nodes or edges the state stays as it is. *)
Definition handleFileChange (text : string) (st : State) : State :=
  match JSON_parse text with
  | Some workflow =>
      match file_nodes workflow, file_edges workflow with
      | Some nodes, Some edges =>
          let final := finalNodes nodes in
          mkState (fromEntries stored_id final.1)
                  (fromEntries edge_id edges)
                  (match file_groups workflow with
                   | Some groups => fromEntries Editor.group_id groups
                   | None => []
                   end)
                  (default [] (file_history workflow))
                  (JsNumber.succ final.2)
      | _, _ => st
      end
  | None => st
  end.

End WithJson.

(** The node map a run works on. *)
Definition graph (st : State) : JsObject.t Node :=
  map (fun kv => (kv.1, stored kv.2)) (s_nodes st).

End Loader.

(** ** Colours ([hexToRgb], App.tsx 99-109; [toHex], App.tsx 1009) *)
Module Color.

(** The value of a character matched by [[a-f\d]] under the [i] flag. *)
Definition hexDigit (c : ascii) : option N :=
  let n := N_of_ascii c in
  if (48 <=? n)%N && (n <=? 57)%N then Some (n - 48)%N
  else if (97 <=? n)%N && (n <=? 102)%N then Some (n - 87)%N
  else if (65 <=? n)%N && (n <=? 70)%N then Some (n - 55)%N
  else None.

(** [parseInt(xy, 16)] on two characters that are hexadecimal digits. *)
Definition parsePair (x y : ascii) : option N :=
  match hexDigit x, hexDigit y with
  | Some a, Some b => Some (a * 16 + b)%N
  | _, _ => None
  end.

(** [hexToRgb]: the pattern
  [/^#?([a-f\d]{2})([a-f\d]{2})([a-f\d]{2})$/i] and the three
  [parseInt(_, 16)]; [None] is the result [null]. *)
Definition hexToRgb (hex : string) : option (N * N * N) :=
  let digits :=
    match hex with
    | String "#" rest => rest
    | _ => hex
    end in
  match digits with
  | String r1 (String r2 (String g1 (String g2 (String b1 (String b2 ""))))) =>
      match parsePair r1 r2, parsePair g1 g2, parsePair b1 b2 with
      | Some r, Some g, Some b => Some (r, g, b)
      | _, _, _ => None
      end
  | _ => None
  end.

Definition digitChar (d : N) : ascii :=
  if (d <? 10)%N then ascii_of_N (48 + d) else ascii_of_N (87 + d).

(** [c.toString(16)] for a natural number; [fuel] bounds the number of
  digits. *)
Fixpoint toString16 (fuel : nat) (c : N) (acc : string) : string :=
  match fuel with
  | O => acc
  | S fuel' =>
      let acc' := String (digitChar (c mod 16)) acc in
      if (c <? 16)%N then acc' else toString16 fuel' (c / 16) acc'
  end.

(** [s.slice(-2)] *)
Definition lastTwo (s : string) : string :=
  String.rev (String.substring 0 2 (String.rev s)).

(** [toHex = c => ('0' + c.toString(16)).slice(-2)] *)
Definition toHex (c : N) : string :=
  lastTwo ("0" +:+ toString16 (S (N.to_nat c)) c "").

End Color.

(** ** Copy and paste (App.tsx 861-913) *)
Module Clipboard.

(** [s.slice(n)] *)
Fixpoint skip (n : nat) (s : string) : string :=
  match n, s with
  | O, _ => s
  | S n', String _ s' => skip n' s'
  | S _, EmptyString => EmptyString
  end.

(** [s.replace(pattern, replacement)] for a string pattern: the first
  occurrence is replaced (the replacement holds no [$]). *)
Fixpoint replace (s pattern replacement : string) : string :=
  if String.prefix pattern s
  then replacement +:+ skip (String.length pattern) s
  else match s with
       | EmptyString => EmptyString
       | String c s' => String c (replace s' pattern replacement)
       end.

(** The copy shortcut: [clipboard.current]. *)
Definition copy (nodes : JsObject.t Node) (edges : JsObject.t Edge)
    (selectedNodeIds : list string) : list Node * list Edge :=
  (filter (fun n => node_id n ∈ selectedNodeIds) (JsObject.values nodes),
   filter (fun e => sourceNodeId e ∈ selectedNodeIds ∧
                    targetNodeId e ∈ selectedNodeIds)
          (JsObject.values edges)).

(** [{ ...port, id: port.id.replace(oldId, newId) }] *)
Definition renamePort (oldId newId : string) (port : Port) : Port :=
  mkPort (replace (port_id port) oldId newId) (port_label port) (port_type port).

(** [newNode] of the paste loop, on the fields of the node model (the
  canvas position and the stacking index are not part of it). *)
Definition pastedNode (newId : string) (node : Node) : Node :=
  mkNode newId (node_type node)
    {| label := label (data node);
       inputs := map (renamePort (node_id node) newId) (inputs (data node));
       outputs := map (renamePort (node_id node) newId) (outputs (data node));
       content := content (data node);
       status := status (data node);
       errorMessage := errorMessage (data node);
       prompt := prompt (data node);
       isMuted := isMuted (data node) |}.

(** What the two loops of the paste shortcut build: [idMap],
  [newNodes], [newEdges], [newSelectedIds], and the number of
  [crypto.randomUUID()] draws made so far. *)
Record Pasting := mkPasting {
  idMap : gmap string string;
  newNodes : JsObject.t Node;
  newEdges : JsObject.t Edge;
  newSelectedIds : list string;
  uuids : nat }.

Section WithUuid.
Variable crypto_randomUUID : nat → string.

(** The body of [nodesToPaste.forEach]. *)
Definition pasteNode (st : Pasting) (node : Node) : Pasting :=
  let oldId := node_id node in
  let newId := crypto_randomUUID (uuids st) in
  mkPasting (<[oldId := newId]> (idMap st))
            (JsObject.set (newNodes st) newId (pastedNode newId node))
            (newEdges st)
            (Editor.add (newSelectedIds st) newId)
            (S (uuids st)).

(** The body of [edgesToPaste.forEach]; [None] when [idMap] lacks an
  endpoint of the edge (the code would then store [undefined] as a node
  identifier). *)
Definition pasteEdge (acc : option Pasting) (edge : Edge) : option Pasting :=
  match acc with
  | None => None
  | Some st =>
      let newEdgeId := crypto_randomUUID (uuids st) in
      match idMap st !! sourceNodeId edge, idMap st !! targetNodeId edge with
      | Some newSourceNodeId, Some newTargetNodeId =>
          let newEdge :=
            mkEdge newEdgeId newSourceNodeId
              (replace (sourceHandleId edge) (sourceNodeId edge) newSourceNodeId)
              newTargetNodeId
              (replace (targetHandleId edge) (targetNodeId edge) newTargetNodeId) in
          Some (mkPasting (idMap st) (newNodes st)
                          (JsObject.set (newEdges st) newEdgeId newEdge)
                          (newSelectedIds st) (S (uuids st)))
      | _, _ => None
      end
  end.

(** [{ ...prev, ...added }] *)
Definition merge {V} (prev added : JsObject.t V) : JsObject.t V :=
  fold_left (fun o kv => JsObject.set o kv.1 kv.2) added prev.

(** The paste shortcut (App.tsx 867-913): the new node map, edge map
  and selection and the number of identifiers drawn; nothing changes
  when the clipboard is empty. *)
Definition paste (clipboard : option (list Node * list Edge))
    (nodes : JsObject.t Node) (edges : JsObject.t Edge)
    (selectedNodeIds : list string) (drawn : nat)
  : option (JsObject.t Node * JsObject.t Edge * list string * nat) :=
  match clipboard with
  | None => Some (nodes, edges, selectedNodeIds, drawn)
  | Some (nodesToPaste, edgesToPaste) =>
      let st := fold_left pasteNode nodesToPaste (mkPasting ∅ [] [] [] drawn) in
      match fold_left pasteEdge edgesToPaste (Some st) with
      | Some st' =>
          Some (merge nodes (newNodes st'), merge edges (newEdges st'),
                newSelectedIds st', uuids st')
      | None => None
      end
  end.

End WithUuid.

(** The edge joins an output port of a node of [ns] to an input port of
  a node of [ns]. *)
Definition wired (ns : list Node) (e : Edge) : Prop :=
  ∃ a b p q,
    a ∈ ns ∧ b ∈ ns ∧ p ∈ outputs (data a) ∧ q ∈ inputs (data b) ∧
    sourceNodeId e = node_id a ∧ sourceHandleId e = port_id p ∧
    targetNodeId e = node_id b ∧ targetHandleId e = port_id q.

End Clipboard.

(** ** Further example workflows *)
Module Scenarios.

(** TextInput("a red kite") -> ImageEditor (prompt only: generation
  mode) -> OutputDisplay. *)
Definition generateNodes : JsObject.t Node :=
  Examples.object [Examples.textInput "t" "a red kite";
                   Examples.imageEditor "d"; Examples.outputDisplay "o"].
Definition generateEdges : JsObject.t Edge :=
  [Examples.wire "e1" "t" "t-output" "d" "d-input-text";
   Examples.wire "e2" "d" "d-output-image" "o" "o-input"].
Definition generateOutputs : gmap string Value :=
  {["t-output" := VString "a red kite"]}.

(** Two independent inputs feeding one display each. *)
Definition forkNodes : JsObject.t Node :=
  Examples.object [Examples.outputDisplay "o1"; Examples.textInput "a" "x";
                   Examples.textInput "b" "y"; Examples.outputDisplay "o2"].
Definition forkEdges : JsObject.t Edge :=
  [Examples.wire "e1" "b" "b-output" "o2" "o2-input";
   Examples.wire "e2" "a" "a-output" "o1" "o1-input"].

(** A preset table with a two-image preset and a mixed one. *)
Definition presets : gmap string Factory.PresetConfig :=
  {["blend" :=
      Factory.mkPresetConfig "Blend" (Some "blend the images")
        [Factory.mkPortSpec "A" image; Factory.mkPortSpec "B" image]
        [Factory.mkPortSpec "Image" image];
    "caption" :=
      Factory.mkPresetConfig "Caption" (Some "describe")
        [Factory.mkPortSpec "Image" image; Factory.mkPortSpec "Hint" text]
        [Factory.mkPortSpec "Image" image; Factory.mkPortSpec "Text" text]]}.

(** The chain with two groups, its generator selected. *)
Definition canvas : Editor.Canvas :=
  Editor.mkCanvas Examples.chainNodes Examples.chainEdges
    [("g1", Editor.mkGroup "g1" "New Group" "rgba(239, 68, 68, 0.2)" ["t"; "g"]);
     ("g2", Editor.mkGroup "g2" "New Group" "rgba(34, 197, 94, 0.2)" ["g"])]
    ["g"] None.

(** What Delete makes of it. *)
Definition canvasAfterDelete : Editor.Canvas :=
  Editor.mkCanvas
    (Examples.object [Examples.textInput "t" "a cat"; Examples.outputDisplay "o"])
    []
    [("g1", Editor.mkGroup "g1" "New Group" "rgba(239, 68, 68, 0.2)" ["t"])]
    [] None.

(** A saved state: the chain, its first edge, one group. *)
Definition savedState : Loader.State :=
  Loader.mkState
    [("t", Loader.mkStoredNode (Examples.textInput "t" "a cat") (Loader.Num 1));
     ("g", Loader.mkStoredNode (Examples.textGenerator "g" false) (Loader.Num 2))]
    [Examples.wire "e1" "t" "t-output" "g" "g-input"]
    [("g1", Editor.mkGroup "g1" "New Group" "rgba(239, 68, 68, 0.2)" ["t"; "g"])]
    [] 3.

(** The nodes of a workflow file: one with index 5, one with [null],
  two without an index. *)
Definition stackedFile : list Loader.StoredNode :=
  [Loader.mkStoredNode (Examples.textInput "t" "a cat") (Loader.Num 5);
   Loader.mkStoredNode (Examples.textGenerator "g" false) Loader.Absent;
   Loader.mkStoredNode (Examples.imageEditor "d") Loader.Null;
   Loader.mkStoredNode (Examples.outputDisplay "o") Loader.Absent].

(** A workflow file whose only edge leaves a node that the file does
  not contain. *)
Definition brokenFile : Loader.File :=
  Loader.mkFile
    (Some [Loader.mkStoredNode (Examples.textGenerator "g" false) Loader.Absent])
    (Some [mkEdge "e1" "ghost" "ghost-output" "g" "g-input"])
    None None.


(** Identifiers drawn one after the other: [copy-0], [copy-1], ... *)
Definition uuid (k : nat) : string := "copy-" +:+ pretty k.

End Scenarios.

(** * Proofs *)

(** ** Scheduler: construction of [adj] and [inDegree] *)
Section SchedulerBuild.
Import Scheduler Graph.
Variable nodeIds : list string.

Lemma initAdj_lookup (l : list string) (acc : gmap string (list string)) u :
  fold_left (fun acc id => <[id := []]> acc) l acc !! u =
  if decide (u ∈ l) then Some [] else acc !! u.
Proof.
  revert acc. induction l as [|x l IH]; intros acc; simpl.
  - done.
  - rewrite IH. destruct (decide (u ∈ l)) as [Hin|Hin].
    + rewrite decide_True; [done | by right].
    + destruct (decide (x = u)) as [->|Hne].
      * rewrite lookup_insert_eq, decide_True; [done | by left].
      * rewrite lookup_insert_ne by done.
        rewrite decide_False; [done|]. rewrite elem_of_cons. by intros [->|?].
Qed.

Lemma initInDegree_lookup (l : list string) (acc : gmap string jsnum) u :
  fold_left (fun acc id => <[id := Num 0%Z]> acc) l acc !! u =
  if decide (u ∈ l) then Some (Num 0%Z) else acc !! u.
Proof.
  revert acc. induction l as [|x l IH]; intros acc; simpl.
  - done.
  - rewrite IH. destruct (decide (u ∈ l)) as [Hin|Hin].
    + rewrite decide_True; [done | by right].
    + destruct (decide (x = u)) as [->|Hne].
      * rewrite lookup_insert_eq, decide_True; [done | by left].
      * rewrite lookup_insert_ne by done.
        rewrite decide_False; [done|]. rewrite elem_of_cons. by intros [->|?].
Qed.

Lemma tablesAfter_init :
  tablesAfter nodeIds [] (initAdj nodeIds) (initInDegree nodeIds).
Proof.
  unfold tablesAfter, initAdj, initInDegree.
  repeat split; intros u Hu.
  - rewrite initAdj_lookup. by rewrite decide_True.
  - rewrite initAdj_lookup. by rewrite decide_False.
  - rewrite initInDegree_lookup. by rewrite decide_True.
  - rewrite initInDegree_lookup. rewrite decide_False by done. by left.
Qed.

Lemma successors_snoc seen e u :
  successors (seen ++ [e]) u =
  if decide (sourceNodeId e = u) then successors seen u ++ [targetNodeId e]
  else successors seen u.
Proof.
  unfold successors. rewrite filter_app, map_app.
  rewrite filter_cons, filter_nil.
  destruct (decide (sourceNodeId e = u)); simpl; [done|by rewrite app_nil_r].
Qed.

Lemma remaining_snoc seen e done v :
  remaining (seen ++ [e]) done v =
  if decide (targetNodeId e = v ∧ sourceNodeId e ∉ done)
  then S (remaining seen done v) else remaining seen done v.
Proof.
  unfold remaining. rewrite filter_app, length_app.
  rewrite filter_cons, filter_nil.
  destruct (decide (targetNodeId e = v ∧ sourceNodeId e ∉ done)); simpl; lia.
Qed.

Lemma addEdge_tables seen adj inDegree e :
  tablesAfter nodeIds seen adj inDegree →
  sourceNodeId e ∈ nodeIds →
  ∃ adj' inDegree',
    addEdge adj inDegree e = inr (adj', inDegree') ∧
    tablesAfter nodeIds (seen ++ [e]) adj' inDegree'.
Proof.
  intros (Ha & Hna & Hd & Hnd) Hsrc. unfold addEdge.
  rewrite (Ha _ Hsrc). eexists _, _. split; [done|].
  repeat split.
  - intros u Hu. rewrite successors_snoc.
    destruct (decide (sourceNodeId e = u)) as [<-|Hne].
    + by rewrite lookup_insert_eq.
    + rewrite lookup_insert_ne by done. auto.
  - intros u Hu. rewrite lookup_insert_ne; [auto|]. by intros <-.
  - intros v Hv. rewrite remaining_snoc.
    destruct (decide (targetNodeId e = v)) as [<-|Hne].
    + rewrite lookup_insert_eq, (Hd _ Hv). simpl.
      rewrite decide_True; [f_equal; f_equal; lia|].
      split; [done|apply not_elem_of_nil].
    + rewrite lookup_insert_ne by done.
      rewrite decide_False by (by intros [? _]). auto.
  - intros v Hv.
    destruct (decide (targetNodeId e = v)) as [<-|Hne].
    + rewrite lookup_insert_eq. right.
      destruct (Hnd _ Hv) as [-> | ->]; done.
    + rewrite lookup_insert_ne by done. auto.
Qed.

Lemma addEdges_tables es : ∀ seen adj inDegree,
  tablesAfter nodeIds seen adj inDegree →
  sourcesPresent nodeIds es →
  ∃ adj' inDegree',
    addEdges es adj inDegree = inr (adj', inDegree') ∧
    tablesAfter nodeIds (seen ++ es) adj' inDegree'.
Proof.
  induction es as [|e es IH]; intros seen adj inDegree Ht Hs; simpl.
  - eexists _, _. split; [done|]. by rewrite app_nil_r.
  - destruct (addEdge_tables _ _ _ e Ht) as (adj1 & inDeg1 & -> & Ht1).
    { apply Hs. by left. }
    destruct (IH _ _ _ Ht1) as (adj2 & inDeg2 & -> & Ht2).
    { intros e' He'. apply Hs. by right. }
    eexists _, _. split; [done|]. by rewrite <- app_assoc in Ht2.
Qed.

(** An edge whose source is not a node makes the construction raise. *)
Lemma addEdges_raises es : ∀ seen adj inDegree,
  tablesAfter nodeIds seen adj inDegree →
  (∃ e, e ∈ es ∧ sourceNodeId e ∉ nodeIds) →
  addEdges es adj inDegree = inl TypeError.
Proof.
  induction es as [|e es IH]; intros seen adj inDegree Ht (e0 & He0 & Habs).
  - by apply elem_of_nil in He0.
  - simpl. destruct (decide (sourceNodeId e ∈ nodeIds)) as [Hin|Hout].
    + destruct (addEdge_tables _ _ _ e Ht Hin) as (adj1 & inDeg1 & -> & Ht1).
      apply (IH _ _ _ Ht1). exists e0. split; [|done].
      apply elem_of_cons in He0 as [->|?]; [done|done].
    + unfold addEdge. destruct Ht as (_ & Hna & _). by rewrite (Hna _ Hout).
Qed.

End SchedulerBuild.

(** ** Scheduler: the queue loop *)
Section SchedulerLoop.
Import Scheduler Graph.
Variable nodeIds : list string.
Variable es : list Edge.
Variable adj : gmap string (list string).
Hypothesis adj_nodes : ∀ u, u ∈ nodeIds → adj !! u = Some (successors es u).

Lemma isZero_Num z : isZero (Some (Num z)) = bool_decide (z = 0%Z).
Proof. by destruct z. Qed.

Lemma occ_cons v x l :
  occ v (x :: l) = if decide (x = v) then S (occ v l) else occ v l.
Proof. unfold occ. rewrite filter_cons. by destruct (decide (x = v)). Qed.

Lemma occ_pos_elem v l : (0 < occ v l)%nat → v ∈ l.
Proof.
  unfold occ. intros H.
  destruct (filter (λ x, x = v) l) as [|y l'] eqn:E; [simpl in H; lia|].
  assert (Hy : y ∈ filter (λ x, x = v) l) by (rewrite E; by left).
  apply list_elem_of_filter in Hy as [-> ?]. done.
Qed.

(** Effect of [adj[u].forEach(...)] on the counters and on the queue. *)
Lemma relax_fold vs : ∀ (c : string → Z) inDegree queue,
  (∀ v, v ∈ nodeIds → inDegree !! v = Some (Num (c v))) →
  (∀ v, v ∉ nodeIds → inDegree !! v = None ∨ inDegree !! v = Some NaN) →
  ∃ inDegree' extra,
    fold_left relax vs (inDegree, queue) = (inDegree', queue ++ extra) ∧
    (∀ v, v ∈ nodeIds →
          inDegree' !! v = Some (Num (c v - Z.of_nat (occ v vs)))) ∧
    (∀ v, v ∉ nodeIds → inDegree' !! v = None ∨ inDegree' !! v = Some NaN) ∧
    NoDup extra ∧
    (∀ v, v ∈ extra ↔ v ∈ nodeIds ∧ (1 ≤ c v ≤ Z.of_nat (occ v vs))%Z).
Proof.
  induction vs as [|v0 vs IH]; intros c inDegree queue Hc Hn; simpl.
  - exists inDegree, []. rewrite app_nil_r.
    split; [done|]. split; [|split; [done|split; [constructor|]]].
    + intros v Hv. rewrite (Hc _ Hv). do 2 f_equal. unfold occ. simpl. lia.
    + intros v. split; [by intros ?%elem_of_nil|].
      intros [_ H]. unfold occ in H. simpl in H. lia.
  - set (c1 := λ v, if decide (v0 = v) then (c v - 1)%Z else c v).
    set (inDegree1 := <[v0 := decr (inDegree !! v0)]> inDegree).
    assert (Hc1 : ∀ v, v ∈ nodeIds → inDegree1 !! v = Some (Num (c1 v))).
    { intros v Hv. unfold inDegree1, c1.
      destruct (decide (v0 = v)) as [->|Hne].
      - by rewrite lookup_insert_eq, (Hc _ Hv).
      - rewrite lookup_insert_ne by done. auto. }
    assert (Hn1 : ∀ v, v ∉ nodeIds →
                       inDegree1 !! v = None ∨ inDegree1 !! v = Some NaN).
    { intros v Hv. unfold inDegree1.
      destruct (decide (v0 = v)) as [->|Hne].
      - rewrite lookup_insert_eq. right.
        destruct (Hn _ Hv) as [-> | ->]; done.
      - rewrite lookup_insert_ne by done. auto. }
    unfold relax at 2. simpl. fold inDegree1.
    destruct (isZero (inDegree1 !! v0)) eqn:Hz.
    + (* [v0] reaches zero and is pushed *)
      assert (Hv0 : v0 ∈ nodeIds ∧ c v0 = 1%Z).
      { destruct (decide (v0 ∈ nodeIds)) as [Hin|Hout].
        - split; [done|]. rewrite (Hc1 _ Hin), isZero_Num in Hz.
          apply bool_decide_eq_true in Hz. unfold c1 in Hz.
          rewrite decide_True in Hz by done. lia.
        - destruct (Hn1 _ Hout) as [E|E]; rewrite E in Hz; done. }
      destruct Hv0 as [Hin0 Hone].
      destruct (IH c1 inDegree1 (queue ++ [v0]) Hc1 Hn1)
        as (inDegree' & extra & Hfold & Hc' & Hn' & Hnd & Hex).
      exists inDegree', (v0 :: extra). rewrite Hfold.
      split; [by rewrite <- app_assoc|].
      split; [|split; [done|split]].
      * intros v Hv. rewrite (Hc' _ Hv), occ_cons. unfold c1.
        do 2 f_equal. destruct (decide (v0 = v)); lia.
      * constructor; [|done]. rewrite Hex. unfold c1.
        rewrite decide_True by done. lia.
      * intros v. rewrite elem_of_cons, Hex, occ_cons. unfold c1.
        destruct (decide (v0 = v)) as [->|Hne].
        -- split; [intros [_|[? ?]]; split; auto; lia|].
           intros [? ?]. destruct (decide (c v = 1%Z)); [by left|right].
           split; [done|lia].
        -- split; [intros [->|?]; done|]. intros ?. by right.
    + destruct (IH c1 inDegree1 queue Hc1 Hn1)
        as (inDegree' & extra & Hfold & Hc' & Hn' & Hnd & Hex).
      exists inDegree', extra. rewrite Hfold.
      split; [done|]. split; [|split; [done|split; [done|]]].
      * intros v Hv. rewrite (Hc' _ Hv), occ_cons. unfold c1.
        do 2 f_equal. destruct (decide (v0 = v)); lia.
      * intros v. rewrite Hex, occ_cons. unfold c1.
        destruct (decide (v0 = v)) as [->|Hne]; [|done].
        split; [intros [? ?]; split; [done|lia]|].
        intros [Hv ?]. split; [done|].
        assert (c v ≠ 1%Z); [|lia]. intros Hone.
        rewrite (Hc1 _ Hv), isZero_Num in Hz.
        apply bool_decide_eq_false in Hz. apply Hz. unfold c1.
        rewrite decide_True by done. lia.
Qed.

Lemma occ_successors v u l :
  occ v (successors l u) =
  length (filter (λ e, sourceNodeId e = u ∧ targetNodeId e = v) l).
Proof.
  unfold successors, occ. induction l as [|e l IH]; [done|].
  rewrite !filter_cons.
  destruct (decide (sourceNodeId e = u)) as [Hs|Hs]; simpl.
  - rewrite filter_cons.
    destruct (decide (targetNodeId e = v)) as [Ht|Ht].
    + rewrite decide_True by done. simpl. by rewrite IH.
    + rewrite decide_False by (by intros [_ ?]). done.
  - rewrite decide_False by (by intros [? _]). done.
Qed.

(** Moving [u] into the processed set removes exactly the edges
  [u -> v] from the count of [v]. *)
Lemma remaining_snoc_done l done u v :
  u ∉ done →
  remaining l done v =
  (remaining l (done ++ [u]) v + occ v (successors l u))%nat.
Proof.
  intros Hu. rewrite occ_successors. unfold remaining.
  induction l as [|e l IH]; [done|].
  rewrite !filter_cons.
  destruct (decide (targetNodeId e = v)) as [Ht|Ht].
  - destruct (decide (sourceNodeId e = u)) as [Hs|Hs].
    + rewrite decide_True by (by rewrite Hs).
      rewrite decide_False.
      2:{ intros [_ H]. apply H. rewrite elem_of_app, Hs. right. by left. }
      rewrite decide_True by done. simpl. rewrite IH. lia.
    + rewrite (decide_False (P := sourceNodeId e = u ∧ _)) by (by intros [? _]).
      destruct (decide (sourceNodeId e ∈ done)) as [Hd|Hd].
      * rewrite decide_False by (by intros [_ ?]).
        rewrite decide_False.
        2:{ intros [_ H]. apply H. rewrite elem_of_app. by left. }
        done.
      * rewrite decide_True by done.
        rewrite decide_True.
        2:{ split; [done|]. rewrite elem_of_app, list_elem_of_singleton.
            by intros [?|?]. }
        simpl. by rewrite IH.
  - rewrite !decide_False by (by intros [? ?]). done.
Qed.

Lemma remaining_pos_edge done v :
  (0 < remaining es done v)%nat →
  ∃ e, e ∈ es ∧ targetNodeId e = v ∧ sourceNodeId e ∉ done.
Proof.
  unfold remaining. intros H.
  destruct (filter _ es) as [|e l'] eqn:E; [simpl in H; lia|].
  assert (He : e ∈ filter (λ e, targetNodeId e = v ∧ sourceNodeId e ∉ done) es)
    by (rewrite E; by left).
  apply list_elem_of_filter in He as [[? ?] ?]. eauto.
Qed.

Lemma remaining_zero_edge done v e :
  remaining es done v = 0%nat → e ∈ es → targetNodeId e = v →
  sourceNodeId e ∈ done.
Proof.
  unfold remaining. intros H He Ht.
  destruct (decide (sourceNodeId e ∈ done)) as [|Hn]; [done|].
  assert (Hin : e ∈ filter (λ e, targetNodeId e = v ∧ sourceNodeId e ∉ done) es)
    by (apply list_elem_of_filter; auto).
  apply length_zero_iff_nil in H. rewrite H in Hin. by apply elem_of_nil in Hin.
Qed.

End SchedulerLoop.

Section SchedulerInvariant.
Import Scheduler Graph.
Variable nodeIds : list string.
Variable es : list Edge.
Variable adj : gmap string (list string).
Hypothesis adj_nodes : ∀ u, u ∈ nodeIds → adj !! u = Some (successors es u).

Lemma before_app_r a b l l' : before a b l → before a b (l ++ l').
Proof.
  intros (i & j & Hi & Hj & Hlt). exists i, j.
  split; [by apply lookup_app_l_Some|]. split; [by apply lookup_app_l_Some|done].
Qed.

Lemma before_snoc a b l : a ∈ l → before a b (l ++ [b]).
Proof.
  intros (i & Hi)%list_elem_of_lookup. exists i, (length l).
  split; [by apply lookup_app_l_Some|]. split.
  - rewrite lookup_app_r by lia. by rewrite Nat.sub_diag.
  - by apply lookup_lt_Some in Hi.
Qed.

Lemma before_trans a b c l :
  NoDup l → before a b l → before b c l → before a c l.
Proof.
  intros Hnd (i & j & Hi & Hj & Hij) (j' & k & Hj' & Hk & Hjk).
  assert (j = j') as <- by (eapply NoDup_lookup; eauto).
  exists i, k. repeat split; auto. lia.
Qed.

Lemma before_irrefl a l : NoDup l → ¬ before a a l.
Proof.
  intros Hnd (i & j & Hi & Hj & Hij).
  assert (i = j) by (eapply NoDup_lookup; eauto). lia.
Qed.

Lemma before_elem a b l : before a b l → a ∈ l ∧ b ∈ l.
Proof.
  intros (i & j & Hi & Hj & _). split; apply list_elem_of_lookup; eauto.
Qed.

Lemma visit_inv inDegree u queue order :
  Inv nodeIds es inDegree (u :: queue) order →
  Inv nodeIds es (visit adj u inDegree queue).1 (visit adj u inDegree queue).2
      (order ++ [u]).
Proof.
  intros [Hnd Hnodes Hcount Hnan Hready Htopo].
  assert (Hu : u ∈ nodeIds).
  { apply Hnodes. rewrite elem_of_app. right. by left. }
  assert (Hfresh : u ∉ order).
  { apply NoDup_app in Hnd as (_ & Hdisj & _). intros Hin.
    apply (Hdisj _ Hin). by left. }
  unfold visit. rewrite (adj_nodes _ Hu).
  destruct (relax_fold nodeIds (successors es u)
              (λ v, Z.of_nat (remaining es order v)) inDegree queue Hcount Hnan)
    as (inDegree' & extra & -> & Hc' & Hn' & Hnde & Hex).
  simpl.
  assert (Hshift : (order ++ [u]) ++ queue = order ++ u :: queue)
    by (by rewrite <- app_assoc).
  assert (Hextra : ∀ x, x ∈ extra ↔
            x ∈ nodeIds ∧ (0 < remaining es order x)%nat ∧
            remaining es (order ++ [u]) x = 0%nat).
  { intros x. rewrite Hex.
    split; intros [Hx H]; (split; [done|]);
      pose proof (remaining_snoc_done es order u x Hfresh); lia. }
  split.
  - rewrite app_assoc, Hshift. apply NoDup_app. split; [done|]. split; [|done].
    intros x Hx Hxe. apply Hextra in Hxe as (Hxn & Hpos & _).
    apply (Hready _ Hxn) in Hx. lia.
  - intros x. rewrite app_assoc, Hshift, elem_of_app.
    intros [Hx|Hx]; [by apply Hnodes|]. by apply Hextra in Hx as [? _].
  - intros v Hv. rewrite (Hc' _ Hv). do 2 f_equal.
    pose proof (remaining_snoc_done es order u v Hfresh). lia.
  - done.
  - intros v Hv. rewrite app_assoc, Hshift, elem_of_app, Hextra, (Hready _ Hv).
    pose proof (remaining_snoc_done es order u v Hfresh).
    split.
    + intros [H0|(_ & _ & H0)]; lia.
    + intros H0. destruct (decide (remaining es order v = 0%nat)); [by left|].
      right. split; [done|]. lia.
  - intros e He. rewrite elem_of_app, list_elem_of_singleton.
    intros [Hin|Heq].
    + apply before_app_r. by apply Htopo.
    + rewrite Heq. apply before_snoc.
      eapply remaining_zero_edge; [|done|exact Heq].
      apply (Hready _ Hu). rewrite elem_of_app. right. by left.
Qed.

Lemma inv_length inDegree queue order :
  Inv nodeIds es inDegree queue order →
  (length order + length queue ≤ length nodeIds)%nat.
Proof.
  intros [Hnd Hnodes _ _ _ _]. rewrite <- length_app.
  apply submseteq_length, NoDup_submseteq; done.
Qed.

(** The loop empties the queue within the fuel it is given by
  [executionOrder], and the invariant holds at exit. *)
Lemma loop_inv fuel : ∀ inDegree queue order,
  Inv nodeIds es inDegree queue order →
  (length nodeIds ≤ fuel + length order)%nat →
  ∃ order' inDegree',
    loop fuel adj inDegree queue order = Some order' ∧
    Inv nodeIds es inDegree' [] order'.
Proof.
  induction fuel as [|fuel IH]; intros inDegree queue order HI Hfuel.
  - destruct queue as [|u queue]; simpl; [by eauto|].
    apply inv_length in HI. simpl in *. lia.
  - destruct queue as [|u queue]; simpl; [by eauto|].
    apply IH; [by apply visit_inv|].
    rewrite length_app. simpl. lia.
Qed.

End SchedulerInvariant.

(** ** Scheduler: what the computed order is *)
Section SchedulerResult.
Import Scheduler Graph.

Lemma initial_inv nodeIds es adj inDegree :
  NoDup nodeIds →
  tablesAfter nodeIds es adj inDegree →
  Inv nodeIds es inDegree
      (filter (fun id => isZero (inDegree !! id)) nodeIds) [].
Proof.
  intros Hnd (Ha & Hna & Hd & Hnan).
  assert (Hq : ∀ v, v ∈ filter (fun id => isZero (inDegree !! id)) nodeIds
                    ↔ v ∈ nodeIds ∧ remaining es [] v = 0%nat).
  { intros v. rewrite list_elem_of_filter. split.
    - intros [Hz Hv]. split; [done|].
      rewrite (Hd _ Hv), isZero_Num in Hz.
      apply bool_decide_unpack in Hz. lia.
    - intros [Hv Hz]. split; [|done].
      rewrite (Hd _ Hv), isZero_Num. apply bool_decide_pack. lia. }
  split; simpl.
  - by apply NoDup_filter.
  - intros x Hx. by apply Hq in Hx as [? _].
  - done.
  - done.
  - intros v Hv. rewrite Hq. by split; [intros [_ ?]|].
  - intros e _ H. by apply elem_of_nil in H.
Qed.

Theorem executionOrder_kahn nodeIds es :
  NoDup nodeIds →
  sourcesPresent nodeIds es →
  ∃ order, executionOrder nodeIds es = Order order ∧
           kahnOutput nodeIds es order.
Proof.
  intros Hnd Hsrc. unfold executionOrder.
  destruct (addEdges_tables nodeIds es [] _ _ (tablesAfter_init nodeIds) Hsrc)
    as (adj & inDegree & -> & Ht).
  simpl in Ht.
  assert (Hadj : ∀ u, u ∈ nodeIds → adj !! u = Some (successors es u))
    by apply Ht.
  destruct (loop_inv nodeIds es adj Hadj (length nodeIds) inDegree _ []
              (initial_inv _ _ _ _ Hnd Ht)) as (order & inDeg' & -> & HI).
  { simpl. lia. }
  exists order. split; [done|].
  destruct HI as [Hnd' Hnodes Hcount Hnan Hready Htopo].
  rewrite app_nil_r in *.
  repeat split; auto.
  intros v Hv Hout.
  apply (remaining_pos_edge es).
  destruct (decide (remaining es order v = 0%nat)) as [H0|H0]; [|lia].
  by apply (Hready _ Hv) in H0.
Qed.

Theorem executionOrder_raises nodeIds es :
  (∃ e, e ∈ es ∧ sourceNodeId e ∉ nodeIds) →
  executionOrder nodeIds es = Raised TypeError.
Proof.
  intros H. unfold executionOrder.
  by rewrite (addEdges_raises nodeIds es [] _ _ (tablesAfter_init nodeIds) H).
Qed.

(** The fuel given to the loop always suffices. *)
Lemma executionOrder_finishes nodeIds es :
  NoDup nodeIds → executionOrder nodeIds es ≠ Unfinished.
Proof.
  intros Hnd.
  destruct (decide (Forall (λ e, sourceNodeId e ∈ nodeIds) es)) as [Hall|Hsome].
  - rewrite Forall_forall in Hall.
    destruct (executionOrder_kahn nodeIds es Hnd Hall) as (order & -> & _). done.
  - apply not_Forall_Exists in Hsome; [|apply _].
    apply Exists_exists in Hsome.
    by rewrite (executionOrder_raises nodeIds es Hsome).
Qed.

Variable nodeIds : list string.
Variable es : list Edge.
Variable order : list string.
Hypothesis Hsrc : sourcesPresent nodeIds es.
Hypothesis Hout : kahnOutput nodeIds es order.

(** Every ancestor of a scheduled node is scheduled earlier. *)
Lemma path_before u v :
  tc (edgeRel es) u v → v ∈ order → before u v order.
Proof.
  destruct Hout as (Hnd & _ & Htopo & _).
  induction 1 as [u v (e & He & <- & <-)|u w v (e & He & <- & <-) _ IH];
    intros Hv.
  - by apply Htopo.
  - specialize (IH Hv). eapply before_trans; [done| |exact IH].
    apply Htopo; [done|]. by apply before_elem in IH as [? _].
Qed.

Lemma scheduled_not_blocked v : v ∈ order → ¬ blocked es v.
Proof.
  destruct Hout as (Hnd & _).
  intros Hv (c & Hc & Hcv).
  apply rtc_tc in Hcv as [->|Hcv].
  - apply (before_irrefl v order Hnd). by apply path_before.
  - pose proof (path_before _ _ Hcv Hv) as Hb.
    apply before_elem in Hb as [Hcin _].
    apply (before_irrefl c order Hnd). by apply path_before.
Qed.

(** Walking backwards through unscheduled nodes must revisit one. *)
Lemma unscheduled_walk v (k : nat) : ∀ h visited,
  (length nodeIds ≤ length visited + k)%nat →
  NoDup visited →
  (∀ x, x ∈ visited → x ∈ nodeIds ∧ tc (edgeRel es) h x) →
  h ∈ nodeIds → h ∉ order → rtc (edgeRel es) h v →
  blocked es v.
Proof.
  destruct Hout as (_ & _ & _ & Hpred).
  induction k as [|k IH]; intros h visited Hlen Hnd Hvis Hh Hho Hhv.
  - destruct (decide (h ∈ visited)) as [Hin|Hnin].
    + exists h. split; [|done]. by apply Hvis.
    + exfalso.
      assert (length (h :: visited) ≤ length nodeIds)%nat; [|simpl in *; lia].
      apply submseteq_length, NoDup_submseteq; [by constructor|].
      intros x [->|Hx]%elem_of_cons; [done|by apply Hvis].
  - destruct (decide (h ∈ visited)) as [Hin|Hnin].
    + exists h. split; [|done]. by apply Hvis.
    + destruct (Hpred _ Hh Hho) as (e & He & Het & Hes).
      assert (Hstep : edgeRel es (sourceNodeId e) h) by (by exists e).
      apply (IH (sourceNodeId e) (h :: visited)).
      * simpl. lia.
      * by constructor.
      * intros x [->|Hx]%elem_of_cons.
        -- split; [done|by apply tc_once].
        -- split; [by apply Hvis|]. eapply tc_l; [done|by apply Hvis].
      * by apply Hsrc.
      * done.
      * by eapply rtc_l.
Qed.

Lemma unscheduled_blocked v : v ∈ nodeIds → v ∉ order → blocked es v.
Proof.
  intros Hv Hnv.
  apply (unscheduled_walk v (length nodeIds) v []); simpl; auto.
  - constructor.
  - by intros x ?%elem_of_nil.
  - done.
Qed.

(** A node is scheduled exactly when no cycle lies on or above it. *)
Lemma scheduled_iff v : v ∈ order ↔ v ∈ nodeIds ∧ ¬ blocked es v.
Proof.
  split.
  - intros Hv. split; [by apply Hout|by apply scheduled_not_blocked].
  - intros [Hv Hnb]. destruct (decide (v ∈ order)); [done|].
    exfalso. by apply Hnb, unscheduled_blocked.
Qed.

End SchedulerResult.

(** Closed decidable goals are settled by evaluation. *)
Ltac decide_by_compute :=
  unfold JsObject.wf;
  lazymatch goal with
  | |- ?P => apply (bool_decide_unpack P); vm_compute; exact I
  end.

(** ** Claims about the scheduler *)
Section SchedulerClaims.
Import Scheduler Graph.

Lemma acyclic_ranked es (rank : string → nat) :
  (∀ e, e ∈ es → (rank (sourceNodeId e) < rank (targetNodeId e))%nat) →
  acyclic es.
Proof.
  intros Hr v Hv.
  assert (H : ∀ a b, tc (edgeRel es) a b → (rank a < rank b)%nat).
  { induction 1 as [a b (e & He & <- & <-)|a b c (e & He & <- & <-) _ IH].
    - by apply Hr.
    - specialize (Hr _ He). lia. }
  specialize (H _ _ Hv). lia.
Qed.

Lemma kahnOutput_complete nodeIds es order :
  NoDup nodeIds → sourcesPresent nodeIds es → acyclic es →
  kahnOutput nodeIds es order → order ≡ₚ nodeIds.
Proof.
  intros Hnd Hsrc Hac Hout.
  apply NoDup_Permutation; [apply Hout|done|].
  intros v. rewrite (scheduled_iff nodeIds es order Hsrc Hout).
  split; [by intros [? _]|]. intros Hv. split; [done|].
  intros (c & Hc & _). by apply (Hac c).
Qed.

End SchedulerClaims.

(** C1.  For an acyclic graph whose edges all connect present nodes, the
    scheduler of [runWorkflow] returns an order in which, for every edge
    (u -> v) with both endpoints in the node set, u occurs before v, and
    in which every node of the graph occurs exactly once. *)
Theorem C1_topological_order (nodes : JsObject.t Node) (edges : JsObject.t Edge) :
  JsObject.wf nodes →
  Graph.endpointsPresent (JsObject.keys nodes) (JsObject.values edges) →
  Graph.acyclic (JsObject.values edges) →
  ∃ order,
    Scheduler.executionOrder (JsObject.keys nodes) (JsObject.values edges)
      = Scheduler.Order order ∧
    (∀ e, e ∈ JsObject.values edges →
          sourceNodeId e ∈ JsObject.keys nodes →
          targetNodeId e ∈ JsObject.keys nodes →
          Graph.before (sourceNodeId e) (targetNodeId e) order) ∧
    NoDup order ∧
    order ≡ₚ JsObject.keys nodes.
Proof.
  intros Hwf Hep Hac.
  assert (Hsrc : Graph.sourcesPresent (JsObject.keys nodes) (JsObject.values edges)).
  { intros e He. by apply Hep. }
  destruct (executionOrder_kahn _ _ Hwf Hsrc) as (order & Heq & Hout).
  pose proof (kahnOutput_complete _ _ _ Hwf Hsrc Hac Hout) as Hperm.
  exists order. split; [done|]. split; [|split; [apply Hout|done]].
  intros e He _ Ht. apply Hout; [done|]. by rewrite Hperm.
Qed.

Lemma C1_witness :
  JsObject.wf Examples.chainNodes ∧
  Graph.endpointsPresent (JsObject.keys Examples.chainNodes)
                         (JsObject.values Examples.chainEdges) ∧
  Graph.acyclic (JsObject.values Examples.chainEdges) ∧
  ∃ order,
    Scheduler.executionOrder (JsObject.keys Examples.chainNodes)
                             (JsObject.values Examples.chainEdges)
      = Scheduler.Order order ∧
    (∀ e, e ∈ JsObject.values Examples.chainEdges →
          sourceNodeId e ∈ JsObject.keys Examples.chainNodes →
          targetNodeId e ∈ JsObject.keys Examples.chainNodes →
          Graph.before (sourceNodeId e) (targetNodeId e) order) ∧
    NoDup order ∧
    order ≡ₚ JsObject.keys Examples.chainNodes.
Proof.
  assert (Hwf : JsObject.wf Examples.chainNodes).
  { decide_by_compute. }
  assert (Hep : Graph.endpointsPresent (JsObject.keys Examples.chainNodes)
                  (JsObject.values Examples.chainEdges)).
  { unfold Graph.endpointsPresent. apply Forall_forall.
    decide_by_compute. }
  assert (Hac : Graph.acyclic (JsObject.values Examples.chainEdges)).
  { apply (acyclic_ranked _ Examples.chainRank). apply Forall_forall.
    decide_by_compute. }
  split; [exact Hwf|]. split; [exact Hep|]. split; [exact Hac|].
  exact (C1_topological_order Examples.chainNodes Examples.chainEdges Hwf Hep Hac).
Defined.

(** C4 (as amended).  For every graph whose edges connect present nodes,
    cyclic or not, the scheduler raises no error and returns an order
    without repetitions; the nodes on a cycle never occur in it; a node
    occurs in it exactly when it is neither on a cycle nor reachable from
    one; and for every edge (u -> v) whose target occurs, u occurs
    before v. *)
Theorem C4_cycle_exclusion (nodes : JsObject.t Node) (edges : JsObject.t Edge) :
  JsObject.wf nodes →
  Graph.endpointsPresent (JsObject.keys nodes) (JsObject.values edges) →
  ∃ order,
    Scheduler.executionOrder (JsObject.keys nodes) (JsObject.values edges)
      = Scheduler.Order order ∧
    NoDup order ∧
    (∀ v, Graph.onCycle (JsObject.values edges) v → v ∉ order) ∧
    (∀ v, v ∈ order ↔
          v ∈ JsObject.keys nodes ∧ ¬ Graph.blocked (JsObject.values edges) v) ∧
    (∀ e, e ∈ JsObject.values edges → targetNodeId e ∈ order →
          Graph.before (sourceNodeId e) (targetNodeId e) order).
Proof.
  intros Hwf Hep.
  assert (Hsrc : Graph.sourcesPresent (JsObject.keys nodes) (JsObject.values edges)).
  { intros e He. by apply Hep. }
  destruct (executionOrder_kahn _ _ Hwf Hsrc) as (order & Heq & Hout).
  exists order. split; [done|]. split; [apply Hout|].
  split; [|split; [by apply scheduled_iff|apply Hout]].
  intros v Hc Hv. apply (scheduled_not_blocked _ _ _ Hout v Hv).
  exists v. split; [done|apply rtc_refl].
Qed.

Lemma C4_witness :
  JsObject.wf Examples.loopNodes ∧
  Graph.endpointsPresent (JsObject.keys Examples.loopNodes)
                         (JsObject.values Examples.loopEdges) ∧
  ∃ order,
    Scheduler.executionOrder (JsObject.keys Examples.loopNodes)
                             (JsObject.values Examples.loopEdges)
      = Scheduler.Order order ∧
    NoDup order ∧
    (∀ v, Graph.onCycle (JsObject.values Examples.loopEdges) v → v ∉ order) ∧
    (∀ v, v ∈ order ↔
          v ∈ JsObject.keys Examples.loopNodes ∧
          ¬ Graph.blocked (JsObject.values Examples.loopEdges) v) ∧
    (∀ e, e ∈ JsObject.values Examples.loopEdges → targetNodeId e ∈ order →
          Graph.before (sourceNodeId e) (targetNodeId e) order).
Proof.
  assert (Hwf : JsObject.wf Examples.loopNodes).
  { decide_by_compute. }
  assert (Hep : Graph.endpointsPresent (JsObject.keys Examples.loopNodes)
                  (JsObject.values Examples.loopEdges)).
  { unfold Graph.endpointsPresent. apply Forall_forall.
    decide_by_compute. }
  split; [exact Hwf|]. split; [exact Hep|].
  exact (C4_cycle_exclusion Examples.loopNodes Examples.loopEdges Hwf Hep).
Defined.

(** C4, as stated, fails: in the graph [a <-> b -> c] the node [c] is a
    node of the graph and lies on no cycle, yet it is not in the computed
    order (which is empty). *)
Lemma C4_counterexample :
  Graph.onCycle (JsObject.values Examples.loopEdges) "a" ∧
  "c" ∈ JsObject.keys Examples.loopNodes ∧
  ¬ Graph.onCycle (JsObject.values Examples.loopEdges) "c" ∧
  Scheduler.executionOrder (JsObject.keys Examples.loopNodes)
                           (JsObject.values Examples.loopEdges)
    = Scheduler.Order [] ∧
  "c" ∉ ([] : list string).
Proof.
  split; [|split; [|split; [|split]]].
  - eapply tc_l; [|apply tc_once].
    + eexists. split; [by left|]. done.
    + eexists. split; [right; by left|]. done.
  - decide_by_compute.
  - intros H.
    assert (Hno : ∀ x, ¬ Graph.edgeRel (JsObject.values Examples.loopEdges) "c" x).
    { assert (HF : Forall (λ e, sourceNodeId e ≠ "c")
                          (JsObject.values Examples.loopEdges))
        by decide_by_compute.
      rewrite Forall_forall in HF.
      intros x (e & He & Hs & _). exact (HF _ He Hs). }
    inversion H as [? ? HR|? ? ? HR]; subst; exact (Hno _ HR).
  - vm_compute. reflexivity.
  - apply not_elem_of_nil.
Qed.

(** C10.  The scheduling phase completes, without exception, on every
    graph whose edges have both endpoints among the node keys; on every
    graph with an edge whose [sourceNodeId] is not a node key (there is
    one) it raises a TypeError, and [runWorkflow] stops there: the nodes
    have only been reset, no node was executed and no service call was
    made. *)
Theorem C10_scheduling_totality :
  (∀ (nodes : JsObject.t Node) (edges : JsObject.t Edge),
     JsObject.wf nodes →
     Graph.endpointsPresent (JsObject.keys nodes) (JsObject.values edges) →
     ∃ order,
       Scheduler.executionOrder (JsObject.keys nodes) (JsObject.values edges)
         = Scheduler.Order order) ∧
  (∀ env geminiService (edges : JsObject.t Edge) (w : Workflow.World),
     (∃ e, e ∈ JsObject.values edges ∧
           sourceNodeId e ∉ JsObject.keys (Workflow.w_nodes w)) →
     Scheduler.executionOrder (JsObject.keys (Workflow.w_nodes w))
                              (JsObject.values edges)
       = Scheduler.Raised TypeError ∧
     Workflow.runWorkflow env geminiService edges w
       = (Workflow.Crashed TypeError, Workflow.startRun w) ∧
     Workflow.w_updates (Workflow.startRun w) = Workflow.w_updates w ∧
     Workflow.w_history (Workflow.startRun w) = Workflow.w_history w ∧
     Workflow.w_remote (Workflow.startRun w) = Workflow.w_remote w) ∧
  (JsObject.wf Examples.chainNodes ∧
   ∃ e, e ∈ JsObject.values Examples.danglingEdges ∧
        sourceNodeId e ∉ JsObject.keys Examples.chainNodes).
Proof.
  split; [|split].
  - intros nodes edges Hwf Hep.
    destruct (executionOrder_kahn (JsObject.keys nodes) (JsObject.values edges))
      as (order & Heq & _); [done| |by exists order].
    intros e He. by apply Hep.
  - intros env svc edges w Habs.
    pose proof (executionOrder_raises _ _ Habs) as Hr.
    split; [done|]. unfold Workflow.runWorkflow. rewrite Hr. done.
  - split; [decide_by_compute|].
    eexists. split; [by left|]. decide_by_compute.
Qed.

Lemma C10_witness :
  ∃ order,
    Scheduler.executionOrder (JsObject.keys Examples.chainNodes)
                             (JsObject.values Examples.chainEdges)
      = Scheduler.Order order.
Proof.
  apply (proj1 C10_scheduling_totality Examples.chainNodes Examples.chainEdges).
  - decide_by_compute.
  - unfold Graph.endpointsPresent. apply Forall_forall. decide_by_compute.
Defined.

(** ** The retry wrapper *)
Section RetryFacts.
Import GeminiService.
Variable env : Env.
Context {Args Res : Type}.
Variable request : Args → Request.
Variable settle : nat → Args → Thrown + Res.

Lemma retry_return n i last args s r :
  settle (length (calls s)) args = inr r →
  retryLoop env (remoteCall request settle) args (S n) i last s
  = (Return r, logCall (request args) s).
Proof.
  intros H. cbn [retryLoop]. unfold tryCatch, remoteCall, invoke. by rewrite H.
Qed.

Lemma retry_fatal n i last args s e :
  settle (length (calls s)) args = inl e →
  isRateLimitError env e = false →
  retryLoop env (remoteCall request settle) args (S n) i last s
  = (Throw e, logCall (request args) s).
Proof.
  intros H Hc. cbn [retryLoop]. unfold tryCatch, remoteCall, invoke. by rewrite H, Hc.
Qed.

Lemma retry_exhausted n i last args s e :
  settle (length (calls s)) args = inl e →
  (i <? MAX_RETRIES - 1)%nat = false →
  retryLoop env (remoteCall request settle) args (S n) i last s
  = (Throw e, logCall (request args) s).
Proof.
  intros H Hi. cbn [retryLoop]. unfold tryCatch, remoteCall, invoke. rewrite H.
  destruct (isRateLimitError env e); [|done]. by rewrite Hi.
Qed.

Lemma retry_again n i last args s e :
  settle (length (calls s)) args = inl e →
  isRateLimitError env e = true →
  (i <? MAX_RETRIES - 1)%nat = true →
  retryLoop env (remoteCall request settle) args (S n) i last s
  = retryLoop env (remoteCall request settle) args n (S i) e
      (logDelay (backoffTime i + Math_random env (draws s) * 1000)
                (countDraw (logCall (request args) s))).
Proof.
  intros H Hc Hi. cbn [retryLoop]. unfold tryCatch at 1, remoteCall at 1, invoke at 1.
  rewrite H, Hc, Hi. reflexivity.
Qed.

End RetryFacts.

(** C5.  [withRetry] around a remote operation, started when [k]
    invocations have been made.  (1) Two rate-limit-classified failures
    followed by a success: the success value is returned and the
    operation was invoked exactly 3 times.  (2) A first failure that is
    not rate-limit-classified: exactly one invocation, and that error
    propagates without any wait.  (3) Three rate-limit-classified
    failures: 3 invocations, then the last error propagates.  In (1) and
    (3) the two waits are [INITIAL_DELAY_MS * 2^i + jitter] for attempt
    [i = 0, 1], the jitter being [Math.random() * 1000], which lies in
    [0, 1000) when the draw lies in [0, 1). *)
Theorem C5_retry_policy (env : Env) (Args Res : Type)
    (request : Args → Request) (settle : nat → Args → Thrown + Res)
    (args : Args) (s : Remote) :
  let k := length (calls s) in
  let req := request args in
  let wait i :=
    (inject_Z (GeminiService.INITIAL_DELAY_MS * 2 ^ Z.of_nat i)
     + Math_random env (draws s + i) * 1000)%Q in
  let wrapped :=
    GeminiService.withRetry env (GeminiService.remoteCall request settle) in
  (∀ e1 e2 r,
     settle k args = inl e1 → GeminiService.isRateLimitError env e1 = true →
     settle (k + 1)%nat args = inl e2 →
     GeminiService.isRateLimitError env e2 = true →
     settle (k + 2)%nat args = inr r →
     wrapped args s
     = (Return r,
        mkRemote (calls s ++ [req; req; req])
                 (delays s ++ [wait 0%nat; wait 1%nat]) (draws s + 2))) ∧
  (∀ e,
     settle k args = inl e → GeminiService.isRateLimitError env e = false →
     wrapped args s
     = (Throw e, mkRemote (calls s ++ [req]) (delays s) (draws s))) ∧
  (∀ e1 e2 e3,
     settle k args = inl e1 → GeminiService.isRateLimitError env e1 = true →
     settle (k + 1)%nat args = inl e2 →
     GeminiService.isRateLimitError env e2 = true →
     settle (k + 2)%nat args = inl e3 →
     GeminiService.isRateLimitError env e3 = true →
     wrapped args s
     = (Throw e3,
        mkRemote (calls s ++ [req; req; req])
                 (delays s ++ [wait 0%nat; wait 1%nat]) (draws s + 2))) ∧
  (∀ r : Q, (0 <= r)%Q → (r < 1)%Q → (0 <= r * 1000)%Q ∧ (r * 1000 < 1000)%Q).
Proof.
  intros k req wait wrapped. subst k req wait wrapped.
  unfold GeminiService.withRetry.
  assert (Hstate : GeminiService.logCall (request args)
            (GeminiService.logDelay
               (GeminiService.backoffTime 1 + Math_random env (S (draws s)) * 1000)
               (GeminiService.countDraw
                  (GeminiService.logCall (request args)
                     (GeminiService.logDelay
                        (GeminiService.backoffTime 0 + Math_random env (draws s) * 1000)
                        (GeminiService.countDraw
                           (GeminiService.logCall (request args) s))))))
          = mkRemote (calls s ++ [request args; request args; request args])
              (delays s ++
                 [(inject_Z (GeminiService.INITIAL_DELAY_MS * 2 ^ Z.of_nat 0)
                   + Math_random env (draws s + 0) * 1000)%Q;
                  (inject_Z (GeminiService.INITIAL_DELAY_MS * 2 ^ Z.of_nat 1)
                   + Math_random env (draws s + 1) * 1000)%Q])
              (draws s + 2)).
  { unfold GeminiService.logCall, GeminiService.logDelay,
      GeminiService.countDraw, GeminiService.backoffTime. cbn [calls delays draws].
    rewrite Nat.add_0_r, Nat.add_1_r. f_equal.
    - by rewrite <- !app_assoc.
    - by rewrite <- app_assoc.
    - lia. }
  split; [|split; [|split]].
  - intros e1 e2 r H1 C1 H2 C2 H3.
    rewrite (retry_again env request settle 2 0 _ args s e1 H1 C1 eq_refl).
    rewrite (retry_again env request settle 1 1 _ args _ e2); [| |done|done].
    2:{ cbn [calls GeminiService.logDelay GeminiService.countDraw
               GeminiService.logCall]. rewrite length_app. exact H2. }
    rewrite (retry_return env request settle 0 2 _ args _ r).
    2:{ cbn [calls GeminiService.logDelay GeminiService.countDraw
               GeminiService.logCall]. rewrite !length_app. cbn [length].
        by replace (length (calls s) + 1 + 1)%nat
             with (length (calls s) + 2)%nat by lia. }
    cbn [draws GeminiService.logDelay GeminiService.countDraw
           GeminiService.logCall] in *. by rewrite <- Hstate.
  - intros e H C.
    by rewrite (retry_fatal env request settle 2 0 _ args s e H C).
  - intros e1 e2 e3 H1 C1 H2 C2 H3 C3.
    rewrite (retry_again env request settle 2 0 _ args s e1 H1 C1 eq_refl).
    rewrite (retry_again env request settle 1 1 _ args _ e2); [| |done|done].
    2:{ cbn [calls GeminiService.logDelay GeminiService.countDraw
               GeminiService.logCall]. rewrite length_app. exact H2. }
    rewrite (retry_exhausted env request settle 0 2 _ args _ e3); [| |done].
    2:{ cbn [calls GeminiService.logDelay GeminiService.countDraw
               GeminiService.logCall]. rewrite !length_app. cbn [length].
        by replace (length (calls s) + 1 + 1)%nat
             with (length (calls s) + 2)%nat by lia. }
    cbn [draws GeminiService.logDelay GeminiService.countDraw
           GeminiService.logCall] in *. by rewrite <- Hstate.
  - intros r H0 H1. split; lra.
Qed.

(** ** Objects with ordered keys *)
Section JsObjectFacts.
Context {V : Type}.
Implicit Types (o : JsObject.t V) (k : string) (v : V).

Lemma get_set_eq o k v : JsObject.get (JsObject.set o k v) k = Some v.
Proof.
  induction o as [|[k' v'] o IH]; simpl.
  - by rewrite String.eqb_refl.
  - destruct (String.eqb k' k) eqn:E; simpl.
    + by rewrite String.eqb_refl.
    + by rewrite E.
Qed.

Lemma get_set_ne o k k' v :
  k ≠ k' → JsObject.get (JsObject.set o k v) k' = JsObject.get o k'.
Proof.
  intros Hne. induction o as [|[k0 v0] o IH]; simpl.
  - by apply String.eqb_neq in Hne as ->.
  - destruct (String.eqb k0 k) eqn:E; simpl.
    + apply String.eqb_eq in E as ->.
      by apply String.eqb_neq in Hne as ->.
    + by rewrite IH.
Qed.

Lemma get_Some_key o k v : JsObject.get o k = Some v → k ∈ JsObject.keys o.
Proof.
  induction o as [|[k0 v0] o IH]; simpl; [done|].
  destruct (String.eqb k0 k) eqn:E.
  - apply String.eqb_eq in E as ->. intros _. by left.
  - intros H. right. by apply IH.
Qed.

Lemma key_get_Some o k : k ∈ JsObject.keys o → is_Some (JsObject.get o k).
Proof.
  induction o as [|[k0 v0] o IH]; simpl.
  - by intros ?%elem_of_nil.
  - destruct (String.eqb k0 k) eqn:E; [by eauto|].
    intros [->|H]%elem_of_cons; [|by apply IH].
    by rewrite String.eqb_refl in E.
Qed.

Lemma values_set_fresh o k v :
  k ∉ JsObject.keys o →
  JsObject.values (JsObject.set o k v) = JsObject.values o ++ [v] ∧
  JsObject.keys (JsObject.set o k v) = JsObject.keys o ++ [k].
Proof.
  induction o as [|[k0 v0] o IH]; simpl; [done|].
  intros Hk. apply not_elem_of_cons in Hk as [Hne Hk].
  destruct (String.eqb k0 k) eqn:E.
  - apply String.eqb_eq in E. congruence.
  - simpl. destruct (IH Hk) as [-> ->]. done.
Qed.

End JsObjectFacts.

Lemma get_map_snd {A B} (f : A → B) (o : JsObject.t A) k :
  JsObject.get (map (fun kv => (kv.1, f kv.2)) o) k = f <$> JsObject.get o k.
Proof.
  induction o as [|[k0 v0] o IH]; simpl; [done|].
  by destruct (String.eqb k0 k).
Qed.


(** ** The run loop: which part of the state a node's step can change *)
Section WorkflowFrame.
Import Workflow.
Variable env : Env.
Variable geminiService : Service.

Lemma get_patchNode_eq prev nodeId p n :
  JsObject.get prev nodeId = Some n →
  JsObject.get (patchNode nodeId p prev) nodeId
  = Some (mkNode (node_id n) (node_type n) (applyPatch (data n) p)).
Proof. intros H. unfold patchNode. rewrite H. apply get_set_eq. Qed.

Lemma get_patchNode_ne prev nodeId k p :
  nodeId ≠ k →
  JsObject.get (patchNode nodeId p prev) k = JsObject.get prev k.
Proof.
  intros H. unfold patchNode.
  destruct (JsObject.get prev nodeId); [by apply get_set_ne|done].
Qed.

Lemma get_patchNode_is_Some prev nodeId k p :
  is_Some (JsObject.get prev k) →
  is_Some (JsObject.get (patchNode nodeId p prev) k).
Proof.
  intros H. destruct (decide (nodeId = k)) as [->|Hne].
  - destruct H as [n Hn]. rewrite (get_patchNode_eq _ _ _ _ Hn). eauto.
  - by rewrite get_patchNode_ne.
Qed.

Lemma touchesOnly_refl ids w : touchesOnly ids w w.
Proof.
  split; [done|]. split; [done|]. exists []. by rewrite app_nil_r.
Qed.

Lemma touchesOnly_trans ids w1 w2 w3 :
  touchesOnly ids w1 w2 → touchesOnly ids w2 w3 → touchesOnly ids w1 w3.
Proof.
  intros (Hn1 & Hs1 & l1 & Hl1 & Hf1) (Hn2 & Hs2 & l2 & Hl2 & Hf2).
  split; [|split].
  - intros k Hk. by rewrite Hn2, Hn1.
  - auto.
  - exists (l1 ++ l2). rewrite Hl2, Hl1, app_assoc.
    split; [done|by apply Forall_app].
Qed.

Lemma touchesOnly_mono ids ids' w w' :
  (∀ k, k ∈ ids → k ∈ ids') → touchesOnly ids w w' → touchesOnly ids' w w'.
Proof.
  intros Hsub (Hn & Hs & l & Hl & Hf). split; [|split].
  - intros k Hk. apply Hn. intros Hin. by apply Hk, Hsub.
  - done.
  - exists l. split; [done|]. eapply Forall_impl; [done|]. simpl. auto.
Qed.

Lemma updateNodeData_touches nodeId p w :
  touchesOnly [nodeId] w (updateNodeData nodeId p w).
Proof.
  split; [|split]; simpl.
  - intros k Hk. apply get_patchNode_ne. intros ->. apply Hk. by left.
  - intros k. apply get_patchNode_is_Some.
  - exists [(nodeId, p)]. split; [done|]. repeat constructor.
Qed.

(** A state change that leaves the node map and the update log alone. *)
Lemma quiet_touches ids w w' :
  w_nodes w' = w_nodes w → w_updates w' = w_updates w → touchesOnly ids w w'.
Proof.
  intros Hn Hu. split; [by rewrite Hn|]. split; [by rewrite Hn|].
  exists []. by rewrite app_nil_r.
Qed.

Lemma framed_ret {A} nodeId (a : A) : framed nodeId (ret a).
Proof. intros w. apply touchesOnly_refl. Qed.

Lemma framed_throw {A} nodeId e : framed nodeId (@throw World A e).
Proof. intros w. apply touchesOnly_refl. Qed.

Lemma framed_bind {A B} nodeId (m : M World A) (k : A → M World B) :
  framed nodeId m → (∀ a, framed nodeId (k a)) → framed nodeId (bind m k).
Proof.
  intros Hm Hk w. unfold bind. specialize (Hm w).
  destruct (m w) as [[a|e|] w1]; simpl in *; [|done..].
  eapply touchesOnly_trans; [done|apply Hk].
Qed.

Lemma framed_service {A} nodeId (m : M Remote A) :
  framed nodeId (service m).
Proof. intros w. by apply quiet_touches. Qed.

Lemma framed_pushHistory nodeId dataUrl prompt :
  framed nodeId (pushHistory env dataUrl prompt).
Proof. intros w. by apply quiet_touches. Qed.

Lemma progress_touches nodeId msgs : ∀ w,
  touchesOnly [nodeId] w
    (fold_left (fun w' progress =>
                  updateNodeData nodeId (progressPatch progress) w') msgs w).
Proof.
  induction msgs as [|msg msgs IH]; intros w; simpl.
  - apply touchesOnly_refl.
  - eapply touchesOnly_trans; [apply updateNodeData_touches|apply IH].
Qed.

Lemma framed_videoService nodeId m : framed nodeId (videoService nodeId m).
Proof.
  intros w. unfold videoService. simpl.
  eapply touchesOnly_trans; [|apply progress_touches].
  by apply quiet_touches.
Qed.

Lemma framed_dispatch edges nodeId node inputValues nodeOutputs :
  framed nodeId
    (dispatch env geminiService edges nodeId node inputValues nodeOutputs).
Proof.
  unfold dispatch.
  repeat first
    [ apply framed_ret | apply framed_throw | apply framed_service
    | apply framed_pushHistory | apply framed_videoService
    | apply framed_bind; [|intros ?]
    | match goal with
      | |- framed _ (match ?x with _ => _ end) => destruct x
      | |- framed _ (if ?x then _ else _) => destruct x
      end ].
Qed.

(** One iteration of the loop changes, in the node map, only the node it
    executes. *)
Lemma runNode_touches nodes edges nodeId nodeOutputs w :
  touchesOnly [nodeId] w
    (runNode env geminiService nodes edges nodeId nodeOutputs w).2.
Proof.
  unfold runNode. destruct (JsObject.get nodes nodeId) as [node|]; simpl;
    [|apply touchesOnly_refl].
  destruct (isMuted (data node)); simpl; [apply updateNodeData_touches|].
  set (w1 := updateNodeData nodeId _ w).
  pose proof (framed_dispatch edges nodeId node
                (gatherInputs edges nodeId nodeOutputs) nodeOutputs w1) as Hd.
  assert (H1 : touchesOnly [nodeId] w w1) by apply updateNodeData_touches.
  destruct (dispatch _ _ _ _ _ _ _ w1) as [[output|e|] w2]; simpl in *.
  - eapply touchesOnly_trans; [exact H1|].
    eapply touchesOnly_trans; [exact Hd|apply updateNodeData_touches].
  - eapply touchesOnly_trans; [exact H1|].
    eapply touchesOnly_trans; [exact Hd|].
    eapply touchesOnly_trans; [apply updateNodeData_touches|].
    by apply quiet_touches.
  - eapply touchesOnly_trans; [exact H1|exact Hd].
Qed.

Lemma loopState_touches nodes edges prefix : ∀ nodeOutputs w nodeOutputs' w',
  loopState env geminiService nodes edges prefix nodeOutputs w
  = Some (nodeOutputs', w') →
  touchesOnly prefix w w'.
Proof.
  induction prefix as [|nodeId rest IH]; intros outs w outs' w'; simpl.
  - intros [= _ <-]. apply touchesOnly_refl.
  - pose proof (runNode_touches nodes edges nodeId outs w) as H1.
    destruct (runNode _ _ _ _ _ _ _) as [[outs1| | |] w1]; [|done..].
    intros H. apply IH in H. simpl in H1.
    eapply touchesOnly_trans.
    + eapply touchesOnly_mono; [|exact H1].
      intros k ->%list_elem_of_singleton. by left.
    + eapply touchesOnly_mono; [|exact H]. intros k ?. by right.
Qed.

Lemma runNodes_after_prefix nodes edges prefix rest :
  ∀ nodeOutputs w nodeOutputs' w',
  loopState env geminiService nodes edges prefix nodeOutputs w
  = Some (nodeOutputs', w') →
  runNodes env geminiService nodes edges (prefix ++ rest) nodeOutputs w
  = runNodes env geminiService nodes edges rest nodeOutputs' w'.
Proof.
  induction prefix as [|nodeId prefix IH]; intros outs w outs' w'; simpl.
  - by intros [= <- <-].
  - destruct (runNode _ _ _ _ _ _ _) as [[outs1| | |] w1]; [|done..].
    apply IH.
Qed.

End WorkflowFrame.

Lemma executionOrder_Order_inv nodeIds es order :
  NoDup nodeIds →
  Scheduler.executionOrder nodeIds es = Scheduler.Order order →
  Graph.kahnOutput nodeIds es order.
Proof.
  intros Hnd Heq.
  assert (Hsrc : Graph.sourcesPresent nodeIds es).
  { intros e He. destruct (decide (sourceNodeId e ∈ nodeIds)) as [|Hn]; [done|].
    rewrite (executionOrder_raises nodeIds es) in Heq; [done|]. eauto. }
  destruct (executionOrder_kahn nodeIds es Hnd Hsrc) as (order' & Heq' & Hout).
  rewrite Heq in Heq'. by injection Heq' as ->.
Qed.

(** C2.  Suppose the loop of [runWorkflow] has executed the nodes [pre]
    of the computed order [pre ++ n :: post] and the dispatch of the
    unmuted node [n] throws [e].  Then the run ends there: [n] has status
    ERROR and its [errorMessage] is the text of what was thrown (the
    [message] of an [Error] object, such as the validation or service
    message the node threw; the [String(...)] rendering of anything
    else), processing is switched off, every node ordered after [n]
    still has status IDLE and received no [updateNodeData] call during
    the run (so it never was PROCESSING or COMPLETED), and the nodes
    executed before [n] are, in the node map, exactly as they were when
    [n] started. *)
Theorem C2_failure_halts_run (env : Env) (geminiService : Service)
    (edges : JsObject.t Edge) (w : Workflow.World)
    (pre post : list string) (n : string) (node : Node)
    (outs1 : gmap string Value) (w1 w2 : Workflow.World) (e : Thrown) :
  JsObject.wf (Workflow.w_nodes w) →
  Scheduler.executionOrder (JsObject.keys (Workflow.w_nodes w))
                           (JsObject.values edges)
    = Scheduler.Order (pre ++ n :: post) →
  Workflow.loopState env geminiService (Workflow.w_nodes w)
    (JsObject.values edges) pre ∅ (Workflow.startRun w) = Some (outs1, w1) →
  JsObject.get (Workflow.w_nodes w) n = Some node →
  isMuted (data node) = false →
  Workflow.dispatch env geminiService (JsObject.values edges) n node
    (Workflow.gatherInputs (JsObject.values edges) n outs1) outs1
    (Workflow.updateNodeData n
       (Workflow.resultPatch PROCESSING (VProgress "Starting...")) w1)
    = (Throw e, w2) →
  ∃ w',
    Workflow.runWorkflow env geminiService edges w = (Workflow.HaltedAt n, w') ∧
    Workflow.statusOf w' n = Some ERROR ∧
    Workflow.errorMessageOf w' n
    = Some (match e with
            | ErrorObj message => message
            | NonError rendering => rendering
            end) ∧
    Workflow.w_isProcessing w' = false ∧
    (∀ m, m ∈ post → Workflow.statusOf w' m = Some IDLE) ∧
    (∃ log, Workflow.w_updates w' = Workflow.w_updates w ++ log ∧
            Forall (λ u, u.1 ∉ post) log) ∧
    (∀ m, m ∈ pre →
          JsObject.get (Workflow.w_nodes w') m
          = JsObject.get (Workflow.w_nodes w1) m).
Proof.
  intros Hwf Horder Hloop Hnode Hmuted Hdispatch.
  destruct (executionOrder_Order_inv _ _ _ Hwf Horder) as (Hnd & Hin & _).
  set (w1' := Workflow.updateNodeData n
                (Workflow.resultPatch PROCESSING (VProgress "Starting...")) w1)
    in *.
  set (w' := Workflow.setIsProcessing false
               (Workflow.updateNodeData n
                  (Workflow.errorPatch (thrownText e)) w2)).
  exists w'.
  assert (Hrun : Workflow.runWorkflow env geminiService edges w
                 = (Workflow.HaltedAt n, w')).
  { unfold Workflow.runWorkflow. rewrite Horder.
    rewrite (runNodes_after_prefix env geminiService _ _ pre (n :: post)
               _ _ _ _ Hloop).
    simpl. unfold Workflow.runNode. rewrite Hnode, Hmuted.
    fold w1'. by rewrite Hdispatch. }
  assert (T01 : Workflow.touchesOnly pre (Workflow.startRun w) w1)
    by (by eapply loopState_touches).
  assert (T12 : Workflow.touchesOnly [n] w1 w2).
  { eapply touchesOnly_trans; [apply updateNodeData_touches|].
    pose proof (framed_dispatch env geminiService (JsObject.values edges) n node
      (Workflow.gatherInputs (JsObject.values edges) n outs1) outs1 w1') as H.
    by rewrite Hdispatch in H. }
  assert (T2' : Workflow.touchesOnly [n] w2 w').
  { eapply touchesOnly_trans; [apply updateNodeData_touches|].
    by apply quiet_touches. }
  assert (T1' : Workflow.touchesOnly [n] w1 w')
    by (by eapply touchesOnly_trans).
  assert (T0' : Workflow.touchesOnly (pre ++ [n]) (Workflow.startRun w) w').
  { eapply touchesOnly_trans.
    - eapply touchesOnly_mono; [|exact T01]. intros k ?. apply elem_of_app. by left.
    - eapply touchesOnly_mono; [|exact T1']. intros k ?. apply elem_of_app. by right. }
  assert (Hstart : ∀ k, JsObject.get (Workflow.w_nodes (Workflow.startRun w)) k
                        = Workflow.resetNode <$> JsObject.get (Workflow.w_nodes w) k).
  { intros k. apply get_map_snd. }
  assert (Hn2 : is_Some (JsObject.get (Workflow.w_nodes w2) n)).
  { apply T12, T01. rewrite Hstart, Hnode. simpl. eauto. }
  destruct Hn2 as [nd2 Hnd2].
  assert (Hn' : JsObject.get (Workflow.w_nodes w') n
                = Some (mkNode (node_id nd2) (node_type nd2)
                          (applyPatch (data nd2)
                             (Workflow.errorPatch (thrownText e))))).
  { simpl. by apply get_patchNode_eq. }
  assert (Hdisj : ∀ m, m ∈ post → m ∉ pre ++ [n]).
  { intros m Hm Hin'. rewrite (assoc_L _ pre [n] post : pre ++ n :: post = (pre ++ [n]) ++ post) in Hnd.
    apply NoDup_app in Hnd as (_ & Hd & _). by apply (Hd m). }
  split; [done|]. split; [|split; [|split; [done|split; [|split]]]].
  - unfold Workflow.statusOf. by rewrite Hn'.
  - unfold Workflow.errorMessageOf. by rewrite Hn'.
  - intros m Hm. unfold Workflow.statusOf.
    destruct T0' as (Hsame & _). rewrite (Hsame m (Hdisj m Hm)), Hstart.
    assert (Hkey : m ∈ JsObject.keys (Workflow.w_nodes w)).
    { apply Hin. rewrite elem_of_app. right. by right. }
    destruct (key_get_Some _ _ Hkey) as [nd ->]. done.
  - destruct T0' as (_ & _ & log & Hlog & Hf). exists log. split; [done|].
    eapply Forall_impl; [exact Hf|]. simpl. intros u Hu Hpost.
    by apply (Hdisj _ Hpost).
  - intros m Hm. destruct T1' as (Hsame & _). apply Hsame.
    intros ->%list_elem_of_singleton.
    apply NoDup_app in Hnd as (_ & Hd & _). apply (Hd _ Hm). by left.
Qed.

Lemma C2_witness :
  JsObject.wf Examples.promptlessNodes ∧
  Scheduler.executionOrder (JsObject.keys Examples.promptlessNodes)
                           (JsObject.values Examples.promptlessEdges)
    = Scheduler.Order (["i"] ++ "d" :: ["o"]) ∧
  Examples.promptlessDispatch
    = (Throw (ErrorObj "A text prompt is required for image generation/editing."),
       Examples.promptlessDispatch.2) ∧
  ∃ w',
    Workflow.runWorkflow (Examples.sampleEnv true)
      (liveService (Examples.sampleEnv true) 0)
      Examples.promptlessEdges (Examples.world Examples.promptlessNodes)
    = (Workflow.HaltedAt "d", w') ∧
    Workflow.statusOf w' "d" = Some ERROR ∧
    Workflow.errorMessageOf w' "d"
    = Some "A text prompt is required for image generation/editing." ∧
    Workflow.w_isProcessing w' = false ∧
    (∀ m, m ∈ ["o"] → Workflow.statusOf w' m = Some IDLE) ∧
    (∃ log, Workflow.w_updates w'
            = Workflow.w_updates (Examples.world Examples.promptlessNodes) ++ log ∧
            Forall (λ u, u.1 ∉ ["o"]) log) ∧
    (∀ m, m ∈ ["i"] →
          JsObject.get (Workflow.w_nodes w') m
          = JsObject.get (Workflow.w_nodes Examples.promptlessPrefix.2) m).
Proof.
  assert (Hwf : JsObject.wf Examples.promptlessNodes) by decide_by_compute.
  assert (Horder : Scheduler.executionOrder (JsObject.keys Examples.promptlessNodes)
                     (JsObject.values Examples.promptlessEdges)
                   = Scheduler.Order (["i"] ++ "d" :: ["o"]))
    by (vm_compute; reflexivity).
  assert (Hthrow : Examples.promptlessDispatch
    = (Throw (ErrorObj "A text prompt is required for image generation/editing."),
       Examples.promptlessDispatch.2)) by (vm_compute; reflexivity).
  split; [exact Hwf|]. split; [exact Horder|]. split; [exact Hthrow|].
  apply (C2_failure_halts_run (Examples.sampleEnv true)
           (liveService (Examples.sampleEnv true) 0)
           Examples.promptlessEdges (Examples.world Examples.promptlessNodes)
           ["i"] ["o"] "d" (Examples.imageEditor "d")
           Examples.promptlessPrefix.1 Examples.promptlessPrefix.2
           Examples.promptlessDispatch.2
           (ErrorObj "A text prompt is required for image generation/editing.")).
  - exact Hwf.
  - exact Horder.
  - vm_compute. reflexivity.
  - vm_compute. reflexivity.
  - reflexivity.
  - exact Hthrow.
Defined.

(** ** The service never lets an error of the text model escape *)
Section ServiceFacts.
Import GeminiService.
Variable env : Env.

Lemma retryLoop_settles {Args Res} (request : Args → Request)
    (settle : nat → Args → Thrown + Res) args n : ∀ i last s,
  (retryLoop env (remoteCall request settle) args n i last s).1 ≠ Pending.
Proof.
  induction n as [|n IH]; intros i last s; [done|].
  cbn [retryLoop]. unfold tryCatch, remoteCall, invoke.
  destruct (settle (length (calls s)) args) as [e|r]; [|done].
  destruct (isRateLimitError env e); [|done].
  destruct (i <? MAX_RETRIES - 1)%nat; [|done].
  unfold bind, random, delay, modify. apply IH.
Qed.

Lemma generateText_returns prompt s :
  ∃ out s', generateText env prompt s = (Return out, s').
Proof.
  unfold generateText. destruct (truthy prompt); simpl; [|by eexists _, _].
  unfold tryCatch, bind, generateContentWithRetry, withRetry.
  pose proof (retryLoop_settles
                (fun a : string * Contents => ReqGenerateContent a.1 a.2)
                (fun k a => ai_generateContent env k a.1 a.2)
                ("gemini-2.5-flash", Plain prompt) MAX_RETRIES 0
                (NonError "undefined") s) as Hs.
  destruct (retryLoop _ _ _ _ _ _ s) as [[r|e|] s1]; simpl in *.
  - by eexists _, _.
  - by eexists _, _.
  - done.
Qed.

End ServiceFacts.

(** C3 (what the code does).  [generateText] always returns a string:
    when the wrapped completion call throws, the error is formatted into
    the returned text.  So an unmuted TextGenerator node always ends
    COMPLETED and the loop goes on.  In the run
    TextInput("a cat") -> TextGenerator -> OutputDisplay whose completion
    call throws Error("boom"), the generator ends COMPLETED with content
    "Error: boom", no [errorMessage], and the output node is executed and
    shows that text. *)
Theorem C3_text_error_becomes_output :
  (∀ env prompt s,
     ∃ out s', GeminiService.generateText env prompt s = (Return out, s')) ∧
  (∀ env pollFuel nodes edges nodeId node nodeOutputs w,
     JsObject.get nodes nodeId = Some node →
     node_type node = TEXT_GENERATOR →
     isMuted (data node) = false →
     is_Some (JsObject.get (Workflow.w_nodes w) nodeId) →
     ∃ nodeOutputs' w',
       Workflow.runNode env (liveService env pollFuel) nodes edges nodeId
                        nodeOutputs w = (Workflow.Next nodeOutputs', w') ∧
       Workflow.statusOf w' nodeId = Some COMPLETED) ∧
  (GeminiService.generateContentWithRetry (Examples.sampleEnv true)
     Examples.textRequest Examples.emptyRemote).1 = Throw (ErrorObj "boom") ∧
  ∃ w',
    Workflow.runWorkflow (Examples.sampleEnv true)
      (liveService (Examples.sampleEnv true) 0)
      Examples.chainEdges (Examples.world Examples.chainNodes)
    = (Workflow.Finished, w') ∧
    Workflow.statusOf w' "g" = Some COMPLETED ∧
    Workflow.contentOf w' "g" = Some (VString "Error: boom") ∧
    Workflow.errorMessageOf w' "g" = None ∧
    Workflow.statusOf w' "o" = Some COMPLETED ∧
    Workflow.contentOf w' "o" = Some (VString "Error: boom").
Proof.
  split; [exact generateText_returns|]. split; [|split].
  - intros env pollFuel nodes edges nodeId node outs w Hnode Hty Hmuted Hstore.
    unfold Workflow.runNode. rewrite Hnode, Hmuted.
    unfold Workflow.dispatch. rewrite Hty.
    unfold bind, Workflow.service, zoom. cbn [generateText liveService].
    set (w1 := Workflow.updateNodeData nodeId _ w).
    destruct (generateText_returns env
                (prop (Workflow.gatherInputs edges nodeId outs) (nodeId +:+ "-input"))
                (Workflow.w_remote w1)) as (out & s' & ->).
    cbn [fst snd ret]. eexists _, _. split; [done|].
    unfold Workflow.statusOf.
    assert (Hs : is_Some (JsObject.get (Workflow.w_nodes w1) nodeId)).
    { by apply get_patchNode_is_Some. }
    destruct Hs as [nd Hnd]. simpl.
    by rewrite (get_patchNode_eq _ _ _ _ Hnd).
  - vm_compute. reflexivity.
  - eexists. split; [vm_compute; reflexivity|].
    repeat split; vm_compute; reflexivity.
Qed.

Lemma C5_witness :
  GeminiService.generateContentWithRetry (Examples.sampleEnv false)
    Examples.textRequest Examples.emptyRemote
  = (Return (mkContentResponse "a fluffy cat" None),
     mkRemote
       [ReqGenerateContent "gemini-2.5-flash" (Plain (VString "a cat"));
        ReqGenerateContent "gemini-2.5-flash" (Plain (VString "a cat"));
        ReqGenerateContent "gemini-2.5-flash" (Plain (VString "a cat"))]
       [(inject_Z (GeminiService.INITIAL_DELAY_MS * 2 ^ Z.of_nat 0)
         + (1 # 2) * 1000)%Q;
        (inject_Z (GeminiService.INITIAL_DELAY_MS * 2 ^ Z.of_nat 1)
         + (1 # 2) * 1000)%Q]
       2).
Proof.
  apply (proj1 (C5_retry_policy (Examples.sampleEnv false) _ _
                  (fun a : string * Contents => ReqGenerateContent a.1 a.2)
                  (fun k a => ai_generateContent (Examples.sampleEnv false) k a.1 a.2)
                  Examples.textRequest Examples.emptyRemote)
               (ErrorObj "429 Too Many Requests")
               (ErrorObj "429 Too Many Requests")
               (mkContentResponse "a fluffy cat" None)).
  - reflexivity.
  - vm_compute. reflexivity.
  - reflexivity.
  - vm_compute. reflexivity.
  - reflexivity.
Defined.

(** ** Resolving inputs and writing outputs *)
Section PortFacts.
Import Workflow.


(** The value an input port resolves to: the output of the source of the
    last edge into that port, [undefined] when there is none. *)
Lemma gather_lookup (nodeOutputs : gmap string Value) h (es : list Edge) :
  ∀ acc : gmap string Value,
  fold_left (fun inputs edge =>
               <[targetHandleId edge := prop nodeOutputs (sourceHandleId edge)]> inputs)
            es acc !! h
  = match last (filter (fun e => targetHandleId e = h) es) with
    | Some e => Some (prop nodeOutputs (sourceHandleId e))
    | None => acc !! h
    end.
Proof.
  induction es as [|e es IH]; intros acc; simpl; [done|].
  rewrite IH, filter_cons.
  destruct (decide (targetHandleId e = h)) as [<-|Hne].
  - destruct (filter _ es) as [|e' l] eqn:E; simpl.
    + by rewrite lookup_insert_eq.
    + rewrite last_cons. simpl. by destruct (last l).
  - destruct (last _); [done|]. by rewrite lookup_insert_ne.
Qed.

Lemma gatherInputs_prop (es : list Edge) nodeId (nodeOutputs : gmap string Value) h :
  prop (gatherInputs es nodeId nodeOutputs) h
  = match last (filter (fun e => targetNodeId e = nodeId ∧ targetHandleId e = h) es) with
    | Some e => prop nodeOutputs (sourceHandleId e)
    | None => VUndefined
    end.
Proof.
  unfold prop at 1, gatherInputs. rewrite gather_lookup, lookup_empty.
  rewrite list_filter_filter.
  replace (filter (λ e, targetHandleId e = h ∧ targetNodeId e = nodeId) es)
    with (filter (λ e, targetNodeId e = nodeId ∧ targetHandleId e = h) es).
  - by destruct (last _).
  - apply list_filter_iff. intros e. tauto.
Qed.

End PortFacts.



(** C8.  An unmuted IMAGE_EDITOR node whose resolved text prompt is
    [textInput] and whose resolved image input is [imageInput].
    (1) Falsy prompt: the node fails at once (no service call) with a
    validation message, and the history is unchanged.
    (2) Truthy prompt, image input present: [editImage] is called with
    the image and the prompt; when it returns an image, the output is
    [{image, text}], the node is COMPLETED with that content and exactly
    one history item (the produced image and the prompt) is added.
    (3) Truthy prompt, no image input: [generateImage] is called with the
    prompt; when it returns an image, the output is [{image, text: null}]
    and exactly one history item (that image and the prompt) is added. *)
Theorem C8_image_editor (env : Env) (geminiService : Service)
    (nodes : JsObject.t Node) (edges : list Edge) (nodeId : string)
    (node : Node) (nodeOutputs : gmap string Value) (w : Workflow.World) :
  JsObject.get nodes nodeId = Some node →
  node_type node = IMAGE_EDITOR →
  isMuted (data node) = false →
  is_Some (JsObject.get (Workflow.w_nodes w) nodeId) →
  let inputValues := Workflow.gatherInputs edges nodeId nodeOutputs in
  let imageInput := prop inputValues (nodeId +:+ "-input-image") in
  let textInput := prop inputValues (nodeId +:+ "-input-text") in
  let step := Workflow.runNode env geminiService nodes edges nodeId nodeOutputs w in
  (truthy textInput = false →
   step.1 = Workflow.Halt ∧
   Workflow.statusOf step.2 nodeId = Some ERROR ∧
   Workflow.errorMessageOf step.2 nodeId
   = Some "A text prompt is required for image generation/editing." ∧
   Workflow.w_history step.2 = Workflow.w_history w ∧
   Workflow.w_remote step.2 = Workflow.w_remote w) ∧
  (∀ imageFile result s' b,
     truthy textInput = true →
     Workflow.processImageInput imageInput = Some imageFile →
     editImage geminiService (file_data imageFile) (file_mimeType imageFile)
               textInput (Workflow.w_remote w) = (Return result, s') →
     newBase64Image result = Some b → JsString.nonEmpty b = true →
     let dataUrl := "data:" +:+ file_mimeType imageFile +:+ ";base64," +:+ b in
     let output := VImageText dataUrl (result_text result) in
     step.1 = Workflow.Next (Workflow.routeOutputs node output nodeOutputs) ∧
     Workflow.statusOf step.2 nodeId = Some COMPLETED ∧
     Workflow.contentOf step.2 nodeId = Some output ∧
     Workflow.w_history step.2
     = mkHistoryItem (crypto_randomUUID env (Workflow.w_uuids w)) dataUrl textInput
         :: Workflow.w_history w ∧
     Workflow.w_remote step.2 = s') ∧
  (∀ result s',
     truthy textInput = true →
     Workflow.processImageInput imageInput = None →
     generateImage geminiService textInput (Workflow.w_remote w)
     = (Return result, s') →
     JsString.nonEmpty result && JsString.startsWith result "data:image" = true →
     let output := VImageText result None in
     step.1 = Workflow.Next (Workflow.routeOutputs node output nodeOutputs) ∧
     Workflow.statusOf step.2 nodeId = Some COMPLETED ∧
     Workflow.contentOf step.2 nodeId = Some output ∧
     Workflow.w_history step.2
     = mkHistoryItem (crypto_randomUUID env (Workflow.w_uuids w)) result textInput
         :: Workflow.w_history w ∧
     Workflow.w_remote step.2 = s').
Proof.
  intros Hnode Hty Hmuted [nd Hnd] inputValues imageInput textInput step.
  subst step. unfold Workflow.runNode. rewrite Hnode, Hmuted.
  unfold Workflow.dispatch. rewrite Hty.
  fold inputValues. fold imageInput. fold textInput.
  set (w1 := Workflow.updateNodeData nodeId
               (Workflow.resultPatch PROCESSING (VProgress "Starting...")) w).
  assert (Hnd1 : JsObject.get (Workflow.w_nodes w1) nodeId
                 = Some (mkNode (node_id nd) (node_type nd)
                           (applyPatch (data nd)
                              (Workflow.resultPatch PROCESSING
                                 (VProgress "Starting..."))))).
  { simpl. by apply get_patchNode_eq. }
  split; [|split].
  - intros ->. simpl. unfold Workflow.statusOf, Workflow.errorMessageOf. simpl.
    rewrite (get_patchNode_eq _ _ _ _ Hnd1). done.
  - intros imageFile result s' b -> -> Hedit Hb Hne.
    cbn [negb]. unfold bind, Workflow.service, zoom.
    change (Workflow.w_remote w1) with (Workflow.w_remote w).
    rewrite Hedit. cbn [fst snd]. rewrite Hb, Hne.
    unfold Workflow.pushHistory, modify, ret. cbn [fst snd].
    unfold Workflow.statusOf, Workflow.contentOf.
    cbn [Workflow.w_nodes Workflow.w_history Workflow.w_remote
         Workflow.updateNodeData Workflow.logUpdate Workflow.setNodes
         Workflow.setRemote Workflow.w_uuids].
    rewrite (get_patchNode_eq _ _ _ _ Hnd1). done.
  - intros result s' -> -> Hgen Hok.
    cbn [negb]. unfold bind, Workflow.service, zoom.
    change (Workflow.w_remote w1) with (Workflow.w_remote w).
    rewrite Hgen. cbn [fst snd]. rewrite Hok.
    unfold Workflow.pushHistory, modify, ret. cbn [fst snd].
    unfold Workflow.statusOf, Workflow.contentOf.
    cbn [Workflow.w_nodes Workflow.w_history Workflow.w_remote
         Workflow.updateNodeData Workflow.logUpdate Workflow.setNodes
         Workflow.setRemote Workflow.w_uuids].
    rewrite (get_patchNode_eq _ _ _ _ Hnd1). done.
Qed.

Lemma C8_witness :
  (Workflow.runNode (Examples.sampleEnv true) Examples.mockService
     Examples.editNodes (JsObject.values Examples.editEdges) "d"
     Examples.editOutputs (Examples.world Examples.editNodes)).1
  = Workflow.Next
      (Workflow.routeOutputs (Examples.imageEditor "d")
         (VImageText "data:image/png;base64,IMGY" (Some "done"))
         Examples.editOutputs) ∧
  Workflow.statusOf
    (Workflow.runNode (Examples.sampleEnv true) Examples.mockService
       Examples.editNodes (JsObject.values Examples.editEdges) "d"
       Examples.editOutputs (Examples.world Examples.editNodes)).2 "d"
  = Some COMPLETED ∧
  Workflow.contentOf
    (Workflow.runNode (Examples.sampleEnv true) Examples.mockService
       Examples.editNodes (JsObject.values Examples.editEdges) "d"
       Examples.editOutputs (Examples.world Examples.editNodes)).2 "d"
  = Some (VImageText "data:image/png;base64,IMGY" (Some "done")) ∧
  Workflow.w_history
    (Workflow.runNode (Examples.sampleEnv true) Examples.mockService
       Examples.editNodes (JsObject.values Examples.editEdges) "d"
       Examples.editOutputs (Examples.world Examples.editNodes)).2
  = [mkHistoryItem "uuid-0" "data:image/png;base64,IMGY"
                   (VString "make it blue")] ∧
  Workflow.w_remote
    (Workflow.runNode (Examples.sampleEnv true) Examples.mockService
       Examples.editNodes (JsObject.values Examples.editEdges) "d"
       Examples.editOutputs (Examples.world Examples.editNodes)).2
  = Examples.emptyRemote.
Proof.
  assert (Hstore : is_Some (JsObject.get
            (Workflow.w_nodes (Examples.world Examples.editNodes)) "d"))
    by (vm_compute; eauto).
  exact (proj1 (proj2
    (C8_image_editor (Examples.sampleEnv true) Examples.mockService
       Examples.editNodes (JsObject.values Examples.editEdges) "d"
       (Examples.imageEditor "d") Examples.editOutputs
       (Examples.world Examples.editNodes)
       eq_refl eq_refl eq_refl Hstore))
    (mkImageFile (Some "IMGX") "image/png")
    (mkEditResult (Some "IMGY") (Some "done")) Examples.emptyRemote "IMGY"
    eq_refl eq_refl eq_refl eq_refl eq_refl).
Defined.

(** ** Port compatibility and auto-routing *)
Section ConnectFacts.
Import Connect.

Lemma isTypeCompatible_iff s t :
  isTypeCompatible s t = true ↔ s = t ∨ s = any ∨ t = any.
Proof. destruct s, t; vm_compute; intuition congruence. Qed.

(** The scanning loop returns the first qualifying port. *)
Lemma scanInputs_first edges targetNode targetNodeId sourceType ports :
  scanInputs edges targetNode targetNodeId sourceType ports
  = port_id <$> head (List.filter (qualifies edges targetNode targetNodeId sourceType)
                                  ports).
Proof.
  induction ports as [|input rest IH]; simpl; [done|].
  unfold qualifies at 1.
  destruct (isTypeCompatible sourceType (port_type input)); simpl; [|done].
  by destruct (negb (isAlreadyConnected edges targetNodeId (port_id input))
               || _).
Qed.

Lemma firstQualifying_qualifies edges targetNode targetNodeId sourceType input :
  firstQualifying edges targetNode targetNodeId sourceType = Some input →
  qualifies edges targetNode targetNodeId sourceType input = true.
Proof.
  unfold firstQualifying. intros H.
  assert (Hin : In input (List.filter
                 (qualifies edges targetNode targetNodeId sourceType)
                 (inputs (data targetNode)))).
  { destruct (List.filter _ _) as [|x l]; [done|].
    simpl in H. injection H as ->. by left. }
  by apply filter_In in Hin as [_ ?].
Qed.

End ConnectFacts.

(** C9 (as amended).  Two port types are compatible exactly when they
    are equal or one of them is [any].  When a connection from an
    existing output handle is dropped on the body of a node other than
    the source node, the edge map gains one edge, to the first input port
    (in declaration order) that is type-compatible and available
    (unconnected, or an aggregating multi-image port), port identifiers
    being non-empty; when no port qualifies it is unchanged.  A drop on
    the body of the source node itself never creates an edge. *)
Theorem C9_compatibility_and_auto_routing :
  (∀ s t, Connect.isTypeCompatible s t = true ↔ s = t ∨ s = any ∨ t = any) ∧
  (∀ (nodes : JsObject.t Node) (edges : JsObject.t Edge)
     (sourceNodeId sourceHandleId targetNodeId newId : string)
     (sourceNode targetNode : Node) (sourceHandle : NodeOutput),
     JsObject.get nodes sourceNodeId = Some sourceNode →
     List.find (fun o => String.eqb (port_id o) sourceHandleId)
               (outputs (data sourceNode)) = Some sourceHandle →
     JsObject.get nodes targetNodeId = Some targetNode →
     JsString.nonEmpty targetNodeId = true →
     sourceNodeId ≠ targetNodeId →
     Connect.connect nodes edges sourceNodeId sourceHandleId
                     (Connect.OnBody (Some targetNodeId)) newId
     = match Connect.firstQualifying edges targetNode targetNodeId
               (port_type sourceHandle) with
       | Some input =>
           if JsString.nonEmpty (port_id input) then
             JsObject.set edges newId
               (mkEdge newId sourceNodeId sourceHandleId targetNodeId
                       (port_id input))
           else edges
       | None => edges
       end) ∧
  (∀ (nodes : JsObject.t Node) (edges : JsObject.t Edge)
     (sourceNodeId sourceHandleId newId : string),
     Connect.connect nodes edges sourceNodeId sourceHandleId
                     (Connect.OnBody (Some sourceNodeId)) newId
     = edges).
Proof.
  split; [exact isTypeCompatible_iff|]. split.
  - intros nodes edges src srcH tgt newId sn tn sh Hsn Hsh Htn Hne Hdiff.
    unfold Connect.connect, Connect.resolveTarget.
    rewrite Hne, Hsn, Htn. simpl. rewrite Hsh. simpl.
    apply String.eqb_neq in Hdiff. rewrite Hdiff. simpl.
    rewrite scanInputs_first.
    fold (Connect.firstQualifying edges tn tgt (port_type sh)).
    destruct (Connect.firstQualifying edges tn tgt (port_type sh))
      as [input|] eqn:Hfirst; simpl; [|done].
    rewrite Hne, Hdiff. simpl.
    destruct (JsString.nonEmpty (port_id input)); simpl; [|done].
    apply firstQualifying_qualifies in Hfirst.
    unfold Connect.qualifies in Hfirst.
    apply andb_true_iff in Hfirst as [_ Hav]. rewrite Htn. by rewrite Hav.
  - intros nodes edges src srcH newId.
    unfold Connect.connect, Connect.resolveTarget.
    destruct (JsString.nonEmpty src); [|done].
    destruct (JsObject.get nodes src) as [sn|]; simpl; [|done].
    destruct (List.find _ _); simpl; [|done].
    by rewrite String.eqb_refl.
Qed.

Lemma C9_witness :
  Connect.connect Examples.chainNodes [] "t" "t-output"
                  (Connect.OnBody (Some "g")) "e1"
  = match Connect.firstQualifying [] (Examples.textGenerator "g" false) "g"
            (port_type (mkPort "t-output" "Text" text)) with
    | Some input =>
        if JsString.nonEmpty (port_id input) then
          JsObject.set [] "e1" (mkEdge "e1" "t" "t-output" "g" (port_id input))
        else []
    | None => []
    end.
Proof.
  apply (proj1 (proj2 C9_compatibility_and_auto_routing)
           Examples.chainNodes [] "t" "t-output" "g" "e1"
           (Examples.textInput "t" "a cat") (Examples.textGenerator "g" false)
           (mkPort "t-output" "Text" text)).
  - reflexivity.
  - reflexivity.
  - reflexivity.
  - reflexivity.
  - decide_by_compute.
Defined.

(** C9, as stated, fails: a connection dragged from the output of a
    TextGenerator and dropped on that node's own body finds a first
    input port that is type-compatible and unconnected, yet no edge is
    created. *)
Lemma C9_counterexample :
  Connect.firstQualifying [] (Examples.textGenerator "g" false) "g" text
  = Some (mkPort "g-input" "Prompt" text) ∧
  Connect.connect (Examples.object [Examples.textGenerator "g" false]) []
                  "g" "g-output" (Connect.OnBody (Some "g")) "e1"
  = [].
Proof. split; vm_compute; reflexivity. Qed.

(** ** End-to-end scenarios *)

(** Scenario A: the output node shows the completion of "a cat" (the
    completion call is rate-limited twice before it succeeds). *)
Example scenario_A :
  ∃ w',
    Workflow.runWorkflow (Examples.sampleEnv false)
      (liveService (Examples.sampleEnv false) 0)
      Examples.chainEdges (Examples.world Examples.chainNodes)
    = (Workflow.Finished, w') ∧
    Workflow.contentOf w' "o" = Some (VString "a fluffy cat") ∧
    length (calls (Workflow.w_remote w')) = 3%nat.
Proof. eexists. repeat split; vm_compute; reflexivity. Qed.

(** Scenario B: the edit returns [{image: IMGY, text: "done"}]; the
    image port of the editor feeds the output node and one history item
    records the prompt. *)
Example scenario_B :
  ∃ w',
    Workflow.runWorkflow (Examples.sampleEnv true) Examples.mockService
      Examples.editEdges (Examples.world Examples.editNodes)
    = (Workflow.Finished, w') ∧
    Workflow.contentOf w' "o" = Some (VString "data:image/png;base64,IMGY") ∧
    map hist_prompt (Workflow.w_history w') = [VString "make it blue"].
Proof. eexists. repeat split; vm_compute; reflexivity. Qed.

(** Scenario C: two image inputs wired into the aggregating port; the
    preset operation is called with exactly these two images, in
    connection order. *)
Example scenario_C :
  ∃ w',
    Workflow.runWorkflow (Examples.sampleEnv true) Examples.mockService
      Examples.presetEdges (Examples.world Examples.presetNodes)
    = (Workflow.Finished, w') ∧
    calls (Workflow.w_remote w')
    = [ReqGenerateContent "mock-preset"
         (Parts [ReqInline (Some "ONE") "image/png";
                 ReqInline (Some "TWO") "image/png";
                 ReqText (VString "blend")])] ∧
    Workflow.contentOf w' "o" = Some (VString "data:image/png;base64,IMGZ").
Proof. eexists. repeat split; vm_compute; reflexivity. Qed.

(** Scenario D: the editor without prompt halts the run; nothing is
    added to the history and the output node stays idle. *)
Example scenario_D :
  ∃ w',
    Workflow.runWorkflow (Examples.sampleEnv true) Examples.mockService
      Examples.promptlessEdges (Examples.world Examples.promptlessNodes)
    = (Workflow.HaltedAt "d", w') ∧
    Workflow.w_history w' = [] ∧
    Workflow.statusOf w' "i" = Some COMPLETED ∧
    Workflow.statusOf w' "o" = Some IDLE.
Proof. eexists. repeat split; vm_compute; reflexivity. Qed.

(** The string primitives behave as their JavaScript namesakes. *)
Example split_dataUrl :
  JsString.split "data:image/png;base64,AAAA" "," = ["data:image/png;base64"; "AAAA"] ∧
  JsString.split "a," "," = ["a"; ""] ∧
  JsString.endsWith "p-input-multi-image" "-input-multi-image" = true ∧
  JsString.includes (JsString.toLowerCase "Rate Limit hit") "rate limit" = true ∧
  Workflow.processImageInput (VString "data:image/png;base64,AAAA")
  = Some (mkImageFile (Some "AAAA") "image/png").
Proof. repeat split; vm_compute; reflexivity. Qed.

(** ** Facts about strings *)
Section StringFacts.

Lemma append_cons c s t : String c s +:+ t = String c (s +:+ t).
Proof. reflexivity. Qed.

Lemma append_nil_r s : s +:+ "" = s.
Proof. induction s as [|c s IH]; [done|]. by rewrite append_cons, IH. Qed.

Lemma append_assoc s1 s2 s3 : (s1 +:+ s2) +:+ s3 = s1 +:+ (s2 +:+ s3).
Proof.
  induction s1 as [|c s1 IH]; [done|]. by rewrite !append_cons, IH.
Qed.

Lemma rev_app_append s : ∀ acc, String.rev_app s acc = String.rev s +:+ acc.
Proof.
  unfold String.rev. induction s as [|c s IH]; intros acc; [done|].
  cbn [String.rev_app]. rewrite (IH (String c acc)), (IH (String c "")).
  by rewrite append_assoc.
Qed.

Lemma rev_app_app s1 : ∀ s2 acc,
  String.rev_app (s1 +:+ s2) acc = String.rev_app s2 (String.rev_app s1 acc).
Proof.
  induction s1 as [|c s1 IH]; intros s2 acc; [done|].
  rewrite append_cons. cbn [String.rev_app]. apply IH.
Qed.

Lemma rev_append s1 s2 :
  String.rev (s1 +:+ s2) = String.rev s2 +:+ String.rev s1.
Proof.
  unfold String.rev at 1. rewrite rev_app_app. apply rev_app_append.
Qed.

Lemma prefix_append p s : String.prefix p (p +:+ s) = true.
Proof.
  induction p as [|c p IH]; [by destruct s|]. rewrite append_cons.
  cbn [String.prefix]. by destruct (ascii_dec c c).
Qed.

Lemma endsWith_append a s : JsString.endsWith (a +:+ s) s = true.
Proof. unfold JsString.endsWith. rewrite rev_append. apply prefix_append. Qed.

End StringFacts.

Lemma filter_all {A} (P : A → Prop) `{∀ x, Decision (P x)} (l : list A) :
  (∀ x, x ∈ l → P x) → filter P l = l.
Proof.
  induction l as [|x l IH]; intros HP; [done|].
  rewrite filter_cons, decide_True by (apply HP; by left).
  rewrite IH; [done|]. intros y Hy. apply HP. by right.
Qed.

Lemma filter_none {A} (P : A → Prop) `{∀ x, Decision (P x)} (l : list A) :
  (∀ x, x ∈ l → ¬ P x) → filter P l = [].
Proof.
  induction l as [|x l IH]; intros HP; [done|].
  rewrite filter_cons, decide_False by (apply HP; by left).
  apply IH. intros y Hy. apply HP. by right.
Qed.

Lemma prefix_inv p : ∀ s, String.prefix p s = true → ∃ t, s = p +:+ t.
Proof.
  induction p as [|c p IH]; intros s; [by exists s|].
  destruct s as [|a s]; [done|]. cbn [String.prefix].
  destruct (ascii_dec c a) as [->|]; [|done].
  intros [t ->]%IH. by exists t.
Qed.

Lemma append_nil_l s : "" +:+ s = s.
Proof. reflexivity. Qed.

(** ** Further properties of the scheduler *)
Section SchedulerOrder.
Import Scheduler Graph.

Lemma relax_queue vs : ∀ inDegree queue,
  ∃ extra, (fold_left relax vs (inDegree, queue)).2 = queue ++ extra.
Proof.
  induction vs as [|v vs IH]; intros d q; simpl.
  - exists []. by rewrite app_nil_r.
  - unfold relax at 2. simpl.
    destruct (isZero _).
    + destruct (IH (<[v:=decr (d !! v)]> d) (q ++ [v])) as [extra ->].
      exists (v :: extra). by rewrite <- app_assoc.
    + apply IH.
Qed.

Lemma visit_queue adj u inDegree queue :
  ∃ extra, (visit adj u inDegree queue).2 = queue ++ extra.
Proof.
  unfold visit. destruct (adj !! u) as [vs|]; [apply relax_queue|].
  exists []. by rewrite app_nil_r.
Qed.

(** The loop never reorders what is already queued. *)
Lemma loop_prefix fuel adj : ∀ inDegree queue order result,
  loop fuel adj inDegree queue order = Some result →
  ∃ rest, result = order ++ queue ++ rest.
Proof.
  induction fuel as [|fuel IH]; intros d q o r; destruct q as [|u q]; simpl.
  - intros [= <-]. exists []. by rewrite app_nil_r.
  - done.
  - intros [= <-]. exists []. by rewrite app_nil_r.
  - intros H. apply IH in H as [rest ->].
    destruct (visit_queue adj u d q) as [extra ->].
    exists (extra ++ rest). by rewrite <- !app_assoc.
Qed.

Lemma filter_ext_elem {A} (P Q : A → Prop) `{∀ x, Decision (P x)}
    `{∀ x, Decision (Q x)} (l : list A) :
  (∀ x, x ∈ l → P x ↔ Q x) → filter P l = filter Q l.
Proof.
  induction l as [|x l IH]; intros HPQ; [done|].
  rewrite !filter_cons.
  assert (Hx : P x ↔ Q x) by (apply HPQ; by left).
  rewrite IH by (intros y Hy; apply HPQ; by right).
  destruct (decide (P x)), (decide (Q x)); tauto || done.
Qed.

Lemma remaining_none es v :
  remaining es [] v = 0%nat ↔ Forall (λ e, targetNodeId e ≠ v) es.
Proof.
  unfold remaining. induction es as [|e es IH]; [by split; [constructor|]|].
  rewrite filter_cons, Forall_cons.
  destruct (decide (targetNodeId e = v ∧ sourceNodeId e ∉ [])) as [[Ht _]|Hn];
    simpl.
  - split; [done|]. by intros [? _].
  - rewrite IH. split; [|tauto]. intros HF. split; [|done].
    intros Ht. apply Hn. split; [done|]. apply not_elem_of_nil.
Qed.

Lemma executionOrder_sources nodeIds es :
  executionOrder nodeIds es ≠ Raised TypeError → sourcesPresent nodeIds es.
Proof.
  intros Hne.
  destruct (decide (Forall (λ e, sourceNodeId e ∈ nodeIds) es)) as [HF|HF].
  - intros e He. by eapply Forall_forall in HF.
  - apply not_Forall_Exists in HF; [|apply _].
    apply Exists_exists in HF as (e & He & Hsrc).
    exfalso. apply Hne, executionOrder_raises. by exists e.
Qed.

Lemma executionOrder_ready nodeIds es order :
  executionOrder nodeIds es = Order order →
  ∃ rest,
    order = filter (λ id, Forall (λ e, targetNodeId e ≠ id) es) nodeIds ++ rest.
Proof.
  intros Horder.
  assert (Hsrc : sourcesPresent nodeIds es).
  { apply executionOrder_sources. by rewrite Horder. }
  unfold executionOrder in Horder.
  destruct (addEdges_tables nodeIds es [] _ _ (tablesAfter_init nodeIds) Hsrc)
    as (adj & inDegree & Hadd & Htab).
  rewrite Hadd in Horder. simpl in Htab.
  destruct (loop _ _ _ _ _) as [o|] eqn:Hloop; [|done].
  injection Horder as ->.
  apply loop_prefix in Hloop as [rest ->]. exists rest. simpl. f_equal.
  apply filter_ext_elem. intros id Hid.
  destruct Htab as (_ & _ & Hdeg & _). rewrite (Hdeg id Hid), isZero_Num.
  rewrite <- remaining_none, bool_decide_spec. lia.
Qed.

End SchedulerOrder.

(** X1.  Outcome of the scheduling phase (App.tsx 514-532), exactly: it raises
    a TypeError if and only if some edge leaves a node that is not in the
    node map (an absent target alone is harmless), it returns an order
    otherwise, and the queue loop always terminates. *)
Theorem scheduler_outcome (nodes : JsObject.t Node) (edges : JsObject.t Edge) :
  JsObject.wf nodes →
  let result :=
    Scheduler.executionOrder (JsObject.keys nodes) (JsObject.values edges) in
  (result = Scheduler.Raised TypeError ↔
   ∃ e, e ∈ JsObject.values edges ∧ sourceNodeId e ∉ JsObject.keys nodes) ∧
  ((∃ order, result = Scheduler.Order order) ↔
   Graph.sourcesPresent (JsObject.keys nodes) (JsObject.values edges)) ∧
  result ≠ Scheduler.Unfinished.
Proof.
  intros Hwf result. split; [|split].
  - split; [|apply executionOrder_raises].
    intros Hr.
    destruct (decide (Forall (λ e, sourceNodeId e ∈ JsObject.keys nodes)
                             (JsObject.values edges))) as [HF|HF].
    + exfalso.
      destruct (executionOrder_kahn (JsObject.keys nodes) (JsObject.values edges)
                  Hwf) as (order & Ho & _).
      { intros e He. by eapply Forall_forall in HF. }
      unfold result in Hr. congruence.
    + apply not_Forall_Exists in HF; [|apply _].
      apply Exists_exists in HF as (e & He & Hsrc). by exists e.
  - split.
    + intros [order Ho]. apply executionOrder_sources.
      unfold result in Ho. by rewrite Ho.
    + intros Hsrc.
      destruct (executionOrder_kahn _ _ Hwf Hsrc) as (order & Ho & _).
      by exists order.
  - by apply executionOrder_finishes.
Qed.

Lemma scheduler_outcome_witness :
  JsObject.wf Examples.chainNodes ∧
  (Scheduler.executionOrder (JsObject.keys Examples.chainNodes)
     (JsObject.values Examples.danglingEdges) = Scheduler.Raised TypeError ↔
   ∃ e, e ∈ JsObject.values Examples.danglingEdges ∧
        sourceNodeId e ∉ JsObject.keys Examples.chainNodes).
Proof.
  assert (Hwf : JsObject.wf Examples.chainNodes) by decide_by_compute.
  split; [exact Hwf|].
  exact (proj1 (scheduler_outcome Examples.chainNodes Examples.danglingEdges Hwf)).
Defined.

(** X2.  Nodes without incoming edges are executed first, in the order in
    which [Object.keys(nodes)] lists them, before any node that has an
    input edge; a workflow without edges is executed in exactly the
    order in which [Object.keys(nodes)] lists its nodes. *)
Theorem ready_nodes_run_first (nodes : JsObject.t Node) (edges : JsObject.t Edge)
    (order : list string) :
  JsObject.wf nodes →
  Scheduler.executionOrder (JsObject.keys nodes) (JsObject.values edges)
    = Scheduler.Order order →
  (∃ rest,
     order
     = filter (λ id, Forall (λ e, targetNodeId e ≠ id) (JsObject.values edges))
              (JsObject.keys nodes) ++ rest) ∧
  (JsObject.values edges = [] → order = JsObject.keys nodes).
Proof.
  intros Hwf Horder. split; [by apply executionOrder_ready|].
  intros Hnil. rewrite Hnil in Horder.
  destruct (executionOrder_ready _ _ _ Horder) as [rest Hrest].
  pose proof (executionOrder_Order_inv _ _ _ Hwf Horder) as (Hnd & Hin & _).
  assert (Hall : filter (λ id, Forall (λ e : Edge, targetNodeId e ≠ id) [])
                        (JsObject.keys nodes) = JsObject.keys nodes).
  { clear. induction (JsObject.keys nodes) as [|k ks IH]; [done|].
    rewrite filter_cons. destruct (decide _) as [_|Hn]; [by rewrite IH|].
    exfalso. apply Hn. constructor. }
  rewrite Hall in Hrest. subst order.
  destruct rest as [|x rest]; [by rewrite app_nil_r|].
  exfalso. apply NoDup_app in Hnd as (_ & Hdisj & _).
  apply (Hdisj x); [|by left].
  apply Hin. apply elem_of_app. right. by left.
Qed.

Lemma ready_nodes_run_first_witness :
  ∃ rest,
    ["a"; "b"; "o1"; "o2"]
    = filter (λ id, Forall (λ e, targetNodeId e ≠ id)
                           (JsObject.values Scenarios.forkEdges))
             (JsObject.keys Scenarios.forkNodes) ++ rest.
Proof.
  assert (Hwf : JsObject.wf Scenarios.forkNodes) by decide_by_compute.
  assert (Horder :
    Scheduler.executionOrder (JsObject.keys Scenarios.forkNodes)
                             (JsObject.values Scenarios.forkEdges)
    = Scheduler.Order ["a"; "b"; "o1"; "o2"]).
  { vm_compute. reflexivity. }
  exact (proj1 (ready_nodes_run_first Scenarios.forkNodes Scenarios.forkEdges
                  _ Hwf Horder)).
Defined.

(** ** Further properties of the service *)
Section RetryBounds.
Import GeminiService.
Variable env : Env.
Context {Args Res : Type}.
Variable request : Args → Request.
Variable settle : nat → Args → Thrown + Res.

Lemma retryLoop_bounds args : ∀ remaining i last s,
  (remaining + i = MAX_RETRIES)%nat → (1 ≤ remaining)%nat →
  ∃ n, (1 ≤ n ≤ remaining)%nat ∧
    let r := retryLoop env (remoteCall request settle) args remaining i last s in
    calls r.2 = calls s ++ replicate n (request args) ∧
    delays r.2
    = delays s ++
      map (λ j, (backoffTime (i + j) + Math_random env (draws s + j) * 1000)%Q)
          (seq 0 (n - 1)) ∧
    draws r.2 = (draws s + (n - 1))%nat ∧
    match r.1 with
    | Return a => settle (length (calls s) + (n - 1))%nat args = inr a
    | Throw e => settle (length (calls s) + (n - 1))%nat args = inl e
    | Pending => False
    end.
Proof.
  induction remaining as [|rem IH]; intros i last s Hsum Hpos; [lia|].
  destruct (settle (length (calls s)) args) as [e|r] eqn:Hs.
  - destruct (isRateLimitError env e) eqn:Hc;
      [destruct (i <? MAX_RETRIES - 1)%nat eqn:Hi|].
    + rewrite (retry_again env request settle rem i last args s e Hs Hc Hi).
      apply Nat.ltb_lt in Hi. unfold MAX_RETRIES in *.
      set (s1 := logDelay _ _).
      assert (Hc1 : calls s1 = calls s ++ [request args]) by done.
      assert (Hd1 : delays s1
                    = delays s ++ [(backoffTime i
                                    + Math_random env (draws s) * 1000)%Q])
        by done.
      assert (Hr1 : draws s1 = S (draws s)) by done.
      destruct (IH (S i) e s1) as (n & Hn & Hcalls & Hdelays & Hdraws & Hres);
        [lia..|].
      exists (S n). split; [lia|]. cbn zeta in *.
      rewrite Hcalls, Hdelays, Hdraws, Hc1, Hd1, Hr1.
      rewrite Hc1, length_app in Hres. simpl in Hres.
      destruct n as [|m]; [lia|].
      replace (S (S m) - 1)%nat with (S m) by lia.
      replace (S m - 1)%nat with m in * by lia.
      split; [by rewrite <- app_assoc|]. split; [|split].
      * rewrite <- app_assoc. simpl. rewrite !Nat.add_0_r.
        do 2 f_equal. rewrite <- fmap_S_seq.
        change (S <$> seq 0 m) with (map S (seq 0 m)).
        rewrite map_map. apply map_ext.
        intros j. by rewrite !Nat.add_succ_r.
      * lia.
      * replace (length (calls s) + S m)%nat
          with (length (calls s) + 1 + m)%nat by lia.
        exact Hres.
    + rewrite (retry_exhausted env request settle rem i last args s e Hs Hi).
      exists 1%nat. split; [lia|]. simpl.
      rewrite app_nil_r, !Nat.add_0_r. done.
    + rewrite (retry_fatal env request settle rem i last args s e Hs Hc).
      exists 1%nat. split; [lia|]. simpl.
      rewrite app_nil_r, !Nat.add_0_r. done.
  - rewrite (retry_return env request settle rem i last args s r Hs).
    exists 1%nat. split; [lia|]. simpl.
    rewrite app_nil_r, !Nat.add_0_r. done.
Qed.

End RetryBounds.

(** X3.  [withRetry] (geminiService 20-61) around any remote operation makes
    between one and [MAX_RETRIES] invocations, all with the same
    arguments; it waits once between two consecutive invocations, the
    j-th wait being 2000 * 2^j ms plus the jitter of one [Math.random()]
    draw; and what it returns or throws is what its last invocation
    returned or threw. *)
Theorem withRetry_bounds (env : Env) (Args Res : Type)
    (request : Args → Request) (settle : nat → Args → Thrown + Res)
    (args : Args) (s : Remote) :
  ∃ n, (1 ≤ n ≤ GeminiService.MAX_RETRIES)%nat ∧
    let r :=
      GeminiService.withRetry env (GeminiService.remoteCall request settle)
                              args s in
    calls r.2 = calls s ++ replicate n (request args) ∧
    delays r.2
    = delays s ++
      map (λ j, (GeminiService.backoffTime j
                 + Math_random env (draws s + j) * 1000)%Q)
          (seq 0 (n - 1)) ∧
    draws r.2 = (draws s + (n - 1))%nat ∧
    match r.1 with
    | Return a => settle (length (calls s) + (n - 1))%nat args = inr a
    | Throw e => settle (length (calls s) + (n - 1))%nat args = inl e
    | Pending => False
    end.
Proof.
  unfold GeminiService.withRetry.
  destruct (retryLoop_bounds env request settle args GeminiService.MAX_RETRIES 0
              (NonError "undefined") s) as (n & Hn & H); [done|unfold GeminiService.MAX_RETRIES; lia|].
  exists n. split; [done|]. exact H.
Qed.

Section ServiceTotal.
Import GeminiService.
Variable env : Env.

Lemma withRetry_settles {Args Res} (request : Args → Request)
    (settle : nat → Args → Thrown + Res) args s :
  (withRetry env (remoteCall request settle) args s).1 ≠ Pending.
Proof. apply retryLoop_settles. Qed.

Lemma generateImage_returns prompt s :
  ∃ out s', generateImage env prompt s = (Return out, s').
Proof.
  unfold generateImage. destruct (truthy prompt); simpl; [|by eexists _, _].
  unfold tryCatch, bind, generateImagesWithRetry.
  pose proof (withRetry_settles
                (fun a : string * Value => ReqGenerateImages a.1 a.2)
                (fun k a => ai_generateImages env k a.1 a.2)
                ("imagen-4.0-generate-001", prompt) s) as Hs.
  destruct (withRetry _ _ _ s) as [[r|e|] s1]; simpl in *; [| |done].
  - destruct r as [[|[img|] imgs]|]; by eexists _, _.
  - by eexists _, _.
Qed.

Lemma imageCall_returns parts context s :
  ∃ out s', imageCall env parts context s = (Return out, s').
Proof.
  unfold imageCall, tryCatch, bind, generateContentWithRetry.
  pose proof (withRetry_settles
                (fun a : string * Contents => ReqGenerateContent a.1 a.2)
                (fun k a => ai_generateContent env k a.1 a.2)
                ("gemini-2.5-flash-image-preview", Parts parts) s) as Hs.
  destruct (withRetry _ _ _ s) as [[r|e|] s1]; simpl in *; [| |done].
  - destruct (resp_parts r); by eexists _, _.
  - by eexists _, _.
Qed.

Lemma editImage_returns base64Image mimeType prompt s :
  ∃ out s', editImage env base64Image mimeType prompt s = (Return out, s').
Proof.
  unfold editImage. destruct (_ || _); [by eexists _, _|apply imageCall_returns].
Qed.

Lemma executePreset_returns inputs prompt s :
  ∃ out s', executePreset env inputs prompt s = (Return out, s').
Proof.
  unfold executePreset.
  destruct (_ || _); [by eexists _, _|apply imageCall_returns].
Qed.

Lemma generateVideo_catches fuel base64Image mimeType prompt s :
  ∀ e, (generateVideo env fuel base64Image mimeType prompt s).1 ≠ Throw e.
Proof.
  intros e. unfold generateVideo.
  destruct (truthy prompt); simpl; [|done].
  unfold tryCatch. destruct (bind _ _ s) as [[a|e'|] s1]; done.
Qed.

End ServiceTotal.

(** X4.  No operation of the service lets an error escape: [generateText],
    [generateImage], [editImage] and [executePreset] always return a
    value (the failure of the remote call becomes the returned text),
    and [generateVideo] never throws (it returns, or keeps polling).
    So a VideoGenerator node never stops a run with status ERROR. *)
Theorem service_never_throws (env : Env) :
  (∀ prompt s, ∃ out s', GeminiService.generateText env prompt s = (Return out, s')) ∧
  (∀ prompt s, ∃ out s', GeminiService.generateImage env prompt s = (Return out, s')) ∧
  (∀ base64Image mimeType prompt s,
     ∃ out s', GeminiService.editImage env base64Image mimeType prompt s
               = (Return out, s')) ∧
  (∀ inputs prompt s,
     ∃ out s', GeminiService.executePreset env inputs prompt s = (Return out, s')) ∧
  (∀ fuel base64Image mimeType prompt s e,
     (GeminiService.generateVideo env fuel base64Image mimeType prompt s).1
     ≠ Throw e) ∧
  (∀ pollFuel nodes edges nodeId node nodeOutputs w,
     JsObject.get nodes nodeId = Some node →
     node_type node = VIDEO_GENERATOR →
     (Workflow.runNode env (liveService env pollFuel) nodes edges nodeId
                       nodeOutputs w).1 ≠ Workflow.Halt).
Proof.
  split; [apply generateText_returns|].
  split; [apply generateImage_returns|].
  split; [apply editImage_returns|].
  split; [apply executePreset_returns|].
  split; [apply generateVideo_catches|].
  intros pollFuel nodes edges nodeId node outs w Hnode Hty.
  unfold Workflow.runNode. rewrite Hnode.
  destruct (isMuted (data node)); [done|].
  unfold Workflow.dispatch. rewrite Hty.
  unfold bind, Workflow.videoService. cbn [generateVideo liveService].
  set (w1 := Workflow.updateNodeData nodeId _ w).
  match goal with
  | |- context [GeminiService.generateVideo env pollFuel ?b ?m ?p ?s] =>
      pose proof (generateVideo_catches env pollFuel b m p s) as Hv;
      destruct (GeminiService.generateVideo env pollFuel b m p s)
        as [[out|e|] s1]
  end; simpl in *; [done| |done].
  by destruct (Hv e).
Qed.

(** ** Further properties of the run loop *)

(** ** A relation kept by every state change of a run *)
Section RunInvariant.
Import Workflow Observe.
Variable env : Env.
Variable geminiService : Service.
Variable R : World → World → Prop.
Hypothesis R_refl : ∀ w, R w w.
Hypothesis R_trans : ∀ w1 w2 w3, R w1 w2 → R w2 w3 → R w1 w3.
Hypothesis R_update : ∀ nodeId p w, R w (updateNodeData nodeId p w).
Hypothesis R_remote : ∀ r w, R w (setRemote r w).
Hypothesis R_history :
  ∀ dataUrl prompt w, R w (pushHistory env dataUrl prompt w).2.

Lemma kept_ret {A} (a : A) : kept R (ret a).
Proof. intros w. apply R_refl. Qed.

Lemma kept_throw {A} e : kept R (@throw World A e).
Proof. intros w. apply R_refl. Qed.

Lemma kept_bind {A B} (m : M World A) (k : A → M World B) :
  kept R m → (∀ a, kept R (k a)) → kept R (bind m k).
Proof.
  intros Hm Hk w. unfold bind. specialize (Hm w).
  destruct (m w) as [[a|e|] w1]; simpl in *; [|done..].
  eapply R_trans; [done|apply Hk].
Qed.

Lemma kept_service {A} (m : M Remote A) : kept R (service m).
Proof. intros w. apply R_remote. Qed.

Lemma kept_pushHistory dataUrl prompt : kept R (pushHistory env dataUrl prompt).
Proof. intros w. apply R_history. Qed.

Lemma kept_progress nodeId msgs : ∀ w,
  R w (fold_left (fun w' progress =>
                    updateNodeData nodeId (progressPatch progress) w') msgs w).
Proof.
  induction msgs as [|msg msgs IH]; intros w; simpl; [apply R_refl|].
  eapply R_trans; [apply R_update|apply IH].
Qed.

Lemma kept_videoService nodeId m : kept R (videoService nodeId m).
Proof.
  intros w. unfold videoService. simpl.
  eapply R_trans; [apply R_remote|apply kept_progress].
Qed.

Lemma kept_dispatch edges nodeId node inputValues nodeOutputs :
  kept R (dispatch env geminiService edges nodeId node inputValues nodeOutputs).
Proof.
  unfold dispatch.
  repeat first
    [ apply kept_ret | apply kept_throw | apply kept_service
    | apply kept_pushHistory | apply kept_videoService
    | apply kept_bind; [|intros ?]
    | match goal with
      | |- kept _ (match ?x with _ => _ end) => destruct x
      | |- kept _ (if ?x then _ else _) => destruct x
      end ].
Qed.

(** Up to the final [setIsProcessing(false)] of a halted iteration. *)
Lemma runNode_kept nodes edges nodeId nodeOutputs w :
  ∃ w2, R w w2 ∧
    let r := runNode env geminiService nodes edges nodeId nodeOutputs w in
    match r.1 with
    | Halt => r.2 = setIsProcessing false w2
    | _ => r.2 = w2
    end.
Proof.
  unfold runNode. destruct (JsObject.get nodes nodeId) as [node|]; simpl;
    [|by exists w].
  destruct (isMuted (data node)); simpl;
    [eexists; split; [apply R_update|done]|].
  set (w1 := updateNodeData nodeId _ w).
  pose proof (kept_dispatch edges nodeId node
                (gatherInputs edges nodeId nodeOutputs) nodeOutputs w1) as Hd.
  assert (H1 : R w w1) by apply R_update.
  destruct (dispatch _ _ _ _ _ _ _ w1) as [[output|e|] w2]; simpl in *.
  - eexists. split; [|done].
    eapply R_trans; [exact H1|]. eapply R_trans; [exact Hd|apply R_update].
  - eexists. split; [|done].
    eapply R_trans; [exact H1|]. eapply R_trans; [exact Hd|apply R_update].
  - exists w2. split; [|done]. eapply R_trans; [exact H1|exact Hd].
Qed.

Lemma runNodes_kept nodes edges order : ∀ nodeOutputs w,
  ∃ w2, R w w2 ∧
    let r := runNodes env geminiService nodes edges order nodeOutputs w in
    match r.1 with
    | Finished | HaltedAt _ => r.2 = setIsProcessing false w2
    | _ => r.2 = w2
    end.
Proof.
  induction order as [|nodeId rest IH]; intros outs w; simpl.
  - by exists w.
  - destruct (runNode_kept nodes edges nodeId outs w) as (wa & Ha & Hr).
    cbn zeta in Hr.
    destruct (runNode _ _ _ _ _ _ _) as [[outs1| | |] w1]; simpl in *.
    + subst w1. destruct (IH outs1 wa) as (wb & Hb & Hrb).
      exists wb. split; [by eapply R_trans|done].
    + by exists wa.
    + by exists wa.
    + by exists wa.
Qed.

Lemma runWorkflow_kept edges w :
  ∃ w2, R (startRun w) w2 ∧
    let r := runWorkflow env geminiService edges w in
    match r.1 with
    | Finished | HaltedAt _ => r.2 = setIsProcessing false w2
    | _ => r.2 = w2
    end.
Proof.
  unfold runWorkflow. destruct (Scheduler.executionOrder _ _) as [e|order|].
  - by exists (startRun w).
  - apply runNodes_kept.
  - by exists (startRun w).
Qed.

End RunInvariant.

Section RunShape.
Import Workflow Observe.

Lemma shapes_set o k v n :
  JsObject.get o k = Some n → shape v = shape n →
  shapes (JsObject.set o k v) = shapes o.
Proof.
  intros Hget Hshape. induction o as [|[k' v'] o IH]; [done|]. simpl in *.
  destruct (String.eqb k' k) eqn:Hk.
  - apply String.eqb_eq in Hk as ->. injection Hget as ->.
    simpl. by rewrite Hshape.
  - simpl. f_equal. by apply IH.
Qed.

Lemma shapes_patchNode nodeId p o : shapes (patchNode nodeId p o) = shapes o.
Proof.
  unfold patchNode. destruct (JsObject.get o nodeId) as [n|] eqn:Hn; [|done].
  by eapply shapes_set.
Qed.

Lemma shapes_resetNodes o : shapes (resetNodes o) = shapes o.
Proof.
  unfold shapes, resetNodes. rewrite map_map. by apply map_ext.
Qed.

Lemma keys_shapes o : JsObject.keys o = map fst (shapes o).
Proof. unfold JsObject.keys, shapes. rewrite map_map. by apply map_ext. Qed.

End RunShape.

(** X5.  A run ([runWorkflow], App.tsx 499-708) never adds, removes or
    reorders nodes, and writes nothing but [status], [content] and
    [errorMessage]: identifier, type, label, ports, prompt template and
    mute flag of every node are as before, whatever the service does and
    however the run ends. *)
Theorem run_preserves_shape (env : Env) (geminiService : Service)
    (edges : JsObject.t Edge) (w : Workflow.World) :
  let w' := (Workflow.runWorkflow env geminiService edges w).2 in
  Observe.shapes (Workflow.w_nodes w') = Observe.shapes (Workflow.w_nodes w) ∧
  JsObject.keys (Workflow.w_nodes w') = JsObject.keys (Workflow.w_nodes w).
Proof.
  intros w'.
  assert (H : Observe.shapes (Workflow.w_nodes w')
              = Observe.shapes (Workflow.w_nodes w)).
  { destruct (runWorkflow_kept env geminiService
                (λ w1 w2, Observe.shapes (Workflow.w_nodes w2)
                          = Observe.shapes (Workflow.w_nodes w1)))
      with (edges := edges) (w := w) as (w2 & H2 & Hr).
    - done.
    - intros w1 w2 w3 H12 H23. by rewrite H23.
    - intros nodeId p w1. apply shapes_patchNode.
    - done.
    - done.
    - simpl in H2. rewrite shapes_resetNodes in H2.
      cbn zeta in Hr. fold w' in Hr.
      destruct (Workflow.runWorkflow env geminiService edges w).1;
        rewrite Hr; exact H2. }
  split; [exact H|]. by rewrite !keys_shapes, H.
Qed.

Section RunHistory.
Import Workflow Observe.
Variable env : Env.

Lemma historyGrown_refl w : historyGrown env [] w w.
Proof. split; [done|]. split; [simpl; lia|done]. Qed.

Lemma historyGrown_trans a1 a2 w1 w2 w3 :
  historyGrown env a1 w1 w2 → historyGrown env a2 w2 w3 →
  historyGrown env (a2 ++ a1) w1 w3.
Proof.
  intros (Hh1 & Hu1 & Hi1) (Hh2 & Hu2 & Hi2). split; [|split].
  - by rewrite Hh2, Hh1, app_assoc.
  - rewrite Hu2, Hu1, length_app. lia.
  - rewrite map_app, Hi2, Hi1, Hu1, length_app.
    rewrite (Nat.add_comm (length a2)), seq_app, map_app, rev_app_distr.
    done.
Qed.

Lemma historyGrown_same w w' :
  w_history w' = w_history w → w_uuids w' = w_uuids w →
  historyGrown env [] w w'.
Proof. intros Hh Hu. split; [done|]. split; [simpl; lia|done]. Qed.

End RunHistory.

(** X6.  A run only ever puts new items in front of the history: the items
    that were there stay, in their order; each new item takes the next
    [crypto.randomUUID()] draw as its identifier, the newest first. *)
Theorem run_extends_history (env : Env) (geminiService : Service)
    (edges : JsObject.t Edge) (w : Workflow.World) :
  ∃ added,
    Observe.historyGrown env added w
      (Workflow.runWorkflow env geminiService edges w).2.
Proof.
  destruct (runWorkflow_kept env geminiService
              (λ w1 w2, ∃ added, Observe.historyGrown env added w1 w2))
    with (edges := edges) (w := w) as (w2 & [added H2] & Hr).
  - intros w1. exists []. apply historyGrown_refl.
  - intros w1 w2 w3 [a1 H1] [a2 H2]. exists (a2 ++ a1).
    by eapply historyGrown_trans.
  - intros nodeId p w1. exists []. by apply historyGrown_same.
  - intros r w1. exists []. by apply historyGrown_same.
  - intros dataUrl prompt w1.
    exists [mkHistoryItem (crypto_randomUUID env (Workflow.w_uuids w1))
                          dataUrl prompt].
    split; [done|]. split; [simpl; lia|done].
  - exists added. cbn zeta in Hr.
    assert (Hs : Observe.historyGrown env added w w2).
    { destruct H2 as (Hh & Hu & Hi). by split. }
    destruct (Workflow.runWorkflow env geminiService edges w).1;
      rewrite Hr; exact Hs.
Qed.

(** X7.  The processing flag after a run: cleared when the run finished or
    was halted by a node error; left set when the scheduler raised (the
    exception leaves [runWorkflow] before the flag is cleared) and while
    a video node keeps polling. *)
Theorem run_processing_flag (env : Env) (geminiService : Service)
    (edges : JsObject.t Edge) (w : Workflow.World) :
  let r := Workflow.runWorkflow env geminiService edges w in
  Workflow.w_isProcessing r.2
  = match r.1 with
    | Workflow.Finished | Workflow.HaltedAt _ => false
    | _ => true
    end.
Proof.
  intros r.
  destruct (runWorkflow_kept env geminiService
              (λ w1 w2, Workflow.w_isProcessing w2 = Workflow.w_isProcessing w1))
    with (edges := edges) (w := w) as (w2 & H2 & Hr); try done.
  - intros w1 w2' w3 H12 H23. by rewrite H23.
  - cbn zeta in Hr. fold r in Hr. simpl in H2.
    destruct r.1; rewrite Hr; done.
Qed.

(** ** Statuses at the end of a run *)
Section RunStatuses.
Import Workflow Observe.
Variable env : Env.
Variable geminiService : Service.

Lemma status_after_update nodeId p w s :
  is_Some (JsObject.get (w_nodes w) nodeId) → p_status p = Some s →
  statusOf (updateNodeData nodeId p w) nodeId = Some s.
Proof.
  intros [n Hn] Hp. unfold statusOf. simpl.
  rewrite (get_patchNode_eq _ _ _ _ Hn). simpl. by rewrite Hp.
Qed.

Lemma content_after_update nodeId p w c :
  is_Some (JsObject.get (w_nodes w) nodeId) → p_content p = Some c →
  contentOf (updateNodeData nodeId p w) nodeId = Some c.
Proof.
  intros [n Hn] Hp. unfold contentOf. simpl.
  rewrite (get_patchNode_eq _ _ _ _ Hn). simpl. by rewrite Hp.
Qed.

Lemma errorMessage_after_update nodeId p w m :
  is_Some (JsObject.get (w_nodes w) nodeId) → p_errorMessage p = Some m →
  errorMessageOf (updateNodeData nodeId p w) nodeId = Some m.
Proof.
  intros [n Hn] Hp. unfold errorMessageOf. simpl.
  rewrite (get_patchNode_eq _ _ _ _ Hn). simpl. by rewrite Hp.
Qed.

Lemma dispatch_keeps_node edges nodeId node inputValues nodeOutputs w :
  is_Some (JsObject.get (w_nodes w) nodeId) →
  is_Some (JsObject.get
             (w_nodes (dispatch env geminiService edges nodeId node inputValues
                                nodeOutputs w).2) nodeId).
Proof.
  intros H.
  by apply (framed_dispatch env geminiService edges nodeId node inputValues
              nodeOutputs w).
Qed.

Lemma runNode_next_status nodes edges nodeId nodeOutputs w nodeOutputs' w' :
  runNode env geminiService nodes edges nodeId nodeOutputs w
  = (Next nodeOutputs', w') →
  is_Some (JsObject.get (w_nodes w) nodeId) →
  statusOf w' nodeId = Some COMPLETED.
Proof.
  unfold runNode. destruct (JsObject.get nodes nodeId) as [node|]; [|done].
  destruct (isMuted (data node)).
  - intros [= _ <-] Hs. by apply status_after_update.
  - set (w1 := updateNodeData nodeId _ w). intros Hr Hs.
    assert (H1 : is_Some (JsObject.get (w_nodes w1) nodeId)).
    { by apply get_patchNode_is_Some. }
    pose proof (dispatch_keeps_node edges nodeId node
                  (gatherInputs edges nodeId nodeOutputs) nodeOutputs w1 H1) as H2.
    destruct (dispatch _ _ _ _ _ _ _ w1) as [[output|e|] w2]; [|done..].
    injection Hr as _ <-. by apply status_after_update.
Qed.

Lemma loopState_completed nodes edges prefix : ∀ nodeOutputs w nodeOutputs' w',
  loopState env geminiService nodes edges prefix nodeOutputs w
  = Some (nodeOutputs', w') →
  NoDup prefix →
  (∀ k, k ∈ prefix → is_Some (JsObject.get (w_nodes w) k)) →
  ∀ k, k ∈ prefix → statusOf w' k = Some COMPLETED.
Proof.
  induction prefix as [|nodeId rest IH]; intros outs w outs' w' Hloop Hnd Hs k Hk.
  - by apply elem_of_nil in Hk.
  - simpl in Hloop.
    pose proof (runNode_touches env geminiService nodes edges nodeId outs w)
      as (_ & Hkeep & _).
    destruct (runNode _ _ _ _ _ _ _) as [[outs1| | |] w1] eqn:Hrun; [|done..].
    simpl in Hkeep. apply NoDup_cons in Hnd as [Hfresh Hnd].
    destruct (decide (k ∈ rest)) as [Hin|Hout].
    + eapply IH; [exact Hloop|exact Hnd| |exact Hin].
      intros k' Hk'. apply Hkeep, Hs. by right.
    + apply elem_of_cons in Hk as [->|?]; [|done].
      apply loopState_touches in Hloop as (Hframe & _).
      unfold statusOf. rewrite (Hframe nodeId Hfresh).
      eapply runNode_next_status; [exact Hrun|]. apply Hs. by left.
Qed.

Lemma runNodes_finished nodes edges order : ∀ nodeOutputs w w',
  runNodes env geminiService nodes edges order nodeOutputs w = (Finished, w') →
  ∃ nodeOutputs' w2,
    loopState env geminiService nodes edges order nodeOutputs w
    = Some (nodeOutputs', w2) ∧
    w' = setIsProcessing false w2.
Proof.
  induction order as [|nodeId rest IH]; intros outs w w'; simpl.
  - intros [= <-]. by eexists _, _.
  - destruct (runNode _ _ _ _ _ _ _) as [[outs1| | |] w1]; [|done..].
    apply IH.
Qed.

Lemma get_Some_values {V} (o : JsObject.t V) k v :
  JsObject.get o k = Some v → v ∈ JsObject.values o.
Proof.
  induction o as [|[k' v'] o IH]; [done|]. simpl.
  destruct (String.eqb k' k); [intros [= ->]; by left|].
  intros H. right. by apply IH.
Qed.

Lemma runNode_quiet nodes edges nodeId node nodeOutputs w :
  JsObject.get nodes nodeId = Some node → quiet node = true →
  ∃ nodeOutputs' w',
    runNode env geminiService nodes edges nodeId nodeOutputs w
    = (Next nodeOutputs', w') ∧
    w_remote w' = w_remote w ∧ w_history w' = w_history w.
Proof.
  intros Hnode Hq. unfold runNode. rewrite Hnode.
  destruct (isMuted (data node)) eqn:Hm; [by eexists _, _|].
  unfold quiet in Hq. rewrite Hm in Hq. simpl in Hq.
  unfold dispatch.
  destruct (node_type node); try done; by eexists _, _.
Qed.

Lemma runNodes_quiet nodes edges order : ∀ nodeOutputs w,
  (∀ k, k ∈ order →
        ∃ node, JsObject.get nodes k = Some node ∧ quiet node = true) →
  ∃ w',
    runNodes env geminiService nodes edges order nodeOutputs w = (Finished, w') ∧
    w_remote w' = w_remote w ∧ w_history w' = w_history w.
Proof.
  induction order as [|nodeId rest IH]; intros outs w Hq; simpl.
  - by eexists.
  - destruct (Hq nodeId) as (node & Hnode & Hquiet); [by left|].
    destruct (runNode_quiet nodes edges nodeId node outs w Hnode Hquiet)
      as (outs1 & w1 & -> & Hr & Hh).
    destruct (IH outs1 w1) as (w' & -> & Hr' & Hh').
    { intros k Hk. apply Hq. by right. }
    exists w'. split; [done|]. by rewrite Hr', Hh'.
Qed.

End RunStatuses.

(** X8.  When a run goes through to the end, every node of the execution
    order is COMPLETED and every node left out of it (a node on a cycle
    or downstream of one) is IDLE with no error message, although the
    run reports no error; on an acyclic graph every node is COMPLETED. *)
Theorem finished_run_statuses (env : Env) (geminiService : Service)
    (edges : JsObject.t Edge) (w w' : Workflow.World) (order : list string) :
  JsObject.wf (Workflow.w_nodes w) →
  Scheduler.executionOrder (JsObject.keys (Workflow.w_nodes w))
                           (JsObject.values edges)
    = Scheduler.Order order →
  Workflow.runWorkflow env geminiService edges w = (Workflow.Finished, w') →
  (∀ k, k ∈ order → Workflow.statusOf w' k = Some COMPLETED) ∧
  (∀ k, k ∈ JsObject.keys (Workflow.w_nodes w) → k ∉ order →
        Workflow.statusOf w' k = Some IDLE ∧
        Workflow.errorMessageOf w' k = None) ∧
  (Graph.acyclic (JsObject.values edges) →
   ∀ k, k ∈ JsObject.keys (Workflow.w_nodes w) →
        Workflow.statusOf w' k = Some COMPLETED).
Proof.
  intros Hwf Horder Hrun.
  pose proof (executionOrder_Order_inv _ _ _ Hwf Horder) as Hkahn.
  unfold Workflow.runWorkflow in Hrun. rewrite Horder in Hrun.
  apply runNodes_finished in Hrun as (outs' & w2 & Hloop & ->).
  assert (Hstart : ∀ k, k ∈ JsObject.keys (Workflow.w_nodes w) →
            ∃ n, JsObject.get (Workflow.w_nodes (Workflow.startRun w)) k
                 = Some (Workflow.resetNode n)).
  { intros k Hk. apply key_get_Some in Hk as [n Hn]. exists n.
    simpl. unfold Workflow.resetNodes. by rewrite get_map_snd, Hn. }
  assert (Hcompleted :
    ∀ k, k ∈ order →
         Workflow.statusOf (Workflow.setIsProcessing false w2) k = Some COMPLETED).
  { intros k Hk.
    eapply (loopState_completed env geminiService) in Hloop; [exact Hloop| | |exact Hk].
    - apply Hkahn.
    - intros k' Hk'. destruct (Hstart k') as [n Hn]; [by apply Hkahn|].
      by rewrite Hn. }
  split; [exact Hcompleted|]. split.
  - intros k Hk Hout. destruct (Hstart k Hk) as [n Hn].
    apply loopState_touches in Hloop as (Hframe & _).
    unfold Workflow.statusOf, Workflow.errorMessageOf. simpl.
    by rewrite (Hframe k Hout), Hn.
  - intros Hacyclic k Hk. apply Hcompleted.
    assert (Hsrc : Graph.sourcesPresent (JsObject.keys (Workflow.w_nodes w))
                                        (JsObject.values edges)).
    { apply executionOrder_sources. by rewrite Horder. }
    pose proof (kahnOutput_complete _ _ _ Hwf Hsrc Hacyclic Hkahn) as Hperm.
    by rewrite Hperm.
Qed.

Lemma finished_run_statuses_witness :
  Workflow.statusOf
    (Workflow.runWorkflow (Examples.sampleEnv false) Examples.mockService
       Examples.chainEdges (Examples.world Examples.chainNodes)).2 "g"
  = Some COMPLETED.
Proof.
  assert (Hwf : JsObject.wf (Workflow.w_nodes (Examples.world Examples.chainNodes)))
    by decide_by_compute.
  assert (Horder :
    Scheduler.executionOrder
      (JsObject.keys (Workflow.w_nodes (Examples.world Examples.chainNodes)))
      (JsObject.values Examples.chainEdges)
    = Scheduler.Order ["t"; "g"; "o"]) by (vm_compute; reflexivity).
  assert (Hrun :
    Workflow.runWorkflow (Examples.sampleEnv false) Examples.mockService
      Examples.chainEdges (Examples.world Examples.chainNodes)
    = (Workflow.Finished,
       (Workflow.runWorkflow (Examples.sampleEnv false) Examples.mockService
          Examples.chainEdges (Examples.world Examples.chainNodes)).2))
    by (vm_compute; reflexivity).
  apply (proj1 (finished_run_statuses _ _ _ _ _ _ Hwf Horder Hrun)).
  right; left.
Defined.

(** X9.  A workflow made only of input nodes, display nodes and muted nodes
    always runs to the end, whatever the service is: it makes no service
    call and adds nothing to the history. *)
Theorem quiet_workflow_runs_offline (env : Env) (geminiService : Service)
    (edges : JsObject.t Edge) (w : Workflow.World) :
  JsObject.wf (Workflow.w_nodes w) →
  Graph.sourcesPresent (JsObject.keys (Workflow.w_nodes w))
                       (JsObject.values edges) →
  Forall (λ n, Observe.quiet n = true) (JsObject.values (Workflow.w_nodes w)) →
  ∃ w',
    Workflow.runWorkflow env geminiService edges w = (Workflow.Finished, w') ∧
    Workflow.w_remote w' = Workflow.w_remote w ∧
    Workflow.w_history w' = Workflow.w_history w.
Proof.
  intros Hwf Hsrc Hquiet.
  destruct (executionOrder_kahn _ _ Hwf Hsrc) as (order & Horder & Hkahn).
  unfold Workflow.runWorkflow. rewrite Horder.
  destruct (runNodes_quiet env geminiService (Workflow.w_nodes w)
              (JsObject.values edges) order ∅ (Workflow.startRun w))
    as (w' & Hrun & Hr & Hh).
  - intros k Hk. destruct Hkahn as (_ & Hin & _).
    apply Hin, key_get_Some in Hk as [n Hn]. exists n. split; [done|].
    eapply Forall_forall in Hquiet; [exact Hquiet|].
    by eapply get_Some_values.
  - exists w'. by rewrite Hrun, Hr, Hh.
Qed.

Lemma quiet_workflow_runs_offline_witness :
  ∃ w',
    Workflow.runWorkflow (Examples.sampleEnv true)
      (liveService (Examples.sampleEnv true) 0)
      Examples.chainEdges (Examples.world Examples.mutedNodes)
    = (Workflow.Finished, w') ∧
    Workflow.w_remote w' = Workflow.w_remote (Examples.world Examples.mutedNodes) ∧
    Workflow.w_history w' = Workflow.w_history (Examples.world Examples.mutedNodes).
Proof.
  apply (quiet_workflow_runs_offline (Examples.sampleEnv true)
           (liveService (Examples.sampleEnv true) 0)
           Examples.chainEdges (Examples.world Examples.mutedNodes)).
  - decide_by_compute.
  - intros e He. revert e He. apply Forall_forall. decide_by_compute.
  - decide_by_compute.
Defined.

(** ** Routing of a node's output to its output ports *)
Section Routing.
Import Workflow.

Lemma route_lookup (f : NodeOutput → Value) (ports : list NodeOutput) :
  ∀ m : gmap string Value,
  NoDup (map port_id ports) →
  (∀ o, o ∈ ports →
        fold_left (fun acc o => <[port_id o := f o]> acc) ports m !! port_id o
        = Some (f o)) ∧
  (∀ k, k ∉ map port_id ports →
        fold_left (fun acc o => <[port_id o := f o]> acc) ports m !! k = m !! k).
Proof.
  induction ports as [|p ports IH]; intros m Hnd; simpl.
  - split; [intros o Ho; by apply elem_of_nil in Ho|done].
  - apply NoDup_cons in Hnd as [Hfresh Hnd].
    destruct (IH (<[port_id p := f p]> m) Hnd) as [Hin Hout]. split.
    + intros o [->|Ho]%elem_of_cons; [|by apply Hin].
      rewrite (Hout _ Hfresh). apply lookup_insert_eq.
    + intros k Hk. apply not_elem_of_cons in Hk as [Hne Hk].
      rewrite (Hout _ Hk). by apply lookup_insert_ne.
Qed.

End Routing.

(** X10.  After a node has produced a value, each of its output ports reads a
    value of its own kind (App.tsx 690-696): for the [{image, text}]
    result of an image editor or preset node, a port of type image
    carries the image and any other port the text (or null); for every
    other node or result, each port carries the result itself.  The
    ports of other nodes are left as they were.  (Port identifiers of
    the node are distinct.) *)
Theorem routeOutputs_by_port_type (node : Node) (output : Value)
    (nodeOutputs : gmap string Value) :
  NoDup (map port_id (outputs (data node))) →
  let nodeOutputs' := Workflow.routeOutputs node output nodeOutputs in
  (∀ img txt o,
     node_type node = IMAGE_EDITOR ∨ node_type node = PROMPT_PRESET →
     output = VImageText img txt → o ∈ outputs (data node) →
     nodeOutputs' !! port_id o
     = Some (if bool_decide (port_type o = image) then VString img
             else ofNullable txt)) ∧
  (∀ o,
     (node_type node ≠ IMAGE_EDITOR ∧ node_type node ≠ PROMPT_PRESET) ∨
     (∀ img txt, output ≠ VImageText img txt) →
     o ∈ outputs (data node) →
     nodeOutputs' !! port_id o = Some output) ∧
  (∀ k, k ∉ map port_id (outputs (data node)) →
        nodeOutputs' !! k = nodeOutputs !! k).
Proof.
  intros Hnd nodeOutputs'. unfold nodeOutputs', Workflow.routeOutputs.
  match goal with
  | |- context [fold_left ?g _ _] =>
      pose proof (route_lookup (λ o,
        match node_type node, output with
        | IMAGE_EDITOR, VImageText img txt
        | PROMPT_PRESET, VImageText img txt =>
            if bool_decide (port_type o = image) then VString img
            else ofNullable txt
        | _, _ => output
        end) (outputs (data node)) nodeOutputs Hnd) as [Hin Hout]
  end.
  split; [|split].
  - intros img txt o Hty -> Ho. rewrite (Hin o Ho).
    by destruct Hty as [-> | ->].
  - intros o Hcase Ho. rewrite (Hin o Ho). f_equal.
    destruct Hcase as [[H1 H2]|H].
    + by destruct (node_type node), output.
    + destruct output; try by destruct (node_type node).
      by destruct (H image0 text0).
  - exact Hout.
Qed.

Lemma routeOutputs_by_port_type_witness :
  Workflow.routeOutputs (Examples.imageEditor "d")
    (VImageText "data:image/png;base64,IMGY" (Some "done")) ∅
    !! port_id (mkPort "d-output-text" "Text" text)
  = Some (if bool_decide (port_type (mkPort "d-output-text" "Text" text) = image)
          then VString "data:image/png;base64,IMGY"
          else ofNullable (Some "done")).
Proof.
  assert (Hnd : NoDup (map port_id (outputs (data (Examples.imageEditor "d")))))
    by decide_by_compute.
  apply (proj1 (routeOutputs_by_port_type (Examples.imageEditor "d")
                  (VImageText "data:image/png;base64,IMGY" (Some "done")) ∅ Hnd)
               "data:image/png;base64,IMGY" (Some "done")
               (mkPort "d-output-text" "Text" text)
               (or_introl eq_refl) eq_refl).
  right; left.
Defined.

(** ** Failures of the image model, and prompts that are missing *)
Section NodeFailures.
Import Workflow.
Variable env : Env.

Lemma formatError_text error context :
  ∃ m, GeminiService.formatError env error context = "Error: " +:+ m.
Proof. unfold GeminiService.formatError. by eexists. Qed.

Lemma error_text_not_image m fallback :
  JsString.nonEmpty ("Error: " +:+ m) = true ∧
  JsString.startsWith ("Error: " +:+ m) "data:image" = false ∧
  JsString.orElse (Some ("Error: " +:+ m)) fallback = "Error: " +:+ m.
Proof. done. Qed.

Lemma runNode_throw geminiService nodes edges nodeId node nodeOutputs w e w2 :
  JsObject.get nodes nodeId = Some node →
  isMuted (data node) = false →
  is_Some (JsObject.get (w_nodes w) nodeId) →
  dispatch env geminiService edges nodeId node
    (gatherInputs edges nodeId nodeOutputs) nodeOutputs
    (updateNodeData nodeId (resultPatch PROCESSING (VProgress "Starting...")) w)
  = (Throw e, w2) →
  let step := runNode env geminiService nodes edges nodeId nodeOutputs w in
  step.1 = Halt ∧
  step.2 = setIsProcessing false
             (updateNodeData nodeId (errorPatch (thrownText e)) w2) ∧
  statusOf step.2 nodeId = Some ERROR ∧
  errorMessageOf step.2 nodeId = Some (thrownText e).
Proof.
  intros Hnode Hm Hs Hd step. unfold step, runNode. rewrite Hnode, Hm.
  set (w1 := updateNodeData nodeId _ w) in *.
  assert (H1 : is_Some (JsObject.get (w_nodes w1) nodeId)).
  { by apply get_patchNode_is_Some. }
  pose proof (dispatch_keeps_node env geminiService edges nodeId node
                (gatherInputs edges nodeId nodeOutputs) nodeOutputs w1 H1) as H2.
  rewrite Hd in *. simpl in H2. split; [done|]. split; [done|]. simpl.
  split.
  - by apply (status_after_update nodeId (errorPatch (thrownText e)) w2 ERROR).
  - by apply (errorMessage_after_update nodeId (errorPatch (thrownText e)) w2).
Qed.

Lemma runNode_return geminiService nodes edges nodeId node nodeOutputs w
    output w2 :
  JsObject.get nodes nodeId = Some node →
  isMuted (data node) = false →
  is_Some (JsObject.get (w_nodes w) nodeId) →
  dispatch env geminiService edges nodeId node
    (gatherInputs edges nodeId nodeOutputs) nodeOutputs
    (updateNodeData nodeId (resultPatch PROCESSING (VProgress "Starting...")) w)
  = (Return output, w2) →
  let step := runNode env geminiService nodes edges nodeId nodeOutputs w in
  step.1 = Next (routeOutputs node output nodeOutputs) ∧
  step.2 = updateNodeData nodeId (resultPatch COMPLETED output) w2 ∧
  statusOf step.2 nodeId = Some COMPLETED ∧
  contentOf step.2 nodeId = Some output.
Proof.
  intros Hnode Hm Hs Hd step. unfold step, runNode. rewrite Hnode, Hm.
  set (w1 := updateNodeData nodeId _ w) in *.
  assert (H1 : is_Some (JsObject.get (w_nodes w1) nodeId)).
  { by apply get_patchNode_is_Some. }
  pose proof (dispatch_keeps_node env geminiService edges nodeId node
                (gatherInputs edges nodeId nodeOutputs) nodeOutputs w1 H1) as H2.
  rewrite Hd in *. simpl in H2. split; [done|]. split; [done|]. simpl.
  split.
  - by apply (status_after_update nodeId (resultPatch COMPLETED output) w2).
  - by apply (content_after_update nodeId (resultPatch COMPLETED output) w2).
Qed.

Lemma generateImage_error prompt s e s' :
  truthy prompt = true →
  GeminiService.generateImagesWithRetry env ("imagen-4.0-generate-001", prompt) s
  = (Throw e, s') →
  GeminiService.generateImage env prompt s = (Return (GeminiService.formatError env e "generateImage"), s').
Proof.
  intros Hp Hcall. unfold GeminiService.generateImage. rewrite Hp. cbn [negb].
  unfold tryCatch, bind. by rewrite Hcall.
Qed.

Lemma editImage_error b mimeType prompt s e s' :
  JsString.nonEmpty b = true → truthy prompt = true →
  GeminiService.generateContentWithRetry env
    ("gemini-2.5-flash-image-preview",
     Parts [ReqInline (Some b) mimeType; ReqText prompt]) s
  = (Throw e, s') →
  GeminiService.editImage env (Some b) mimeType prompt s
  = (Return (mkEditResult None (Some (GeminiService.formatError env e "editImage"))), s').
Proof.
  intros Hb Hp Hcall. unfold GeminiService.editImage.
  change (default "" (Some b)) with b. rewrite Hb, Hp.
  cbn [negb orb]. unfold GeminiService.imageCall, tryCatch, bind. by rewrite Hcall.
Qed.

Lemma dispatch_generation_rejected geminiService edges nodeId node
    inputValues nodeOutputs w result s' :
  node_type node = IMAGE_EDITOR →
  truthy (prop inputValues (nodeId +:+ "-input-text")) = true →
  processImageInput (prop inputValues (nodeId +:+ "-input-image")) = None →
  generateImage geminiService
    (prop inputValues (nodeId +:+ "-input-text")) (w_remote w)
  = (Return result, s') →
  JsString.nonEmpty result && JsString.startsWith result "data:image" = false →
  dispatch env geminiService edges nodeId node inputValues nodeOutputs w
  = (Throw (ErrorObj (JsString.orElse (Some result) "Image generation failed.")),
     setRemote s' w).
Proof.
  intros Hty Htext Himg Hcall Htest. unfold dispatch. rewrite Hty. cbv zeta.
  rewrite Htext, Himg. cbn [negb].
  unfold bind, service, zoom. rewrite Hcall. cbn [fst snd].
  by rewrite Htest.
Qed.

Lemma dispatch_edit_rejected geminiService edges nodeId node
    inputValues nodeOutputs w imageFile result s' :
  node_type node = IMAGE_EDITOR →
  truthy (prop inputValues (nodeId +:+ "-input-text")) = true →
  processImageInput (prop inputValues (nodeId +:+ "-input-image"))
  = Some imageFile →
  editImage geminiService (file_data imageFile) (file_mimeType imageFile)
    (prop inputValues (nodeId +:+ "-input-text")) (w_remote w)
  = (Return result, s') →
  newBase64Image result = None →
  dispatch env geminiService edges nodeId node inputValues nodeOutputs w
  = (Throw (ErrorObj (JsString.orElse (result_text result)
                        "Image editing failed to produce an image.")),
     setRemote s' w).
Proof.
  intros Hty Htext Himg Hcall Hnone. unfold dispatch. rewrite Hty. cbv zeta.
  rewrite Htext, Himg. cbn [negb].
  unfold bind, service, zoom. rewrite Hcall. cbn [fst snd].
  by rewrite Hnone.
Qed.

End NodeFailures.

(** X11.  With the service as implemented, a failure of the remote image call
    does stop the run at an image editor node: the text that
    [generateImage] or [editImage] returns for the error (the formatted
    message, "Error: ...") is not an image, so the node throws it
    (App.tsx 611, 627); the node ends in status ERROR with that text as
    its error message and nothing is added to the history. *)
Theorem image_service_error_halts (env : Env) (pollFuel : nat)
    (nodes : JsObject.t Node) (edges : list Edge) (nodeId : string)
    (node : Node) (nodeOutputs : gmap string Value) (w : Workflow.World) :
  JsObject.get nodes nodeId = Some node →
  node_type node = IMAGE_EDITOR →
  isMuted (data node) = false →
  is_Some (JsObject.get (Workflow.w_nodes w) nodeId) →
  let inputValues := Workflow.gatherInputs edges nodeId nodeOutputs in
  let imageInput := prop inputValues (nodeId +:+ "-input-image") in
  let textInput := prop inputValues (nodeId +:+ "-input-text") in
  let step :=
    Workflow.runNode env (liveService env pollFuel) nodes edges nodeId
                     nodeOutputs w in
  truthy textInput = true →
  (∀ e s',
     Workflow.processImageInput imageInput = None →
     GeminiService.generateImagesWithRetry env
       ("imagen-4.0-generate-001", textInput) (Workflow.w_remote w)
     = (Throw e, s') →
     step.1 = Workflow.Halt ∧
     Workflow.statusOf step.2 nodeId = Some ERROR ∧
     Workflow.errorMessageOf step.2 nodeId
     = Some (GeminiService.formatError env e "generateImage") ∧
     Workflow.w_history step.2 = Workflow.w_history w ∧
     Workflow.w_remote step.2 = s') ∧
  (∀ imageFile b e s',
     Workflow.processImageInput imageInput = Some imageFile →
     file_data imageFile = Some b → JsString.nonEmpty b = true →
     GeminiService.generateContentWithRetry env
       ("gemini-2.5-flash-image-preview",
        Parts [ReqInline (Some b) (file_mimeType imageFile); ReqText textInput])
       (Workflow.w_remote w)
     = (Throw e, s') →
     step.1 = Workflow.Halt ∧
     Workflow.statusOf step.2 nodeId = Some ERROR ∧
     Workflow.errorMessageOf step.2 nodeId
     = Some (GeminiService.formatError env e "editImage") ∧
     Workflow.w_history step.2 = Workflow.w_history w ∧
     Workflow.w_remote step.2 = s').
Proof.
  intros Hnode Hty Hm Hs inputValues imageInput textInput step Htext.
  split.
  - intros e s' Himg Hcall.
    destruct (formatError_text env e "generateImage") as [m Hfmt].
    destruct (error_text_not_image m "Image generation failed.")
      as (Hne & Hni & Hor).
    destruct (runNode_throw env (liveService env pollFuel) nodes edges nodeId
                node nodeOutputs w
                (ErrorObj (GeminiService.formatError env e "generateImage"))
                (Workflow.setRemote s'
                   (Workflow.updateNodeData nodeId
                      (Workflow.resultPatch PROCESSING (VProgress "Starting..."))
                      w)))
      as (H1 & H2 & H3 & H4); [done..| |].
    + rewrite (dispatch_generation_rejected env (liveService env pollFuel) edges
                 nodeId node inputValues nodeOutputs _
                 (GeminiService.formatError env e "generateImage") s'
                 Hty Htext Himg).
      * by rewrite Hfmt, Hor.
      * apply generateImage_error; [exact Htext|exact Hcall].
      * by rewrite Hfmt.
    + fold step in H1, H2, H3, H4. split; [done|]. split; [done|].
      split; [done|]. by rewrite H2.
  - intros imageFile b e s' Himg Hdata Hb Hcall.
    destruct (formatError_text env e "editImage") as [m Hfmt].
    destruct (error_text_not_image m "Image editing failed to produce an image.")
      as (Hne & Hni & Hor).
    destruct (runNode_throw env (liveService env pollFuel) nodes edges nodeId
                node nodeOutputs w
                (ErrorObj (GeminiService.formatError env e "editImage"))
                (Workflow.setRemote s'
                   (Workflow.updateNodeData nodeId
                      (Workflow.resultPatch PROCESSING (VProgress "Starting..."))
                      w)))
      as (H1 & H2 & H3 & H4); [done..| |].
    + rewrite (dispatch_edit_rejected env (liveService env pollFuel) edges
                 nodeId node inputValues nodeOutputs _ imageFile
                 (mkEditResult None
                    (Some (GeminiService.formatError env e "editImage"))) s'
                 Hty Htext Himg).
      * cbn [result_text]. by rewrite Hfmt, Hor.
      * cbn [editImage liveService]. rewrite Hdata.
        apply editImage_error; [exact Hb|exact Htext|exact Hcall].
      * done.
    + fold step in H1, H2, H3, H4. split; [done|]. split; [done|].
      split; [done|]. by rewrite H2.
Qed.

Lemma image_service_error_halts_witness :
  (Workflow.runNode (Examples.sampleEnv true)
     (liveService (Examples.sampleEnv true) 0)
     Scenarios.generateNodes (JsObject.values Scenarios.generateEdges) "d"
     Scenarios.generateOutputs (Examples.world Scenarios.generateNodes)).1
  = Workflow.Halt ∧
  Workflow.errorMessageOf
    (Workflow.runNode (Examples.sampleEnv true)
       (liveService (Examples.sampleEnv true) 0)
       Scenarios.generateNodes (JsObject.values Scenarios.generateEdges) "d"
       Scenarios.generateOutputs (Examples.world Scenarios.generateNodes)).2 "d"
  = Some "Error: boom".
Proof.
  assert (Hcall :
    GeminiService.generateImagesWithRetry (Examples.sampleEnv true)
      ("imagen-4.0-generate-001", VString "a red kite")
      (Workflow.w_remote (Examples.world Scenarios.generateNodes))
    = (Throw (ErrorObj "boom"),
       mkRemote [ReqGenerateImages "imagen-4.0-generate-001"
                                   (VString "a red kite")] [] 0))
    by (vm_compute; reflexivity).
  assert (Hstore :
    is_Some (JsObject.get
               (Workflow.w_nodes (Examples.world Scenarios.generateNodes)) "d"))
    by (vm_compute; eauto).
  pose proof (proj1
    (image_service_error_halts (Examples.sampleEnv true) 0
       Scenarios.generateNodes (JsObject.values Scenarios.generateEdges) "d"
       (Examples.imageEditor "d") Scenarios.generateOutputs
       (Examples.world Scenarios.generateNodes)
       eq_refl eq_refl eq_refl Hstore eq_refl)
    (ErrorObj "boom") _ eq_refl Hcall) as (H1 & _ & H3 & _).
  split; [exact H1|exact H3].
Defined.

(** X12.  A text or video generator whose prompt port receives nothing (no
    edge ends in it) or an empty text does not fail: the service answers
    "Error: Prompt is empty." without any remote call, and the node ends
    COMPLETED with that text as its content and output. *)
Theorem empty_prompt_completes (env : Env) (pollFuel : nat)
    (nodes : JsObject.t Node) (edges : list Edge) (nodeId : string)
    (node : Node) (nodeOutputs : gmap string Value) (w : Workflow.World)
    (port : string) :
  JsObject.get nodes nodeId = Some node →
  isMuted (data node) = false →
  is_Some (JsObject.get (Workflow.w_nodes w) nodeId) →
  (node_type node = TEXT_GENERATOR ∧ port = nodeId +:+ "-input") ∨
  (node_type node = VIDEO_GENERATOR ∧ port = nodeId +:+ "-input-text") →
  Observe.incoming edges nodeId port = [] ∨
  truthy (prop (Workflow.gatherInputs edges nodeId nodeOutputs) port) = false →
  let step :=
    Workflow.runNode env (liveService env pollFuel) nodes edges nodeId
                     nodeOutputs w in
  let output := VString "Error: Prompt is empty." in
  step.1 = Workflow.Next (Workflow.routeOutputs node output nodeOutputs) ∧
  Workflow.statusOf step.2 nodeId = Some COMPLETED ∧
  Workflow.contentOf step.2 nodeId = Some output ∧
  Workflow.w_remote step.2 = Workflow.w_remote w ∧
  Workflow.w_history step.2 = Workflow.w_history w.
Proof.
  intros Hnode Hm Hs Hkind Hin step output.
  assert (Hfalsy :
    truthy (prop (Workflow.gatherInputs edges nodeId nodeOutputs) port) = false).
  { destruct Hin as [Hin|]; [|done].
    rewrite gatherInputs_prop. unfold Observe.incoming in Hin. by rewrite Hin. }
  destruct (runNode_return env (liveService env pollFuel) nodes edges nodeId
              node nodeOutputs w output
              (Workflow.updateNodeData nodeId
                 (Workflow.resultPatch PROCESSING (VProgress "Starting...")) w))
    as (H1 & H2 & H3 & H4); [done..| |].
  - unfold Workflow.dispatch.
    destruct Hkind as [[-> ->]|[-> ->]].
    + unfold bind, Workflow.service, zoom. cbn [generateText liveService].
      unfold GeminiService.generateText. rewrite Hfalsy. simpl.
      by destruct w.
    + unfold bind, Workflow.videoService. cbn [generateVideo liveService].
      unfold GeminiService.generateVideo. rewrite Hfalsy. simpl.
      by destruct w.
  - fold step in H1, H2, H3, H4. split; [done|]. split; [done|].
    split; [done|]. by rewrite H2.
Qed.

Lemma empty_prompt_completes_witness :
  Workflow.contentOf
    (Workflow.runNode (Examples.sampleEnv true)
       (liveService (Examples.sampleEnv true) 0)
       Examples.chainNodes [] "g" ∅ (Examples.world Examples.chainNodes)).2 "g"
  = Some (VString "Error: Prompt is empty.").
Proof.
  assert (Hstore :
    is_Some (JsObject.get
               (Workflow.w_nodes (Examples.world Examples.chainNodes)) "g"))
    by (vm_compute; eauto).
  pose proof (empty_prompt_completes (Examples.sampleEnv true) 0
                Examples.chainNodes [] "g" (Examples.textGenerator "g" false) ∅
                (Examples.world Examples.chainNodes) "g-input"
                eq_refl eq_refl Hstore (or_introl (conj eq_refl eq_refl))
                (or_introl eq_refl)) as (_ & _ & H3 & _).
  exact H3.
Defined.

(** ** Editing the graph *)

(** ** Deleting a key *)
Section DeleteFacts.
Import Editor.
Context {V : Type}.

Lemma get_delete (o : JsObject.t V) k k' :
  JsObject.get (delete o k) k'
  = if decide (k = k') then None else JsObject.get o k'.
Proof.
  unfold delete. induction o as [|[k0 v] o IH].
  - simpl. by destruct (decide _).
  - rewrite filter_cons.
    destruct (decide ((k0, v).1 ≠ k)) as [Hne|Heq]; simpl in *.
    + destruct (String.eqb k0 k') eqn:Hk; [|exact IH].
      apply String.eqb_eq in Hk as ->. by rewrite decide_False by done.
    + apply dec_stable in Heq as ->. rewrite IH.
      destruct (decide (k = k')) as [->|Hne]; [done|].
      destruct (String.eqb k k') eqn:Hk; [|done].
      by apply String.eqb_eq in Hk.
Qed.

Lemma keys_delete (o : JsObject.t V) k :
  JsObject.keys (delete o k) = filter (λ k', k' ≠ k) (JsObject.keys o).
Proof.
  unfold delete, JsObject.keys. induction o as [|[k0 v] o IH]; [done|].
  rewrite fmap_cons, !filter_cons. simpl.
  destruct (decide (k0 ≠ k)) as [H|H]; simpl; by rewrite IH.
Qed.

Lemma delete_fresh (o : JsObject.t V) k :
  k ∉ JsObject.keys o → delete o k = o.
Proof.
  unfold delete, JsObject.keys. induction o as [|[k0 v] o IH]; [done|].
  rewrite fmap_cons. intros [Hne Hk]%not_elem_of_cons. rewrite filter_cons.
  rewrite decide_True by (simpl in *; intros ?; by subst). by rewrite IH.
Qed.

Lemma delete_set_fresh (o : JsObject.t V) k v :
  k ∉ JsObject.keys o → delete (JsObject.set o k v) k = o.
Proof.
  unfold delete, JsObject.keys. induction o as [|[k0 v0] o IH].
  - intros _. cbn [JsObject.set]. rewrite filter_cons.
    by rewrite decide_False by (simpl; auto).
  - rewrite fmap_cons. intros [Hne Hk]%not_elem_of_cons.
    cbn [JsObject.set]. destruct (String.eqb k0 k) eqn:Hk0.
    { apply String.eqb_eq in Hk0. simpl in Hne. by subst. }
    rewrite filter_cons. rewrite decide_True by (simpl in *; intros ?; by subst).
    by rewrite IH.
Qed.

Lemma wf_delete (o : JsObject.t V) k : JsObject.wf o → JsObject.wf (delete o k).
Proof.
  unfold JsObject.wf. rewrite keys_delete. apply NoDup_filter.
Qed.

Lemma keyed_delete (id : V → string) (o : JsObject.t V) k :
  keyed id o → keyed id (delete o k).
Proof.
  unfold keyed, delete. intros H. apply Forall_forall.
  intros x [_ Hx]%list_elem_of_filter. by eapply Forall_forall in H.
Qed.

Lemma values_delete_keyed (id : V → string) (o : JsObject.t V) k :
  keyed id o →
  JsObject.values (delete o k) = filter (λ v, id v ≠ k) (JsObject.values o).
Proof.
  unfold keyed, delete, JsObject.values.
  induction o as [|[k0 v] o IH]; [done|].
  intros [Hk Ho]%Forall_cons. simpl in Hk. subst k0.
  rewrite fmap_cons, !filter_cons. simpl.
  destruct (decide (id v ≠ k)) as [H|H]; simpl; by rewrite IH.
Qed.

Lemma keyed_set (id : V → string) (o : JsObject.t V) k v :
  keyed id o → k = id v → keyed id (JsObject.set o k v).
Proof.
  unfold keyed. intros Ho ->. induction o as [|[k0 v0] o IH]; simpl.
  - by repeat constructor.
  - apply Forall_cons in Ho as [H0 Ho].
    destruct (String.eqb k0 (id v)); constructor; auto.
Qed.

Lemma wf_set (o : JsObject.t V) k v :
  JsObject.wf o → JsObject.wf (JsObject.set o k v).
Proof.
  unfold JsObject.wf, JsObject.keys. induction o as [|[k0 v0] o IH]; simpl.
  - intros _. apply NoDup_singleton.
  - intros [Hfresh Hnd]%NoDup_cons.
    destruct (String.eqb k0 k) eqn:Hk; simpl.
    + apply String.eqb_eq in Hk as ->. by apply NoDup_cons.
    + apply NoDup_cons. split; [|by apply IH].
      intros Hin. apply Hfresh. clear -Hin Hk.
      induction o as [|[k1 v1] o IH]; simpl in *.
      * apply list_elem_of_singleton in Hin. subst.
        by rewrite String.eqb_refl in Hk.
      * destruct (String.eqb k1 k) eqn:Hk1; simpl in *.
        { apply String.eqb_eq in Hk1 as ->.
          apply elem_of_cons in Hin as [->|?]; [by left|by right]. }
        apply elem_of_cons in Hin as [->|?]; [by left|right; auto].
Qed.

End DeleteFacts.

(** ** Creating and unplugging edges *)
Section ConnectMore.
Import Connect Observe.

Lemma isAlreadyConnected_incoming edges nodeId handleId :
  isAlreadyConnected edges nodeId handleId = false ↔
  incoming (JsObject.values edges) nodeId handleId = [].
Proof.
  unfold isAlreadyConnected, incoming.
  induction (JsObject.values edges) as [|e es IH]; [done|].
  simpl. rewrite filter_cons.
  destruct (decide (targetNodeId e = nodeId ∧ targetHandleId e = handleId))
    as [[-> ->]|Hn].
  - rewrite !String.eqb_refl. simpl. split; done.
  - destruct (String.eqb (targetNodeId e) nodeId) eqn:H1;
      destruct (String.eqb (targetHandleId e) handleId) eqn:H2; simpl;
      try exact IH.
    apply String.eqb_eq in H1, H2. tauto.
Qed.

Lemma find_incoming (es : list Edge) nodeId handleId :
  List.find (fun edge => String.eqb (targetNodeId edge) nodeId &&
                         String.eqb (targetHandleId edge) handleId) es
  = head (incoming es nodeId handleId).
Proof.
  unfold incoming. induction es as [|e es IH]; [done|].
  simpl. rewrite filter_cons.
  destruct (decide (targetNodeId e = nodeId ∧ targetHandleId e = handleId))
    as [[-> ->]|Hn].
  - by rewrite !String.eqb_refl.
  - destruct (String.eqb (targetNodeId e) nodeId) eqn:H1;
      destruct (String.eqb (targetHandleId e) handleId) eqn:H2; simpl;
      try exact IH.
    apply String.eqb_eq in H1, H2. tauto.
Qed.

(** What [connect] can do to the edge map. *)
Lemma connect_cases nodes edges sourceNodeId sourceHandleId drop newId :
  connect nodes edges sourceNodeId sourceHandleId drop newId = edges ∨
  ∃ targetNodeId targetHandleId,
    connect nodes edges sourceNodeId sourceHandleId drop newId
    = JsObject.set edges newId
        (mkEdge newId sourceNodeId sourceHandleId targetNodeId targetHandleId) ∧
    sourceNodeId ≠ targetNodeId ∧
    targetNodeId ≠ "" ∧ targetHandleId ≠ "" ∧
    (isAlreadyConnected edges targetNodeId targetHandleId = false ∨
     isMultiImageHandle (JsObject.get nodes targetNodeId) targetHandleId = true).
Proof.
  unfold connect.
  destruct (resolveTarget _ _ _ _ _) as [[t|] [h|]]; try by left.
  destruct (JsString.nonEmpty t) eqn:Ht; [|by left].
  destruct (JsString.nonEmpty h) eqn:Hh; [|by left].
  destruct (String.eqb sourceNodeId t) eqn:Hst; [by left|]. simpl.
  destruct (negb (isAlreadyConnected edges t h) || _) eqn:Hc; [|by left].
  right. exists t, h. split; [done|].
  split; [by apply String.eqb_neq|].
  split; [by intros ->|]. split; [by intros ->|].
  apply orb_true_iff in Hc as [Hc|Hc]; [left|by right].
  by apply negb_true_iff.
Qed.

End ConnectMore.

(** X13.  Releasing a connection ([handleMouseUp], App.tsx 416-477) adds at
    most one edge and never changes an existing one: with a fresh
    identifier the new edge comes last; it never links a node to itself;
    its target port was free, unless it is an aggregating port; and an
    edge map that held each edge under its own identifier, once, still
    does. *)
Theorem connect_adds_one_edge (nodes : JsObject.t Node) (edges : JsObject.t Edge)
    (sourceNodeId sourceHandleId : string) (drop : Connect.DropTarget)
    (newId : string) :
  newId ∉ JsObject.keys edges →
  let edges' :=
    Connect.connect nodes edges sourceNodeId sourceHandleId drop newId in
  (edges' = edges ∨
   ∃ targetNodeId targetHandleId,
     JsObject.values edges'
     = JsObject.values edges ++
       [mkEdge newId sourceNodeId sourceHandleId targetNodeId targetHandleId] ∧
     JsObject.keys edges' = JsObject.keys edges ++ [newId] ∧
     sourceNodeId ≠ targetNodeId ∧
     (Observe.incoming (JsObject.values edges) targetNodeId targetHandleId = [] ∨
      Connect.isMultiImageHandle (JsObject.get nodes targetNodeId)
                                 targetHandleId = true)) ∧
  (JsObject.wf edges → JsObject.wf edges') ∧
  (Editor.keyed edge_id edges → Editor.keyed edge_id edges').
Proof.
  intros Hfresh edges'. unfold edges'.
  destruct (connect_cases nodes edges sourceNodeId sourceHandleId drop newId)
    as [->|(t & h & -> & Hne & _ & _ & Hfree)].
  - split; [by left|done].
  - split; [|split].
    + right. exists t, h.
      destruct (values_set_fresh edges newId
                  (mkEdge newId sourceNodeId sourceHandleId t h) Hfresh)
        as [Hv Hk].
      split; [done|]. split; [done|]. split; [done|].
      destruct Hfree as [Hfree|Hmulti]; [left|by right].
      by apply isAlreadyConnected_incoming.
    + apply wf_set.
    + intros Hk. by apply keyed_set.
Qed.

Lemma connect_adds_one_edge_witness :
  Connect.connect Examples.chainNodes [] "t" "t-output"
    (Connect.OnBody (Some "g")) "e1" = [] ∨
  ∃ targetNodeId targetHandleId,
    JsObject.values
      (Connect.connect Examples.chainNodes [] "t" "t-output"
         (Connect.OnBody (Some "g")) "e1")
    = JsObject.values [] ++
      [mkEdge "e1" "t" "t-output" targetNodeId targetHandleId] ∧
    JsObject.keys
      (Connect.connect Examples.chainNodes [] "t" "t-output"
         (Connect.OnBody (Some "g")) "e1")
    = JsObject.keys ([] : JsObject.t Edge) ++ ["e1"] ∧
    "t" ≠ targetNodeId ∧
    (Observe.incoming (JsObject.values []) targetNodeId targetHandleId = [] ∨
     Connect.isMultiImageHandle (JsObject.get Examples.chainNodes targetNodeId)
                                targetHandleId = true).
Proof.
  assert (Hfresh : "e1" ∉ JsObject.keys ([] : JsObject.t Edge))
    by apply not_elem_of_nil.
  exact (proj1 (connect_adds_one_edge Examples.chainNodes [] "t" "t-output"
                  (Connect.OnBody (Some "g")) "e1" Hfresh)).
Defined.

(** X14.  Connections stay one-to-one: if every input port other than an
    aggregating one has at most one incoming edge, this still holds
    after any release of a connection. *)
Theorem connect_keeps_single_connection (nodes : JsObject.t Node)
    (edges : JsObject.t Edge) (sourceNodeId sourceHandleId : string)
    (drop : Connect.DropTarget) (newId : string) :
  newId ∉ JsObject.keys edges →
  Observe.singleConnection nodes (JsObject.values edges) →
  Observe.singleConnection nodes
    (JsObject.values
       (Connect.connect nodes edges sourceNodeId sourceHandleId drop newId)).
Proof.
  intros Hfresh Hsingle.
  destruct (connect_cases nodes edges sourceNodeId sourceHandleId drop newId)
    as [->|(t & h & -> & _ & _ & _ & Hfree)]; [done|].
  destruct (values_set_fresh edges newId
              (mkEdge newId sourceNodeId sourceHandleId t h) Hfresh) as [-> _].
  intros nodeId handleId Hnot. unfold Observe.incoming.
  rewrite filter_app, length_app, filter_cons, filter_nil. simpl.
  destruct (decide (t = nodeId ∧ h = handleId)) as [[-> ->]|Hother]; simpl.
  - destruct Hfree as [Hfree|Hmulti]; [|congruence].
    apply isAlreadyConnected_incoming in Hfree. unfold Observe.incoming in Hfree.
    by rewrite Hfree.
  - specialize (Hsingle nodeId handleId Hnot). unfold Observe.incoming in Hsingle.
    lia.
Qed.

Lemma connect_keeps_single_connection_witness :
  Observe.singleConnection Examples.chainNodes
    (JsObject.values
       (Connect.connect Examples.chainNodes [] "t" "t-output"
          (Connect.OnBody (Some "g")) "e1")).
Proof.
  apply (connect_keeps_single_connection Examples.chainNodes [] "t" "t-output"
           (Connect.OnBody (Some "g")) "e1").
  - apply not_elem_of_nil.
  - intros nodeId handleId _. simpl. lia.
Defined.

(** X15.  Pressing the mouse on a connected input port takes off the edge that
    ends there and hands its source to the connection being dragged
    ([handleMouseDownHandle], App.tsx 266-294).  So unplugging undoes
    connecting: after a release that created an edge into a port that is
    not the aggregating port of a preset node, pressing on that port
    gives back the edge map as it was before, with the dragged
    connection starting at the same output. *)
Theorem unplug_undoes_connect (nodes : JsObject.t Node) (edges : JsObject.t Edge)
    (sourceNodeId sourceHandleId targetNodeId targetHandleId newId : string)
    (drop : Connect.DropTarget) (connectingEdge : option (string * string)) :
  newId ∉ JsObject.keys edges →
  Connect.connect nodes edges sourceNodeId sourceHandleId drop newId
  = JsObject.set edges newId
      (mkEdge newId sourceNodeId sourceHandleId targetNodeId targetHandleId) →
  Connect.isMultiImageHandle (JsObject.get nodes targetNodeId) targetHandleId
  = false →
  Editor.handleMouseDownHandle nodes
    (Connect.connect nodes edges sourceNodeId sourceHandleId drop newId)
    connectingEdge targetNodeId targetHandleId Editor.InputHandle
  = (edges, Some (sourceNodeId, sourceHandleId)).
Proof.
  intros Hfresh Hconn Hnot.
  destruct (connect_cases nodes edges sourceNodeId sourceHandleId drop newId)
    as [Hsame|(t & h & Hset & _ & _ & _ & Hfree)].
  { exfalso. rewrite Hsame in Hconn.
    assert (Hk : newId ∈ JsObject.keys edges).
    { rewrite Hconn at 1.
      eapply get_Some_key, get_set_eq. }
    done. }
  rewrite Hset in Hconn.
  assert (Hedge : mkEdge newId sourceNodeId sourceHandleId t h
                  = mkEdge newId sourceNodeId sourceHandleId targetNodeId
                           targetHandleId).
  { pose proof (get_set_eq edges newId
                  (mkEdge newId sourceNodeId sourceHandleId t h)) as H1.
    rewrite Hconn, get_set_eq in H1. congruence. }
  injection Hedge as -> ->. rewrite Hset.
  destruct Hfree as [Hfree|Hmulti]; [|congruence].
  apply isAlreadyConnected_incoming in Hfree.
  unfold Editor.handleMouseDownHandle.
  assert (Hexact : Editor.isMultiImageHandle (JsObject.get nodes targetNodeId)
                     targetNodeId targetHandleId = false).
  { unfold Editor.isMultiImageHandle, Connect.isMultiImageHandle in *.
    destruct (JsObject.get nodes targetNodeId) as [n|]; [|done].
    destruct (bool_decide (node_type n = PROMPT_PRESET)); [|done]. simpl in *.
    destruct (String.eqb targetHandleId _) eqn:Heq; [|done].
    apply String.eqb_eq in Heq. subst targetHandleId.
    by rewrite endsWith_append in Hnot. }
  rewrite Hexact, find_incoming.
  destruct (values_set_fresh edges newId
              (mkEdge newId sourceNodeId sourceHandleId targetNodeId
                      targetHandleId) Hfresh) as [-> _].
  unfold Observe.incoming in *. rewrite filter_app, Hfree. simpl.
  rewrite filter_cons, decide_True by done. simpl.
  by rewrite delete_set_fresh.
Qed.

Lemma unplug_undoes_connect_witness :
  Editor.handleMouseDownHandle Examples.chainNodes
    (Connect.connect Examples.chainNodes [] "t" "t-output"
       (Connect.OnBody (Some "g")) "e1")
    None "g" "g-input" Editor.InputHandle
  = ([], Some ("t", "t-output")).
Proof.
  apply (unplug_undoes_connect Examples.chainNodes [] "t" "t-output" "g"
           "g-input" "e1" (Connect.OnBody (Some "g")) None).
  - apply not_elem_of_nil.
  - vm_compute. reflexivity.
  - vm_compute. reflexivity.
Defined.

(** ** Deleting the selected nodes *)
Section DeleteSelection.
Import Editor.

Lemma fold_delete {V} (ks : list string) : ∀ o : JsObject.t V,
  fold_left (fun acc k => delete acc k) ks o
  = filter (λ kv, kv.1 ∉ ks) (o : list (string * V)).
Proof.
  induction ks as [|k ks IH]; intros o; simpl.
  - symmetry. apply filter_all. intros kv _. apply not_elem_of_nil.
  - rewrite IH. unfold delete. rewrite list_filter_filter.
    apply filter_ext_elem. intros kv _. rewrite not_elem_of_cons. tauto.
Qed.

Lemma fold_delete_if {V A} (P : A → bool) (id : A → string) (xs : list A) :
  ∀ o : JsObject.t V,
  fold_left (fun acc x => if P x then delete acc (id x) else acc) xs o
  = filter (λ kv, kv.1 ∉ map id (filter (λ x, P x = true) xs))
           (o : list (string * V)).
Proof.
  induction xs as [|x xs IH]; intros o; simpl.
  - symmetry. apply filter_all. intros kv _. apply not_elem_of_nil.
  - rewrite IH, filter_cons. destruct (P x) eqn:HP.
    + rewrite decide_True by done. unfold delete. rewrite list_filter_filter.
      apply filter_ext_elem. intros kv _. simpl. rewrite not_elem_of_cons. tauto.
    + by rewrite decide_False by done.
Qed.

Lemma wf_entry_inj {V} (o : JsObject.t V) kv kv' :
  JsObject.wf o → kv ∈ o → kv' ∈ o → kv.1 = kv'.1 → kv = kv'.
Proof.
  unfold JsObject.wf, JsObject.keys. induction o as [|x o IH]; intros Hnd H1 H2 Hk.
  - by apply elem_of_nil in H1.
  - simpl in Hnd. apply NoDup_cons in Hnd as [Hfresh Hnd].
    apply elem_of_cons in H1 as [->|H1], H2 as [->|H2].
    + done.
    + exfalso. apply Hfresh. rewrite Hk. by apply list_elem_of_fmap_2.
    + exfalso. apply Hfresh. rewrite <- Hk. by apply list_elem_of_fmap_2.
    + by apply IH.
Qed.

Lemma deleteEdgesOf_filter selected (edges : JsObject.t Edge) :
  JsObject.wf edges → keyed edge_id edges →
  deleteEdgesOf selected edges
  = filter (λ kv, (sourceNodeId (kv.2) ∉ selected) ∧
                (targetNodeId (kv.2) ∉ selected))
           (edges : list (string * Edge)).
Proof.
  intros Hwf Hkeyed. unfold deleteEdgesOf.
  rewrite (fold_delete_if
             (λ edge, has selected (sourceNodeId edge)
                      || has selected (targetNodeId edge)) edge_id).
  apply filter_ext_elem. intros kv Hkv.
  assert (Hk : kv.1 = edge_id kv.2) by (by eapply Forall_forall in Hkeyed).
  unfold has. rewrite list_elem_of_fmap. split.
  - intros Hnot. 
    destruct (decide (sourceNodeId kv.2 ∈ selected)) as [Hs|Hs].
    { exfalso. apply Hnot. exists kv.2. split; [done|].
      apply list_elem_of_filter. split.
      - by rewrite (bool_decide_eq_true_2 _ Hs).
      - by apply list_elem_of_fmap_2. }
    destruct (decide (targetNodeId kv.2 ∈ selected)) as [Ht|Ht]; [|done].
    exfalso. apply Hnot. exists kv.2. split; [done|].
    apply list_elem_of_filter. split.
    + rewrite (bool_decide_eq_true_2 _ Ht). apply orb_true_r.
    + by apply list_elem_of_fmap_2.
  - intros [Hs Ht] (e & Hid & [HP He]%list_elem_of_filter).
    apply list_elem_of_fmap in He as (kv' & -> & Hkv').
    assert (kv = kv') as <-.
    { apply (wf_entry_inj edges); [done..|].
      rewrite Hid. symmetry.
      eapply Forall_forall in Hkeyed; [exact Hkeyed|done]. }
    apply orb_true_iff in HP as [HP|HP]; apply bool_decide_eq_true in HP; done.
Qed.

End DeleteSelection.

Section GroupFacts.
Import Editor.

Lemma keyed_get {V} (id : V → string) (o : JsObject.t V) k v :
  keyed id o → JsObject.get o k = Some v → k = id v.
Proof.
  unfold keyed. induction o as [|[k0 v0] o IH]; [done|].
  intros [H0 Ho]%Forall_cons. simpl in *.
  destruct (String.eqb k0 k) eqn:Hk; [|by apply IH].
  apply String.eqb_eq in Hk. intros [= ->]. by subst.
Qed.

Lemma wf_get_elem {V} (o : JsObject.t V) kv :
  JsObject.wf o → kv ∈ o → JsObject.get o kv.1 = Some kv.2.
Proof.
  unfold JsObject.wf, JsObject.keys. induction o as [|[k0 v0] o IH]; intros Hnd Hin.
  - by apply elem_of_nil in Hin.
  - simpl in Hnd. apply NoDup_cons in Hnd as [Hfresh Hnd].
    apply elem_of_cons in Hin as [->|Hin]; simpl.
    + by rewrite String.eqb_refl.
    + destruct (String.eqb k0 kv.1) eqn:Hk; [|by apply IH].
      apply String.eqb_eq in Hk. subst k0.
      exfalso. apply Hfresh. by apply list_elem_of_fmap_2.
Qed.

Lemma ungroupStep_get selected (o : JsObject.t Group) k g :
  JsObject.get o k = Some g →
  ∃ o', ungroupStep selected (inr o) k = inr o' ∧
    (∀ k', JsObject.get o' k'
           = if decide (k = k') then withoutSelected selected g
             else JsObject.get o k') ∧
    (JsObject.wf o → JsObject.wf o') ∧
    (keyed group_id o → keyed group_id o').
Proof.
  intros Hg. unfold ungroupStep, withoutSelected. rewrite Hg. cbv zeta.
  destruct (bool_decide _).
  - eexists. split; [done|]. split; [|split].
    + intros k'. apply get_delete.
    + apply wf_delete.
    + apply keyed_delete.
  - eexists. split; [done|]. split; [|split].
    + intros k'. destruct (decide (k = k')) as [->|Hne].
      * apply get_set_eq.
      * by apply get_set_ne.
    + apply wf_set.
    + intros Hk. apply keyed_set; [done|]. simpl. by eapply keyed_get.
Qed.

Lemma fold_ungroupStep selected ks : ∀ o : JsObject.t Group,
  NoDup ks → (∀ k, k ∈ ks → is_Some (JsObject.get o k)) →
  ∃ o', fold_left (ungroupStep selected) ks (inr o) = inr o' ∧
    (∀ k, JsObject.get o' k
          = if decide (k ∈ ks) then JsObject.get o k ≫= withoutSelected selected
            else JsObject.get o k) ∧
    (JsObject.wf o → JsObject.wf o') ∧
    (keyed group_id o → keyed group_id o').
Proof.
  induction ks as [|k ks IH]; intros o Hnd Hks.
  - exists o. split; [done|]. split; [|done].
    intros k. by rewrite decide_False by apply not_elem_of_nil.
  - apply NoDup_cons in Hnd as [Hfresh Hnd].
    destruct (Hks k) as [g Hg]; [by left|].
    destruct (ungroupStep_get selected o k g Hg) as (o1 & Hstep & Hget1 & Hwf1 & Hk1).
    destruct (IH o1 Hnd) as (o' & Hfold & Hget & Hwf & Hkeyed).
    { intros k' Hk'. rewrite Hget1.
      rewrite decide_False by (intros ->; done). apply Hks. by right. }
    exists o'. cbn [fold_left]. rewrite Hstep. split; [done|].
    split; [|split; auto].
    intros k'. rewrite Hget, Hget1.
    destruct (decide (k' ∈ ks)) as [Hin|Hout].
    + rewrite decide_False by (intros ->; done).
      by rewrite decide_True by (by right).
    + destruct (decide (k = k')) as [->|Hne].
      * rewrite decide_True by (by left). by rewrite Hg.
      * rewrite decide_False; [done|].
        intros [->|?]%elem_of_cons; done.
Qed.

Lemma fold_removeMembers selected (rest : JsObject.t Group) :
  ∀ acc : JsObject.t Group,
  NoDup (JsObject.keys rest) → keyed group_id rest →
  (∀ kv, kv ∈ rest → JsObject.get acc kv.1 = Some kv.2) →
  fold_left (removeMembers selected) (JsObject.values rest) (inr acc)
  = fold_left (ungroupStep selected) (JsObject.keys rest) (inr acc).
Proof.
  induction rest as [|[k g] rest IH]; intros acc Hnd Hkeyed Hget; [done|].
  simpl in Hnd. apply NoDup_cons in Hnd as [Hfresh Hnd].
  apply Forall_cons in Hkeyed as [Hk Hkeyed]. simpl in Hk.
  assert (Hg : JsObject.get acc k = Some g) by (apply (Hget (k, g)); by left).
  assert (Hstep : removeMembers selected (inr acc) g
                  = ungroupStep selected (inr acc) k).
  { unfold removeMembers, ungroupStep, setNodeIds. rewrite <- Hk, Hg. cbv zeta.
    by destruct (bool_decide _). }
  change (fold_left (removeMembers selected) (JsObject.values rest)
            (removeMembers selected (inr acc) g)
          = fold_left (ungroupStep selected) (JsObject.keys rest)
              (ungroupStep selected (inr acc) k)).
  rewrite Hstep.
  destruct (ungroupStep_get selected acc k g Hg) as (o1 & -> & Hget1 & _).
  apply IH; [done..|]. intros kv Hkv. rewrite Hget1.
  rewrite decide_False; [apply Hget; by right|].
  intros ->. apply Hfresh. by apply list_elem_of_fmap_2.
Qed.

Lemma pruneGroups_get selected (groups : JsObject.t Group) :
  JsObject.wf groups → keyed group_id groups →
  ∃ groups', pruneGroups selected groups = inr groups' ∧
    (∀ k, JsObject.get groups' k
          = JsObject.get groups k ≫= withoutSelected selected) ∧
    JsObject.wf groups' ∧ keyed group_id groups'.
Proof.
  intros Hwf Hkeyed. unfold pruneGroups.
  rewrite fold_removeMembers; [|done..|intros kv; by apply wf_get_elem].
  destruct (fold_ungroupStep selected (JsObject.keys groups) groups Hwf)
    as (groups' & Hfold & Hget & Hwf' & Hkeyed').
  { intros k. apply key_get_Some. }
  exists groups'. split; [done|]. split; [|auto].
  intros k. rewrite Hget. destruct (decide (k ∈ JsObject.keys groups)) as [|Hout];
    [done|].
  destruct (JsObject.get groups k) as [g|] eqn:Hg; [|done].
  exfalso. apply Hout. by eapply get_Some_key.
Qed.

Lemma withoutSelected_Some selected g g' :
  withoutSelected selected g = Some g' →
  group_id g' = group_id g ∧ group_label g' = group_label g ∧
  group_color g' = group_color g ∧
  nodeIds g' = filter (λ id, id ∉ selected) (nodeIds g) ∧
  nodeIds g' ≠ [].
Proof.
  unfold withoutSelected. cbv zeta.
  destruct (bool_decide _) eqn:Hlen; [done|]. intros [= <-]. simpl.
  repeat split. apply bool_decide_eq_false in Hlen.
  intros Hnil. apply Hlen. by rewrite Hnil.
Qed.

End GroupFacts.

(** X16.  After Delete with nodes selected (App.tsx 778-806) the selected
    nodes are gone and the others are untouched, in their order; exactly
    the edges with a selected endpoint are gone.  So the deletion never
    leaves an edge without its source or target node: a graph whose
    edges joined existing nodes still has that property, and the
    scheduler cannot raise on it. *)
Theorem delete_selection_graph (c c' : Editor.Canvas) :
  JsObject.wf (Editor.c_edges c) →
  Editor.keyed edge_id (Editor.c_edges c) →
  Editor.selectedEdgeId c = None →
  Editor.selectedNodeIds c ≠ [] →
  Editor.handleDeleteKey c = inr c' →
  let selected := Editor.selectedNodeIds c in
  Editor.c_nodes c'
  = filter (λ kv, kv.1 ∉ selected) (Editor.c_nodes c : list (string * Node)) ∧
  Editor.c_edges c'
  = filter (λ kv, (sourceNodeId (kv.2) ∉ selected) ∧
                  (targetNodeId (kv.2) ∉ selected))
           (Editor.c_edges c : list (string * Edge)) ∧
  Editor.selectedNodeIds c' = [] ∧
  (Graph.endpointsPresent (JsObject.keys (Editor.c_nodes c))
                          (JsObject.values (Editor.c_edges c)) →
   Graph.endpointsPresent (JsObject.keys (Editor.c_nodes c'))
                          (JsObject.values (Editor.c_edges c')) ∧
   (JsObject.wf (Editor.c_nodes c) →
    ∃ order,
      Scheduler.executionOrder (JsObject.keys (Editor.c_nodes c'))
                               (JsObject.values (Editor.c_edges c'))
      = Scheduler.Order order)).
Proof.
  intros Hwf Hkeyed Hedge Hsel Hkey selected.
  unfold Editor.handleDeleteKey in Hkey. rewrite Hedge in Hkey.
  unfold Editor.deleteSelection in Hkey.
  destruct (Editor.selectedNodeIds c) as [|id ids] eqn:Hids; [done|].
  simpl in Hkey.
  destruct (Editor.pruneGroups _ _) as [e|newGroups]; [done|].
  injection Hkey as <-. simpl.
  assert (Hnodes : Editor.deleteNodes (id :: ids) (Editor.c_nodes c)
                   = filter (λ kv, kv.1 ∉ selected)
                            (Editor.c_nodes c : list (string * Node))).
  { apply fold_delete. }
  assert (Hedges : Editor.deleteEdgesOf (id :: ids) (Editor.c_edges c)
                   = filter (λ kv, (sourceNodeId (kv.2) ∉ selected) ∧
                                   (targetNodeId (kv.2) ∉ selected))
                            (Editor.c_edges c : list (string * Edge))).
  { by apply deleteEdgesOf_filter. }
  split; [exact Hnodes|]. split; [exact Hedges|]. split; [done|].
  intros Hpresent.
  assert (Hpresent' :
    Graph.endpointsPresent
      (JsObject.keys (Editor.deleteNodes (id :: ids) (Editor.c_nodes c)))
      (JsObject.values (Editor.deleteEdgesOf (id :: ids) (Editor.c_edges c)))).
  { rewrite Hnodes, Hedges. intros e He.
    apply list_elem_of_fmap in He as (kv & -> & [[Hs Ht] Hkv]%list_elem_of_filter).
    destruct (Hpresent kv.2) as [Hsrc Htgt]; [by apply list_elem_of_fmap_2|].
    apply list_elem_of_fmap in Hsrc as (ns & Hns & Hin1).
    apply list_elem_of_fmap in Htgt as (nt & Hnt & Hin2).
    split.
    - rewrite Hns. apply list_elem_of_fmap_2, list_elem_of_filter.
      split; [by rewrite <- Hns|done].
    - rewrite Hnt. apply list_elem_of_fmap_2, list_elem_of_filter.
      split; [by rewrite <- Hnt|done]. }
  split; [exact Hpresent'|].
  intros Hwfn.
  destruct (executionOrder_kahn
              (JsObject.keys (Editor.deleteNodes (id :: ids) (Editor.c_nodes c)))
              (JsObject.values (Editor.deleteEdgesOf (id :: ids) (Editor.c_edges c))))
    as (order & Horder & _).
  - rewrite Hnodes. clear -Hwfn. revert Hwfn. unfold JsObject.wf, JsObject.keys.
    induction (Editor.c_nodes c) as [|[k v] o IH]; [done|].
    simpl. intros [Hfresh Hnd]%NoDup_cons. rewrite filter_cons.
    destruct (decide _); [|by apply IH]. simpl. apply NoDup_cons.
    split; [|by apply IH]. intros Hin. apply Hfresh.
    apply list_elem_of_fmap in Hin as (kv & -> & [_ Hkv]%list_elem_of_filter).
    by apply list_elem_of_fmap_2.
  - intros e He. by apply Hpresent'.
  - by exists order.
Qed.

Lemma delete_selection_graph_witness :
  Editor.c_nodes Scenarios.canvasAfterDelete
  = filter (λ kv, kv.1 ∉ ["g"])
           (Editor.c_nodes Scenarios.canvas : list (string * Node)) ∧
  Editor.c_edges Scenarios.canvasAfterDelete
  = filter (λ kv, (sourceNodeId (kv.2) ∉ ["g"]) ∧ (targetNodeId (kv.2) ∉ ["g"]))
           (Editor.c_edges Scenarios.canvas : list (string * Edge)).
Proof.
  assert (Hwf : JsObject.wf (Editor.c_edges Scenarios.canvas))
    by decide_by_compute.
  assert (Hkeyed : Editor.keyed edge_id (Editor.c_edges Scenarios.canvas)).
  { unfold Editor.keyed. decide_by_compute. }
  assert (Hsel : Editor.selectedNodeIds Scenarios.canvas ≠ []) by done.
  assert (Hkey : Editor.handleDeleteKey Scenarios.canvas
                 = inr Scenarios.canvasAfterDelete)
    by (vm_compute; reflexivity).
  destruct (delete_selection_graph Scenarios.canvas Scenarios.canvasAfterDelete
              Hwf Hkeyed eq_refl Hsel Hkey) as (H1 & H2 & _).
  split; [exact H1|exact H2].
Defined.

(** X17.  The groups after Delete with nodes selected (App.tsx 793-804): the
    handler does not raise; each group keeps its identifier, label and
    colour and loses exactly its selected members, and a group left
    without members is removed.  So no group that remains is empty or
    names a deleted node. *)
Theorem delete_selection_groups (c : Editor.Canvas) :
  JsObject.wf (Editor.c_groups c) →
  Editor.keyed Editor.group_id (Editor.c_groups c) →
  Editor.selectedEdgeId c = None →
  Editor.selectedNodeIds c ≠ [] →
  ∃ c',
    Editor.handleDeleteKey c = inr c' ∧
    (∀ k, JsObject.get (Editor.c_groups c') k
          = JsObject.get (Editor.c_groups c) k
            ≫= Editor.withoutSelected (Editor.selectedNodeIds c)) ∧
    (∀ k g', JsObject.get (Editor.c_groups c') k = Some g' →
       Editor.nodeIds g' ≠ [] ∧
       ∀ id, id ∈ Editor.nodeIds g' →
         (id ∉ Editor.selectedNodeIds c) ∧
         (id ∈ JsObject.keys (Editor.c_nodes c) →
          id ∈ JsObject.keys (Editor.c_nodes c'))) ∧
    JsObject.wf (Editor.c_groups c') ∧
    Editor.keyed Editor.group_id (Editor.c_groups c').
Proof.
  intros Hwf Hkeyed Hedge Hsel.
  destruct (pruneGroups_get (Editor.selectedNodeIds c) (Editor.c_groups c)
              Hwf Hkeyed) as (groups' & Hprune & Hget & Hwf' & Hkeyed').
  unfold Editor.handleDeleteKey, Editor.deleteSelection.
  rewrite Hedge, Hprune.
  destruct (Editor.selectedNodeIds c) as [|id0 ids] eqn:Hids; [done|].
  eexists. split; [reflexivity|]. cbn [Editor.c_groups Editor.c_nodes].
  split; [exact Hget|]. split; [|done].
  intros k g' Hg'. rewrite Hget in Hg'.
  destruct (JsObject.get (Editor.c_groups c) k) as [g|]; [|done]. simpl in Hg'.
  apply withoutSelected_Some in Hg' as (_ & _ & _ & Hids' & Hne).
  split; [done|]. intros id Hid. rewrite Hids' in Hid.
  apply list_elem_of_filter in Hid as [Hout _]. split; [done|].
  intros Hin. unfold Editor.deleteNodes. rewrite fold_delete.
  apply list_elem_of_fmap in Hin as (kv & -> & Hkv).
  apply list_elem_of_fmap_2, list_elem_of_filter. done.
Qed.

Lemma delete_selection_groups_witness :
  ∃ c',
    Editor.handleDeleteKey Scenarios.canvas = inr c' ∧
    (∀ k, JsObject.get (Editor.c_groups c') k
          = JsObject.get (Editor.c_groups Scenarios.canvas) k
            ≫= Editor.withoutSelected ["g"]).
Proof.
  assert (Hwf : JsObject.wf (Editor.c_groups Scenarios.canvas))
    by decide_by_compute.
  assert (Hkeyed : Editor.keyed Editor.group_id (Editor.c_groups Scenarios.canvas)).
  { unfold Editor.keyed. decide_by_compute. }
  assert (Hsel : Editor.selectedNodeIds Scenarios.canvas ≠ []) by done.
  destruct (delete_selection_groups Scenarios.canvas Hwf Hkeyed eq_refl Hsel)
    as (c' & H1 & H2 & _).
  exists c'. split; [exact H1|exact H2].
Defined.

(** ** Grouping, ungrouping and muting *)
Section UngroupFacts.
Import Editor.

Lemma add_spec s x :
  (NoDup s → NoDup (add s x)) ∧ ∀ y, y ∈ add s x ↔ y ∈ s ∨ y = x.
Proof.
  unfold add. destruct (bool_decide (x ∈ s)) eqn:Hx.
  - apply bool_decide_eq_true in Hx. split; [done|].
    intros y. split; [by left|]. by intros [?| ->].
  - apply bool_decide_eq_false in Hx. split.
    + intros Hnd. apply NoDup_app. split; [done|]. split; [|apply NoDup_singleton].
      intros y Hy ->%list_elem_of_singleton. done.
    + intros y. rewrite elem_of_app, list_elem_of_singleton. done.
Qed.

Lemma scan_groups (o : JsObject.t Group) nodeId ks : ∀ acc,
  let acc' :=
    fold_left
      (fun acc groupId =>
         match JsObject.get o groupId with
         | Some g => if bool_decide (nodeId ∈ nodeIds g) then add acc groupId
                     else acc
         | None => acc
         end) ks acc in
  (NoDup acc → NoDup acc') ∧
  ∀ k, k ∈ acc' ↔
       k ∈ acc ∨ (k ∈ ks ∧ ∃ g, JsObject.get o k = Some g ∧ nodeId ∈ nodeIds g).
Proof.
  induction ks as [|k0 ks IH]; intros acc; simpl.
  - split; [done|]. intros k. split; [by left|].
    intros [?|[[]%elem_of_nil _]]. done.
  - destruct (JsObject.get o k0) as [g0|] eqn:Hg0;
      [destruct (bool_decide (nodeId ∈ nodeIds g0)) eqn:Hin|].
    + apply bool_decide_eq_true in Hin.
      destruct (IH (add acc k0)) as [Hnd Hmem].
      destruct (add_spec acc k0) as [Hnd0 Hmem0].
      split; [auto|]. intros k. rewrite Hmem, Hmem0, elem_of_cons.
      split.
      * intros [[?| ->]|[? ?]]; [by left| |by right; split; [right|]].
        right. split; [by left|]. by exists g0.
      * intros [?|[[->|?] ?]]; [by left; left|by left; right|by right].
    + apply bool_decide_eq_false in Hin.
      destruct (IH acc) as [Hnd Hmem]. split; [done|].
      intros k. rewrite Hmem, elem_of_cons. split.
      * intros [?|[? ?]]; [by left|by right; split; [right|]].
      * intros [?|[[->|?] Hex]]; [by left| |by right].
        destruct Hex as (g & Hg & Hing). congruence.
    + destruct (IH acc) as [Hnd Hmem]. split; [done|].
      intros k. rewrite Hmem, elem_of_cons. split.
      * intros [?|[? ?]]; [by left|by right; split; [right|]].
      * intros [?|[[->|?] Hex]]; [by left| |by right].
        destruct Hex as (g & Hg & Hing). congruence.
Qed.

Lemma groupsToUpdate_spec selected (o : JsObject.t Group) :
  NoDup (groupsToUpdate selected o) ∧
  ∀ k, k ∈ groupsToUpdate selected o ↔
       ∃ g, JsObject.get o k = Some g ∧
            ∃ id, id ∈ selected ∧ id ∈ nodeIds g.
Proof.
  unfold groupsToUpdate.
  assert (H : ∀ sel acc,
    let acc' :=
      fold_left
        (fun acc nodeId =>
           fold_left
             (fun acc groupId =>
                match JsObject.get o groupId with
                | Some g => if bool_decide (nodeId ∈ nodeIds g)
                            then add acc groupId else acc
                | None => acc
                end) (JsObject.keys o) acc) sel acc in
    (NoDup acc → NoDup acc') ∧
    ∀ k, k ∈ acc' ↔
         k ∈ acc ∨ ∃ g, JsObject.get o k = Some g ∧
                        ∃ id, id ∈ sel ∧ id ∈ nodeIds g).
  { induction sel as [|id sel IH]; intros acc; simpl.
    - split; [done|]. intros k. split; [by left|].
      intros [?|(g & _ & id & []%elem_of_nil & _)]. done.
    - match goal with
      | |- context [fold_left _ sel ?a] => destruct (IH a) as [Hnd Hmem]
      end.
      destruct (scan_groups o id (JsObject.keys o) acc) as [Hnd0 Hmem0].
      cbn zeta in *. split; [auto|].
      intros k. rewrite Hmem, Hmem0. split.
      + intros [[?|(Hk & g & Hg & Hin)]|(g & Hg & id' & Hid' & Hin)].
        * by left.
        * right. exists g. split; [done|]. exists id. split; [by left|done].
        * right. exists g. split; [done|]. exists id'. split; [by right|done].
      + intros [?|(g & Hg & id' & [->|Hid']%elem_of_cons & Hin)].
        * by left; left.
        * left. right. split; [by eapply get_Some_key|]. by exists g.
        * right. exists g. split; [done|]. by exists id'. }
  destruct (H selected []) as [Hnd Hmem]. cbn zeta in *.
  split; [apply Hnd, NoDup_nil_2|].
  intros k. rewrite Hmem. split; [|by right].
  intros [[]%elem_of_nil|?]. done.
Qed.

End UngroupFacts.

(** X18.  Ungrouping (App.tsx 811-834) never raises.  A group that contains a
    selected node loses its selected members, and is removed when no
    member is left; every other group is left exactly as it was.  After
    it, no group contains a selected node. *)
Theorem ungroup_removes_selected (selected : list string)
    (groups : JsObject.t Editor.Group) :
  JsObject.wf groups →
  ∃ groups',
    Editor.ungroup selected groups = inr groups' ∧
    (∀ k, JsObject.get groups' k
          = JsObject.get groups k ≫= fun g =>
              if bool_decide (Exists (λ id, id ∈ Editor.nodeIds g) selected)
              then Editor.withoutSelected selected g else Some g) ∧
    (∀ k g' id, JsObject.get groups' k = Some g' → id ∈ selected →
                id ∉ Editor.nodeIds g') ∧
    JsObject.wf groups'.
Proof.
  intros Hwf. unfold Editor.ungroup.
  destruct (groupsToUpdate_spec selected groups) as [Hnd Hmem].
  destruct (fold_ungroupStep selected (Editor.groupsToUpdate selected groups)
              groups Hnd) as (groups' & Hfold & Hget & Hwf' & _).
  { intros k Hk. apply Hmem in Hk as (g & Hg & _). by rewrite Hg. }
  exists groups'. split; [done|].
  assert (Hspec : ∀ k, JsObject.get groups' k
    = JsObject.get groups k ≫= fun g =>
        if bool_decide (Exists (λ id, id ∈ Editor.nodeIds g) selected)
        then Editor.withoutSelected selected g else Some g).
  { intros k. rewrite Hget.
    destruct (JsObject.get groups k) as [g|] eqn:Hg; simpl.
    - destruct (decide (k ∈ Editor.groupsToUpdate selected groups)) as [Hin|Hout].
      + rewrite bool_decide_eq_true_2; [done|].
        apply Hmem in Hin as (g0 & Hg0 & id & Hid & Hing).
        apply Exists_exists. exists id. split; [done|]. congruence.
      + rewrite bool_decide_eq_false_2; [done|].
        intros (id & Hid & Hing)%Exists_exists. apply Hout, Hmem.
        exists g. split; [done|]. by exists id.
    - by destruct (decide _). }
  split; [exact Hspec|]. split; [|auto].
  intros k g' id Hg' Hid Hin. rewrite Hspec in Hg'.
  destruct (JsObject.get groups k) as [g|]; [|done]. simpl in Hg'.
  destruct (bool_decide _) eqn:Hex.
  - apply withoutSelected_Some in Hg' as (_ & _ & _ & Hids & _).
    rewrite Hids in Hin. by apply list_elem_of_filter in Hin as [Hout _].
  - injection Hg' as <-. apply bool_decide_eq_false in Hex.
    apply Hex, Exists_exists. by exists id.
Qed.

Lemma ungroup_removes_selected_witness :
  ∃ groups',
    Editor.ungroup ["g"] (Editor.c_groups Scenarios.canvas) = inr groups' ∧
    ∀ k g' id, JsObject.get groups' k = Some g' → id ∈ ["g"] →
               id ∉ Editor.nodeIds g'.
Proof.
  assert (Hwf : JsObject.wf (Editor.c_groups Scenarios.canvas))
    by decide_by_compute.
  destruct (ungroup_removes_selected ["g"] (Editor.c_groups Scenarios.canvas) Hwf)
    as (groups' & H1 & _ & H3 & _).
  exists groups'. split; [exact H1|exact H3].
Defined.

Section GroupRoundTrip.
Import Editor.

Lemma NoDup_singleton_eq (l : list string) x :
  NoDup l → (∀ y, y ∈ l ↔ y = x) → l = [x].
Proof.
  intros Hnd Hmem. destruct l as [|a l].
  - exfalso. by apply (elem_of_nil x), Hmem.
  - assert (a = x) as -> by (apply Hmem; by left).
    destruct l as [|b l]; [done|].
    assert (b = x) as -> by (apply Hmem; right; by left).
    apply NoDup_cons in Hnd as [Hn _]. exfalso. apply Hn. by left.
Qed.

End GroupRoundTrip.

(** X19.  Grouping and then ungrouping the same selection (App.tsx 809-846)
    gives back the groups as they were, provided the selected nodes
    belonged to no group before. *)
Theorem ungroup_undoes_group (selected : list string) (newId color : string)
    (groups : JsObject.t Editor.Group) :
  selected ≠ [] →
  newId ∉ JsObject.keys groups →
  Forall (λ g, Forall (λ id, id ∉ Editor.nodeIds g) selected)
         (JsObject.values groups) →
  Editor.ungroup selected (Editor.group selected newId color groups)
  = inr groups.
Proof.
  intros Hsel Hfresh Hdisj.
  unfold Editor.group.
  destruct selected as [|id0 ids] eqn:Hs; [done|]. rewrite <- Hs in *.
  replace (0 <? length selected)%nat with true by (by rewrite Hs).
  set (G := Editor.mkGroup newId "New Group" color selected).
  unfold Editor.ungroup.
  destruct (groupsToUpdate_spec selected (JsObject.set groups newId G))
    as [Hnd Hmem].
  rewrite (NoDup_singleton_eq _ newId Hnd).
  - cbn [fold_left]. unfold Editor.ungroupStep. rewrite get_set_eq. cbv zeta.
    cbn [Editor.nodeIds G].
    rewrite filter_none by (intros x Hx Hn; done).
    rewrite bool_decide_eq_true_2 by done.
    by rewrite delete_set_fresh.
  - intros k. rewrite Hmem. split.
    + intros (g & Hg & id & Hid & Hin).
      destruct (decide (newId = k)) as [->|Hne]; [done|].
      rewrite get_set_ne in Hg by done. exfalso.
      apply get_Some_values in Hg.
      eapply Forall_forall in Hdisj; [|exact Hg].
      eapply Forall_forall in Hdisj; [|exact Hid]. done.
    + intros ->. exists G. split; [apply get_set_eq|].
      exists id0. cbn [Editor.nodeIds G]. rewrite Hs. split; by left.
Qed.

Lemma ungroup_undoes_group_witness :
  Editor.ungroup ["o"]
    (Editor.group ["o"] "g3" "rgba(6, 182, 212, 0.2)"
                  (Editor.c_groups Scenarios.canvas))
  = inr (Editor.c_groups Scenarios.canvas).
Proof.
  apply (ungroup_undoes_group ["o"] "g3" "rgba(6, 182, 212, 0.2)"
           (Editor.c_groups Scenarios.canvas)).
  - done.
  - decide_by_compute.
  - decide_by_compute.
Defined.

Section MuteFacts.
Import Editor.

Lemma keys_set_present {V} (o : JsObject.t V) k v :
  is_Some (JsObject.get o k) → JsObject.keys (JsObject.set o k v) = JsObject.keys o.
Proof.
  unfold JsObject.keys. induction o as [|[k0 v0] o IH]; simpl.
  - by intros [? ?].
  - destruct (String.eqb k0 k) eqn:Hk; simpl.
    + apply String.eqb_eq in Hk. by subst.
    + intros H. by rewrite IH.
Qed.

Lemma get_fresh {V} (o : JsObject.t V) k :
  k ∉ JsObject.keys o → JsObject.get o k = None.
Proof.
  intros Hk. destruct (JsObject.get o k) eqn:Hg; [|done].
  exfalso. by eapply Hk, get_Some_key.
Qed.

(** Two objects with the same keys, in the same order, and the same
    value at every key are equal. *)
Lemma object_ext {V} (o1 : JsObject.t V) : ∀ o2 : JsObject.t V,
  JsObject.wf o1 → JsObject.keys o1 = JsObject.keys o2 →
  (∀ k, JsObject.get o1 k = JsObject.get o2 k) → o1 = o2.
Proof.
  unfold JsObject.wf, JsObject.keys.
  induction o1 as [|[k v1] o1 IH]; intros [|[k2 v2] o2] Hwf Hkeys Hget;
    try done.
  simpl in Hkeys. injection Hkeys as <- Hkeys.
  simpl in Hwf. apply NoDup_cons in Hwf as [Hfresh Hnd].
  pose proof (Hget k) as Hk. simpl in Hk. rewrite String.eqb_refl in Hk.
  injection Hk as <-. f_equal. apply IH; [done..|].
  intros k'. destruct (decide (k = k')) as [<-|Hne].
  - rewrite !get_fresh; [done| |done].
    unfold JsObject.keys. by rewrite <- Hkeys.
  - specialize (Hget k'). simpl in Hget.
    by rewrite (proj2 (String.eqb_neq k k') Hne) in Hget.
Qed.

Lemma toggled_involutive n : toggled (toggled n) = n.
Proof.
  destruct n as [i t [l ins outs c s e p m]]. unfold toggled. simpl.
  by rewrite negb_involutive.
Qed.

Lemma toggleMute_get selected : ∀ o : JsObject.t Node,
  NoDup selected →
  JsObject.keys (toggleMute selected o) = JsObject.keys o ∧
  ∀ k, JsObject.get (toggleMute selected o) k
       = (if bool_decide (k ∈ selected) then toggled else id)
           <$> JsObject.get o k.
Proof.
  unfold toggleMute.
  induction selected as [|id0 selected IH]; intros o Hnd.
  - split; [done|]. intros k. simpl. by destruct (JsObject.get o k).
  - apply NoDup_cons in Hnd as [Hfresh Hnd]. cbn [fold_left].
    destruct (JsObject.get o id0) as [n|] eqn:Hn.
    + destruct (IH (JsObject.set o id0 (toggled n)) Hnd) as [Hkeys Hget].
      split; [rewrite Hkeys; by apply keys_set_present|].
      intros k. rewrite Hget.
      destruct (decide (id0 = k)) as [<-|Hne].
      * rewrite get_set_eq, Hn, bool_decide_eq_false_2 by done.
        by rewrite bool_decide_eq_true_2 by (by left).
      * rewrite get_set_ne by done.
        destruct (decide (k ∈ selected)) as [Hin|Hout].
        -- rewrite !bool_decide_eq_true_2; [done|by right|done].
        -- rewrite !bool_decide_eq_false_2; [done| |done].
           intros [->|?]%elem_of_cons; done.
    + destruct (IH o Hnd) as [Hkeys Hget]. split; [done|].
      intros k. rewrite Hget.
      destruct (decide (id0 = k)) as [<-|Hne].
      * by rewrite Hn.
      * destruct (decide (k ∈ selected)) as [Hin|Hout].
        -- rewrite !bool_decide_eq_true_2; [done|by right|done].
        -- rewrite !bool_decide_eq_false_2; [done| |done].
           intros [->|?]%elem_of_cons; done.
Qed.

End MuteFacts.

(** X20.  The mute shortcut (App.tsx 848-859) negates [isMuted] of every
    selected node that exists and changes nothing else: no node is
    added, removed or moved, and the other nodes are untouched.
    Pressing it twice on the same selection restores the node map. *)
Theorem toggleMute_twice (selected : list string) (nodes : JsObject.t Node) :
  JsObject.wf nodes → NoDup selected →
  JsObject.keys (Editor.toggleMute selected nodes) = JsObject.keys nodes ∧
  (∀ k, JsObject.get (Editor.toggleMute selected nodes) k
        = (if bool_decide (k ∈ selected) then Editor.toggled else id)
            <$> JsObject.get nodes k) ∧
  Editor.toggleMute selected (Editor.toggleMute selected nodes) = nodes.
Proof.
  intros Hwf Hnd.
  destruct (toggleMute_get selected nodes Hnd) as [Hkeys Hget].
  destruct (toggleMute_get selected (Editor.toggleMute selected nodes) Hnd)
    as [Hkeys2 Hget2].
  split; [done|]. split; [done|].
  apply object_ext.
  - unfold JsObject.wf. by rewrite Hkeys2, Hkeys.
  - by rewrite Hkeys2.
  - intros k. rewrite Hget2, Hget.
    destruct (JsObject.get nodes k) as [n|]; [|done]. simpl.
    destruct (bool_decide _); [|done]. simpl. by rewrite toggled_involutive.
Qed.

Lemma toggleMute_twice_witness :
  Editor.toggleMute ["g"; "ghost"]
    (Editor.toggleMute ["g"; "ghost"] Examples.chainNodes)
  = Examples.chainNodes.
Proof.
  assert (Hwf : JsObject.wf Examples.chainNodes) by decide_by_compute.
  assert (Hnd : NoDup ["g"; "ghost"]) by decide_by_compute.
  exact (proj2 (proj2 (toggleMute_twice ["g"; "ghost"] Examples.chainNodes
                         Hwf Hnd))).
Defined.

(** ** Creating nodes *)
Section FactoryFacts.
Import Factory.

Lemma pretty_N_go_app x : ∀ s, ∃ p, pretty_N_go x s = p +:+ s.
Proof.
  induction (N.lt_wf_0 x) as [x _ IH]; intros s.
  destruct (decide (0 < x)%N) as [Hpos|Hzero].
  - rewrite pretty_N_go_step by done.
    destruct (IH (x `div` 10)%N) with (s := String (pretty_N_char (x `mod` 10)) s)
      as [p ->]; [by apply N.div_lt|].
    exists (p +:+ String (pretty_N_char (x `mod` 10)) "").
    by rewrite append_assoc.
  - assert (x = 0%N) as -> by lia. by exists "".
Qed.

(** The decimal rendering of an index ends with a digit. *)
Lemma pretty_nat_last (n : nat) :
  ∃ p k, pretty n = p +:+ String (pretty_N_char k) "".
Proof.
  unfold pretty, pretty_nat, pretty, pretty_N.
  destruct (decide (N.of_nat n = 0%N)) as [_|Hne].
  - by exists "", 0%N.
  - rewrite pretty_N_go_step by lia.
    destruct (pretty_N_go_app (N.of_nat n `div` 10)
                (String (pretty_N_char (N.of_nat n `mod` 10)) "")) as [p ->].
    by exists p, (N.of_nat n `mod` 10)%N.
Qed.

Lemma digit_ended_not_multi a k :
  JsString.endsWith (a +:+ String (pretty_N_char k) "") "-input-multi-image"
  = false.
Proof.
  unfold JsString.endsWith. rewrite rev_append.
  change (String.rev (String (pretty_N_char k) ""))
    with (String (pretty_N_char k) "").
  rewrite append_cons.
  change (String.rev "-input-multi-image") with "egami-itlum-tupni-".
  cbn [String.prefix]. unfold pretty_N_char.
  by repeat case_match.
Qed.

Lemma digit_ended_ne a k s :
  a +:+ String (pretty_N_char k) "" ≠ s +:+ "e".
Proof.
  intros Heq. apply (f_equal String.rev) in Heq.
  rewrite !rev_append in Heq.
  change (String.rev (String (pretty_N_char k) ""))
    with (String (pretty_N_char k) "") in Heq.
  change (String.rev "e") with "e" in Heq.
  rewrite !append_cons in Heq. injection Heq as Hc _.
  unfold pretty_N_char in Hc. by repeat case_match.
Qed.

Lemma indexed_ids id infix specs :
  map port_id (indexed id infix specs)
  = map (λ i, id +:+ infix +:+ pretty i) (seq 0 (length specs)).
Proof.
  unfold indexed.
  assert (H : ∀ k,
    map port_id
      (imap (λ index spec,
               mkPort (id +:+ infix +:+ pretty (k + index)%nat)
                      (spec_label spec) (spec_type spec)) specs)
    = map (λ i, id +:+ infix +:+ pretty i) (seq k (length specs))).
  { induction specs as [|spec specs IH]; intros k; [done|].
    cbn [imap length seq map port_id]. rewrite Nat.add_0_r. f_equal.
    rewrite <- (IH (S k)). f_equal. apply imap_ext. intros i x _. simpl.
    by rewrite Nat.add_succ_r. }
  apply (H 0%nat).
Qed.

Lemma indexed_nodup infix (n : nat) :
  NoDup (map (λ i : nat, infix +:+ pretty i) (seq 0 n)).
Proof.
  apply NoDup_fmap_2; [|apply NoDup_seq].
  intros i j Hij. apply String.app_inj in Hij. by apply pretty_nat_inj.
Qed.

Lemma prefixed_nodup id (ins outs : list string) :
  NoDup ins → NoDup outs →
  Forall (λ s, String.prefix "-i" s = true) ins →
  Forall (λ s, String.prefix "-o" s = true) outs →
  NoDup (map (λ s, id +:+ s) (ins ++ outs)).
Proof.
  intros Hi Ho Hpi Hpo. apply NoDup_fmap_2; [apply String.app_inj|].
  apply NoDup_app. split; [done|]. split; [|done].
  intros s Hs1 Hs2.
  eapply Forall_forall in Hpi; [|exact Hs1].
  eapply Forall_forall in Hpo; [|exact Hs2].
  destruct s as [|c1 s]; [done|]. cbn [String.prefix] in *.
  destruct (ascii_dec "-" c1); [|done].
  destruct s as [|c2 s]; [done|]. cbn [String.prefix] in *.
  destruct (ascii_dec "i" c2) as [<-|]; [|done].
  by destruct (ascii_dec "o" "i").
Qed.

End FactoryFacts.

Section CreateNodeFacts.
Import Factory.
Variable PRESET_CONFIGS : gmap string PresetConfig.

Lemma indexed_suffixes id infix specs :
  map port_id (indexed id infix specs)
  = map (λ s, id +:+ s)
        (map (λ i : nat, infix +:+ pretty i) (seq 0 (length specs))).
Proof. rewrite indexed_ids, map_map. done. Qed.

Lemma indexed_forall (P : string → Prop) infix (n : nat) :
  (∀ i : nat, P (infix +:+ pretty i)) →
  Forall P (map (λ i : nat, infix +:+ pretty i) (seq 0 n)).
Proof. intros HP. apply Forall_fmap, Forall_forall. intros i _. apply HP. Qed.

(** The port identifiers of a created node, as suffixes of its own
    identifier. *)
Lemma createNode_suffixes id type presetId n :
  createNode PRESET_CONFIGS id type presetId = inr n →
  ∃ ins outs,
    map port_id (inputs (data n)) = map (λ s, id +:+ s) ins ∧
    map port_id (outputs (data n)) = map (λ s, id +:+ s) outs ∧
    NoDup ins ∧ NoDup outs ∧
    Forall (λ s, ∃ t, s = "-input" +:+ t) ins ∧
    Forall (λ s, ∃ t, s = "-output" +:+ t) outs.
Proof.
  unfold createNode. destruct type.
  - intros [= <-]. exists [], ["-output"]. simpl.
    repeat split; try done; try apply NoDup_nil_2; try apply NoDup_singleton.
    repeat constructor. by exists "".
  - intros [= <-]. exists [], ["-output"]. simpl.
    repeat split; try done; try apply NoDup_nil_2; try apply NoDup_singleton.
    repeat constructor. by exists "".
  - intros [= <-]. exists ["-input"], ["-output"]. simpl.
    repeat split; try done; try apply NoDup_singleton.
    + repeat constructor. by exists "".
    + repeat constructor. by exists "".
  - intros [= <-]. exists ["-input-image"; "-input-text"],
      ["-output-image"; "-output-text"]. simpl.
    split; [done|]. split; [done|].
    split; [decide_by_compute|]. split; [decide_by_compute|].
    split; repeat constructor;
      first [by exists "-image" | by exists "-text"].
  - intros [= <-]. exists ["-input-image"; "-input-text"], ["-output"]. simpl.
    split; [done|]. split; [done|].
    split; [decide_by_compute|]. split; [apply NoDup_singleton|].
    split; repeat constructor;
      first [by exists "-image" | by exists "-text" | by exists ""].
  - intros [= <-]. exists ["-input"], []. simpl.
    repeat split; try done; try apply NoDup_nil_2; try apply NoDup_singleton.
    repeat constructor. by exists "".
  - destruct (presetId ≫= _) as [config|]; [|done]. cbv zeta.
    intros [= <-]. cbn [make data inputs outputs].
    exists (if (1 <? length (cfg_inputs config))%nat &&
               forallb (fun i => bool_decide (spec_type i = image))
                       (cfg_inputs config)
            then ["-input-multi-image"]
            else map (λ i : nat, "-input-" +:+ pretty i)
                     (seq 0 (length (cfg_inputs config)))),
           (map (λ i : nat, "-output-" +:+ pretty i)
                (seq 0 (length (cfg_outputs config)))).
    split; [|split; [apply indexed_suffixes|]].
    { destruct (_ && _); [done|apply indexed_suffixes]. }
    split; [destruct (_ && _); [apply NoDup_singleton|apply indexed_nodup]|].
    split; [apply indexed_nodup|]. split.
    + destruct (_ && _).
      * repeat constructor. by exists "-multi-image".
      * apply indexed_forall. intros i. by exists ("-" +:+ pretty i).
    + apply indexed_forall. intros i. by exists ("-" +:+ pretty i).
Qed.

End CreateNodeFacts.

(** X21.  A node made by [createNode] (App.tsx 15-49) carries the identifier
    it was given, is idle and unmuted, and all its port identifiers are
    distinct; every input port is named [<id>-input...] and every output
    port [<id>-output...].  (The port identifiers are what edges and
    [nodeOutputs] are keyed by.) *)
Theorem createNode_ports (PRESET_CONFIGS : gmap string Factory.PresetConfig)
    (id : string) (type : NodeType) (presetId : option string) (n : Node) :
  Factory.createNode PRESET_CONFIGS id type presetId = inr n →
  node_id n = id ∧ node_type n = type ∧
  status (data n) = IDLE ∧ content (data n) = VNull ∧
  isMuted (data n) = false ∧
  NoDup (map port_id (inputs (data n) ++ outputs (data n))) ∧
  Forall (λ p, ∃ t, port_id p = id +:+ "-input" +:+ t) (inputs (data n)) ∧
  Forall (λ p, ∃ t, port_id p = id +:+ "-output" +:+ t) (outputs (data n)).
Proof.
  intros Hcreate.
  destruct (createNode_suffixes PRESET_CONFIGS id type presetId n Hcreate)
    as (ins & outs & Hins & Houts & Hni & Hno & Hpi & Hpo).
  assert (Hbase : node_id n = id ∧ node_type n = type ∧
                  status (data n) = IDLE ∧ content (data n) = VNull ∧
                  isMuted (data n) = false).
  { unfold Factory.createNode in Hcreate.
    destruct type; try (injection Hcreate as <-; done).
    destruct (presetId ≫= _); [|done]. by injection Hcreate as <-. }
  destruct Hbase as (H1 & H2 & H3 & H4 & H5).
  repeat (split; [done|]). split; [|split].
  - unfold NodeInput, NodeOutput in *.
    rewrite List.map_app, Hins, Houts, <- List.map_app.
    apply prefixed_nodup; [done..| |].
    + eapply Forall_impl; [exact Hpi|]. by intros s [t ->].
    + eapply Forall_impl; [exact Hpo|]. by intros s [t ->].
  - apply Forall_forall. intros p Hp.
    assert (Hin : port_id p ∈ map (λ s, id +:+ s) ins).
    { rewrite <- Hins. by apply list_elem_of_fmap_2. }
    apply list_elem_of_fmap in Hin as (s & -> & Hs).
    eapply Forall_forall in Hpi; [|exact Hs]. destruct Hpi as [t ->].
    by exists t.
  - apply Forall_forall. intros p Hp.
    assert (Hin : port_id p ∈ map (λ s, id +:+ s) outs).
    { rewrite <- Houts. by apply list_elem_of_fmap_2. }
    apply list_elem_of_fmap in Hin as (s & -> & Hs).
    eapply Forall_forall in Hpo; [|exact Hs]. destruct Hpo as [t ->].
    by exists t.
Qed.

Lemma createNode_ports_witness :
  ∃ n,
    Factory.createNode Scenarios.presets "p" PROMPT_PRESET (Some "caption")
    = inr n ∧
    NoDup (map port_id (inputs (data n) ++ outputs (data n))).
Proof.
  eexists. split; [vm_compute; reflexivity|].
  refine (proj1 (proj2 (proj2 (proj2 (proj2 (proj2
    (createNode_ports Scenarios.presets "p" PROMPT_PRESET (Some "caption") _ _))))))).
  vm_compute. reflexivity.
Defined.

(** X22.  The three places that single out the aggregating port of a preset
    node agree on every input port of a node made by [createNode]: the
    test of [handleMouseUp] (the port identifier ends with
    "-input-multi-image"), the test of [handleMouseDownHandle] and the
    lookup of [runWorkflow] (the identifier is exactly
    [<id>-input-multi-image]). *)
Theorem multi_image_tests_agree
    (PRESET_CONFIGS : gmap string Factory.PresetConfig)
    (id : string) (type : NodeType) (presetId : option string) (n : Node)
    (p : NodeInput) :
  Factory.createNode PRESET_CONFIGS id type presetId = inr n →
  p ∈ inputs (data n) →
  Connect.isMultiImageHandle (Some n) (port_id p)
  = Editor.isMultiImageHandle (Some n) id (port_id p) ∧
  (JsString.endsWith (port_id p) "-input-multi-image" = true ↔
   List.find (fun i => String.eqb (port_id i) (id +:+ "-input-multi-image"))
             (inputs (data n)) = Some p).
Proof.
  unfold Factory.createNode, Connect.isMultiImageHandle,
    Editor.isMultiImageHandle.
  assert (Hfixed : ∀ a : string,
    a = "" ∨ a = "-image" ∨ a = "-text" →
    JsString.endsWith (id +:+ "-input" +:+ a) "-input-multi-image" = false ∧
    String.eqb (id +:+ "-input" +:+ a) (id +:+ "-input-multi-image") = false).
  { intros a Ha. split.
    - unfold JsString.endsWith. rewrite !rev_append.
      destruct Ha as [->|[->| ->]]; done.
    - apply String.eqb_neq. intros Heq%String.app_inj.
      destruct Ha as [->|[->| ->]]; done. }
  destruct type.
  - intros [= <-] Hp. by apply elem_of_nil in Hp.
  - intros [= <-] Hp. by apply elem_of_nil in Hp.
  - intros [= <-] Hp. cbn in Hp. apply list_elem_of_singleton in Hp as ->.
    cbn [port_id Factory.make data inputs node_type].
    destruct (Hfixed "") as [H1 H2]; [by left|].
    rewrite append_nil_r in H1, H2. rewrite H1.
    split; [done|]. cbn [List.find port_id]. rewrite H2. done.
  - intros [= <-] Hp. cbn in Hp.
    cbn [port_id Factory.make data inputs node_type List.find].
    destruct (Hfixed "-image") as [H1 H2]; [by right; left|].
    destruct (Hfixed "-text") as [H3 H4]; [by right; right|].
    change (id +:+ "-input" +:+ "-image") with (id +:+ "-input-image") in *.
    change (id +:+ "-input" +:+ "-text") with (id +:+ "-input-text") in *.
    cbn [port_id]. rewrite H2, H4.
    apply elem_of_cons in Hp as [->|Hp];
      [|apply list_elem_of_singleton in Hp as ->]; cbn [port_id].
    + by rewrite H1.
    + by rewrite H3.
  - intros [= <-] Hp. cbn in Hp.
    cbn [port_id Factory.make data inputs node_type List.find].
    destruct (Hfixed "-image") as [H1 H2]; [by right; left|].
    destruct (Hfixed "-text") as [H3 H4]; [by right; right|].
    change (id +:+ "-input" +:+ "-image") with (id +:+ "-input-image") in *.
    change (id +:+ "-input" +:+ "-text") with (id +:+ "-input-text") in *.
    cbn [port_id]. rewrite H2, H4.
    apply elem_of_cons in Hp as [->|Hp];
      [|apply list_elem_of_singleton in Hp as ->]; cbn [port_id].
    + by rewrite H1.
    + by rewrite H3.
  - intros [= <-] Hp. cbn in Hp. apply list_elem_of_singleton in Hp as ->.
    cbn [port_id Factory.make data inputs node_type].
    destruct (Hfixed "") as [H1 H2]; [by left|].
    rewrite append_nil_r in H1, H2. rewrite H1.
    split; [done|]. cbn [List.find port_id]. rewrite H2. done.
  - destruct (presetId ≫= _) as [config|]; [|done]. cbv zeta.
    intros [= <-]. cbn [Factory.make data inputs node_type].
    rewrite bool_decide_eq_true_2 by done. cbn [andb].
    destruct (_ && _).
    + intros ->%list_elem_of_singleton. cbn [port_id List.find].
      rewrite String.eqb_refl, endsWith_append. done.
    + intros Hp.
      assert (Hid : port_id p ∈ map port_id
                      (Factory.indexed id "-input-" (Factory.cfg_inputs config)))
        by (by apply list_elem_of_fmap_2).
      rewrite indexed_ids in Hid.
      apply list_elem_of_fmap in Hid as (i & Hpid & _).
      destruct (pretty_nat_last i) as (q & k & Hq).
      assert (Hends : JsString.endsWith (port_id p) "-input-multi-image" = false).
      { rewrite Hpid, Hq, <- !append_assoc. apply digit_ended_not_multi. }
      assert (Hne : String.eqb (port_id p) (id +:+ "-input-multi-image") = false).
      { apply String.eqb_neq. rewrite Hpid, Hq. intros Heq%String.app_inj.
        change "-input-multi-image" with ("-input-" +:+ "multi-imag" +:+ "e") in Heq.
        apply String.app_inj in Heq.
        by apply (digit_ended_ne q k "multi-imag"). }
      rewrite Hends, Hne. split; [done|]. split; [done|].
      intros Hfind. apply find_some in Hfind as [_ Heq].
      by rewrite Hne in Heq.
Qed.

Lemma multi_image_tests_agree_witness :
  Connect.isMultiImageHandle
    (Some (Factory.make "p" PROMPT_PRESET "Blend"
             [mkPort "p-input-multi-image" "Images" image]
             [mkPort "p-output-0" "Image" image] (Some "blend the images")))
    "p-input-multi-image"
  = Editor.isMultiImageHandle
      (Some (Factory.make "p" PROMPT_PRESET "Blend"
               [mkPort "p-input-multi-image" "Images" image]
               [mkPort "p-output-0" "Image" image] (Some "blend the images")))
      "p" "p-input-multi-image".
Proof.
  assert (Hcreate :
    Factory.createNode Scenarios.presets "p" PROMPT_PRESET (Some "blend")
    = inr (Factory.make "p" PROMPT_PRESET "Blend"
             [mkPort "p-input-multi-image" "Images" image]
             [mkPort "p-output-0" "Image" image] (Some "blend the images")))
    by (vm_compute; reflexivity).
  assert (Hin :
    mkPort "p-input-multi-image" "Images" image
    ∈ inputs (data (Factory.make "p" PROMPT_PRESET "Blend"
                      [mkPort "p-input-multi-image" "Images" image]
                      [mkPort "p-output-0" "Image" image]
                      (Some "blend the images"))))
    by (by left).
  exact (proj1 (multi_image_tests_agree Scenarios.presets "p" PROMPT_PRESET
                  (Some "blend") _ _ Hcreate Hin)).
Defined.

(** ** Saving and loading *)
Section OwnOrderFacts.
Import OwnKeys.
Context {V : Type}.
Implicit Types o : list (string * V).

Lemma insertByIndex_perm n (kv : string * V) sorted :
  insertByIndex n kv sorted ≡ₚ (n, kv) :: sorted.
Proof.
  induction sorted as [|[m x] rest IH]; simpl; [done|].
  destruct (n <? m)%N; [done|]. rewrite IH. apply Permutation_swap.
Qed.

Lemma byIndex_perm o : ∀ acc,
  map snd (fold_left
             (fun acc kv =>
                match arrayIndex kv.1 with
                | Some n => insertByIndex n kv acc
                | None => acc
                end) o acc)
  ≡ₚ map snd acc ++ filter (λ kv, ¬ arrayIndex kv.1 = None) o.
Proof.
  induction o as [|kv o IH]; intros acc; simpl.
  - by rewrite app_nil_r.
  - rewrite IH, filter_cons.
    destruct (arrayIndex kv.1) as [n|] eqn:Hn.
    + rewrite decide_True by done.
      rewrite (fmap_Permutation snd _ _ (insertByIndex_perm n kv acc)).
      simpl. by rewrite Permutation_middle.
    + rewrite decide_False; [done|]. by intros H; apply H.
Qed.

(** An object lists every property it has, once. *)
Lemma ownOrder_perm o : ownOrder o ≡ₚ o.
Proof.
  unfold ownOrder, byIndex. rewrite byIndex_perm. simpl.
  rewrite (comm (++)).
  apply (filter_app_complement (λ kv : string * V, arrayIndex kv.1 = None)).
Qed.

(** Without array indices among the keys, in the order in which they
    were added. *)
Lemma ownOrder_plain o :
  Forall (λ kv, arrayIndex kv.1 = None) o → ownOrder o = o.
Proof.
  intros Hplain. unfold ownOrder, byIndex.
  assert (Hfold : ∀ acc,
    fold_left (fun acc (kv : string * V) =>
                 match arrayIndex kv.1 with
                 | Some n => insertByIndex n kv acc
                 | None => acc
                 end) o acc = acc).
  { induction Hplain as [|kv o Hkv _ IH]; intros acc; simpl; [done|].
    by rewrite Hkv. }
  rewrite Hfold. simpl. apply filter_all. by apply Forall_forall.
Qed.

Lemma keys_ownOrder o : JsObject.keys (ownOrder o) ≡ₚ JsObject.keys o.
Proof. unfold JsObject.keys. by rewrite ownOrder_perm. Qed.

Lemma values_ownOrder o : JsObject.values (ownOrder o) ≡ₚ JsObject.values o.
Proof. unfold JsObject.values. by rewrite ownOrder_perm. Qed.

Lemma wf_ownOrder o : JsObject.wf o → JsObject.wf (ownOrder o).
Proof. unfold JsObject.wf. by rewrite keys_ownOrder. Qed.

End OwnOrderFacts.

Section LoaderFacts.
Import Loader.

Lemma set_fresh {V} (o : JsObject.t V) k v :
  k ∉ JsObject.keys o → JsObject.set o k v = o ++ [(k, v)].
Proof.
  unfold JsObject.keys. induction o as [|[k0 v0] o IH]; [done|].
  intros [Hne Hk]%not_elem_of_cons. simpl in *.
  destruct (String.eqb k0 k) eqn:Hk0.
  { apply String.eqb_eq in Hk0. by subst. }
  by rewrite IH.
Qed.

(** Adding items with fresh, distinct identifiers one after the other. *)
Lemma fold_set_fresh {V} (id : V → string) (xs : list V) :
  ∀ acc : JsObject.t V,
  NoDup (JsObject.keys acc ++ map id xs) →
  fold_left (fun a x => JsObject.set a (id x) x) xs acc
  = acc ++ map (λ x, (id x, x)) xs.
Proof.
  induction xs as [|x xs IH]; intros acc Hnd; simpl.
  - by rewrite app_nil_r.
  - rewrite set_fresh.
    + rewrite IH; [by rewrite <- app_assoc|].
      unfold JsObject.keys in *. rewrite fmap_app, <- app_assoc. exact Hnd.
    + apply NoDup_app in Hnd as (_ & Hdisj & _). intros Hin.
      apply (Hdisj _ Hin). by left.
Qed.

Lemma keyed_entries {V} (id : V → string) (o : JsObject.t V) :
  Editor.keyed id o → map (λ x, (id x, x)) (JsObject.values o) = o.
Proof.
  induction 1 as [|[k v] o Hk _ IH]; [done|].
  simpl in *. by rewrite IH, Hk.
Qed.

(** Storing the values of an object under their identifiers gives the
    object back, when it was in the order in which an object lists its
    entries. *)
Lemma fromEntries_values {V} (id : V → string) (o : JsObject.t V) :
  JsObject.wf o → Editor.keyed id o → OwnKeys.ownOrder o = o →
  fromEntries id (JsObject.values o) = o.
Proof.
  intros Hwf Hkeyed Horder. unfold fromEntries.
  rewrite (fold_set_fresh id (JsObject.values o) []).
  - simpl. by rewrite keyed_entries.
  - simpl. rewrite <- (keyed_entries id o Hkeyed) in Hwf.
    unfold JsObject.wf, JsObject.keys in Hwf. rewrite map_map in Hwf.
    exact Hwf.
Qed.

(** The loaded map holds the items of the file, each once. *)
Lemma fromEntries_perm {V} (id : V → string) (xs : list V) :
  NoDup (map id xs) → JsObject.values (fromEntries id xs) ≡ₚ xs.
Proof.
  intros Hnd. unfold fromEntries. rewrite values_ownOrder.
  rewrite (fold_set_fresh id xs []) by done. simpl.
  unfold JsObject.values. rewrite map_map. simpl. by rewrite map_id.
Qed.

Lemma keys_set {V} (o : JsObject.t V) k v k' :
  k' ∈ JsObject.keys (JsObject.set o k v) ↔ k' ∈ JsObject.keys o ∨ k' = k.
Proof.
  unfold JsObject.keys. induction o as [|[k0 v0] o IH]; simpl.
  - rewrite list_elem_of_singleton. split; [by right|].
    intros [[]%elem_of_nil|?]. done.
  - destruct (String.eqb k0 k) eqn:Hk; simpl.
    + apply String.eqb_eq in Hk as ->. rewrite !elem_of_cons. tauto.
    + rewrite !elem_of_cons, IH. tauto.
Qed.

Lemma fromEntries_spec {V} (id : V → string) (xs : list V) :
  JsObject.wf (fromEntries id xs) ∧ Editor.keyed id (fromEntries id xs) ∧
  ∀ k, k ∈ JsObject.keys (fromEntries id xs) ↔ k ∈ map id xs.
Proof.
  unfold fromEntries.
  assert (H : ∀ acc : JsObject.t V,
    JsObject.wf acc → Editor.keyed id acc →
    let o := fold_left (fun a x => JsObject.set a (id x) x) xs acc in
    JsObject.wf o ∧ Editor.keyed id o ∧
    ∀ k, k ∈ JsObject.keys o ↔ k ∈ JsObject.keys acc ∨ k ∈ map id xs).
  { induction xs as [|x xs IH]; intros acc Hwf Hkeyed; simpl.
    - split; [done|]. split; [done|]. intros k. split; [by left|].
      intros [?|[]%elem_of_nil]. done.
    - destruct (IH (JsObject.set acc (id x) x)) as (H1 & H2 & H3).
      + by apply wf_set.
      + by apply keyed_set.
      + split; [done|]. split; [done|]. intros k.
        rewrite H3, keys_set, elem_of_cons. tauto. }
  destruct (H []) as (H1 & H2 & H3).
  - apply NoDup_nil_2.
  - constructor.
  - split; [by apply wf_ownOrder|]. split.
    + unfold Editor.keyed in *. apply Forall_forall. intros kv Hkv.
      rewrite ownOrder_perm in Hkv.
      by eapply Forall_forall in H2.
    + intros k. rewrite keys_ownOrder, H3.
      split; [|by right]. intros [[]%elem_of_nil|?]. done.
Qed.

(** On integers the tests of the first pass are those of the integers. *)
Lemma truthy_integer z : JsNumber.truthy (inject_Z z) = negb (z =? 0)%Z.
Proof.
  unfold JsNumber.truthy, Qeq_bool. simpl. by rewrite Z.mul_1_r.
Qed.

Lemma gt_integer z m : JsNumber.gt (inject_Z z) (inject_Z m) = (m <? z)%Z.
Proof.
  unfold JsNumber.gt, Qle_bool. simpl. rewrite !Z.mul_1_r.
  destruct (Z.leb_spec z m), (Z.ltb_spec m z); first [done | lia].
Qed.

Lemma largest_integer m n :
  (∀ q, zIndex n = Num q → ∃ z : Z, q = inject_Z z) →
  ∃ m', largest (inject_Z m) n = inject_Z m' ∧ (m ≤ m')%Z ∧
        (m' = m ∨ zIndex n = Num (inject_Z m')) ∧
        ∀ z, zIndex n = Num (inject_Z z) → (0 ≤ m → z ≤ m')%Z.
Proof.
  intros Hint. unfold largest.
  destruct (zIndex n) as [| |q] eqn:Hq.
  - exists m. split; [done|]. split; [lia|]. split; [by left|]. done.
  - exists m. split; [done|]. split; [lia|]. split; [by left|]. done.
  - destruct (Hint q eq_refl) as [z ->].
    rewrite truthy_integer, gt_integer.
    destruct (z =? 0)%Z eqn:Hz0; simpl.
    + apply Z.eqb_eq in Hz0 as ->. exists m. split; [done|]. split; [lia|].
      split; [by left|]. intros z Hz Hm. injection Hz as Hz. lia.
    + destruct (m <? z)%Z eqn:Hlt.
      * apply Z.ltb_lt in Hlt. exists z. split; [done|]. split; [lia|].
        split; [by right|]. intros z' Hz' _. injection Hz' as Hz'. lia.
      * apply Z.ltb_ge in Hlt. exists m. split; [done|]. split; [lia|].
        split; [by left|]. intros z' Hz' _. injection Hz' as Hz'. lia.
Qed.

Lemma largest_ge nodes : ∀ m,
  Forall (λ n, ∀ q, zIndex n = Num q → ∃ z : Z, q = inject_Z z) nodes →
  ∃ top, fold_left largest nodes (inject_Z m) = inject_Z top ∧
    (m ≤ top)%Z ∧
    (top = m ∨ ∃ n, n ∈ nodes ∧ zIndex n = Num (inject_Z top)) ∧
    ∀ n z, n ∈ nodes → zIndex n = Num (inject_Z z) → (0 ≤ m → z ≤ top)%Z.
Proof.
  induction nodes as [|n nodes IH]; intros m Hint; simpl.
  - exists m. split; [done|]. split; [lia|]. split; [by left|].
    intros n z []%elem_of_nil.
  - apply Forall_cons in Hint as [Hn Hint].
    destruct (largest_integer m n Hn) as (m1 & -> & Hle1 & Hor1 & Hall1).
    destruct (IH m1 Hint) as (top & -> & Hle & Hor & Hall).
    exists top. split; [done|]. split; [lia|]. split.
    + destruct Hor as [->|(n' & Hn' & Hz')].
      * destruct Hor1 as [->|Hz1]; [by left|]. right. exists n. split; [by left|done].
      * right. exists n'. split; [by right|done].
    + intros n' z [->|Hin]%elem_of_cons Hz Hm.
      * specialize (Hall1 z Hz Hm). lia.
      * apply (Hall n' z Hin Hz). lia.
Qed.

End LoaderFacts.

Section StackingFacts.
Import Loader.

(** Below 2^53 the increment of an integer is exact. *)
Lemma succ_exact z :
  (0 ≤ z < 2 ^ 53)%Z → JsNumber.succ (inject_Z z) = inject_Z (z + 1).
Proof.
  intros Hz. unfold JsNumber.succ.
  change 1%Q with (inject_Z 1). rewrite <- inject_Z_plus.
  unfold JsNumber.roundToDouble. cbn [Qden Qnum inject_Z].
  rewrite Pos.eqb_refl. cbn [andb].
  destruct (Z.leb_spec (Z.abs (z + 1)) (2 ^ 53)); [done|lia].
Qed.

Lemma missing_cons n nodes :
  missing (n :: nodes)
  = ((if zIndex n is Absent then 1 else 0) + missing nodes)%Z.
Proof.
  unfold missing. rewrite filter_cons.
  destruct (decide (zIndex n = Absent)) as [H|H].
  - rewrite H. simpl. lia.
  - destruct (zIndex n); [done| |]; simpl; lia.
Qed.

Lemma missing_nonneg nodes : (0 ≤ missing nodes)%Z.
Proof. unfold missing. lia. Qed.

Lemma missing_take k nodes : (missing (take k nodes) ≤ missing nodes)%Z.
Proof.
  revert k. induction nodes as [|n nodes IH]; intros k.
  - rewrite take_nil. lia.
  - destruct k as [|k].
    + pose proof (missing_nonneg (n :: nodes)). assert (missing [] = 0%Z) by done.
      simpl. lia.
    + simpl. rewrite !missing_cons. specialize (IH k). lia.
Qed.

Lemma assign_fold nodes : ∀ acc maxZ,
  (0 ≤ maxZ)%Z → (maxZ + missing nodes ≤ 2 ^ 53)%Z →
  ∃ R,
    fold_left assign nodes (acc, inject_Z maxZ)
    = (acc ++ R, inject_Z (maxZ + missing nodes)) ∧
    length R = length nodes ∧
    ∀ i n, nodes !! i = Some n →
      R !! i
      = Some (mkStoredNode (stored n)
                (match zIndex n with
                 | Absent => Num (inject_Z (maxZ + missing (take (S i) nodes)))
                 | given => given
                 end)).
Proof.
  induction nodes as [|n nodes IH]; intros acc maxZ Hpos Hsafe.
  - exists []. split; [|done]. simpl. rewrite app_nil_r. do 2 f_equal.
    unfold missing. simpl. lia.
  - cbn [fold_left]. unfold assign at 2. rewrite missing_cons in Hsafe |- *.
    pose proof (missing_nonneg nodes) as Hm.
    destruct (zIndex n) as [| |z] eqn:Hz; cbn [fst snd].
    + rewrite succ_exact by lia.
      destruct (IH (acc ++ [mkStoredNode (stored n) (Num (inject_Z (maxZ + 1)))])
                  (maxZ + 1)%Z) as (R & -> & Hlen & Hlook); [lia|lia|].
      exists (mkStoredNode (stored n) (Num (inject_Z (maxZ + 1))) :: R).
      split; [|split].
      * rewrite <- app_assoc. simpl. do 2 f_equal; lia.
      * simpl. by rewrite Hlen.
      * intros [|i] m Hm'.
        -- injection Hm' as <-. rewrite Hz.
           change (take 1 (n :: nodes)) with [n]. rewrite missing_cons, Hz.
           assert (missing [] = 0%Z) as -> by done.
           change ((?x :: R) !! 0%nat) with (Some x). do 4 f_equal; lia.
        -- change ((n :: nodes) !! S i) with (nodes !! i) in Hm'.
           change ((?x :: R) !! S i) with (R !! i).
           change (take (S (S i)) (n :: nodes)) with (n :: take (S i) nodes).
           rewrite (Hlook i m Hm'), missing_cons, Hz.
           destruct (zIndex m); [|done|done]. do 4 f_equal; lia.
    + destruct (IH (acc ++ [n]) maxZ) as (R & -> & Hlen & Hlook); [lia|lia|].
      exists (n :: R). split; [|split].
      * rewrite <- app_assoc. simpl. do 2 f_equal; lia.
      * simpl. by rewrite Hlen.
      * intros [|i] m Hm'.
        -- injection Hm' as <-. change ((n :: R) !! 0%nat) with (Some n).
           rewrite Hz. by destruct n; simpl in *; subst.
        -- change ((n :: nodes) !! S i) with (nodes !! i) in Hm'.
           change ((n :: R) !! S i) with (R !! i).
           change (take (S (S i)) (n :: nodes)) with (n :: take (S i) nodes).
           rewrite (Hlook i m Hm'), missing_cons, Hz.
           destruct (zIndex m); [|done|done]. do 4 f_equal; lia.
    + destruct (IH (acc ++ [n]) maxZ) as (R & -> & Hlen & Hlook); [lia|lia|].
      exists (n :: R). split; [|split].
      * rewrite <- app_assoc. simpl. do 2 f_equal; lia.
      * simpl. by rewrite Hlen.
      * intros [|i] m Hm'.
        -- injection Hm' as <-. change ((n :: R) !! 0%nat) with (Some n).
           rewrite Hz. by destruct n; simpl in *; subst.
        -- change ((n :: nodes) !! S i) with (nodes !! i) in Hm'.
           change ((n :: R) !! S i) with (R !! i).
           change (take (S (S i)) (n :: nodes)) with (n :: take (S i) nodes).
           rewrite (Hlook i m Hm'), missing_cons, Hz.
           destruct (zIndex m); [|done|done]. do 4 f_equal; lia.
Qed.

(** Loading changes nothing of a node but its index. *)
Lemma finalNodes_stored nodes :
  map stored (finalNodes nodes).1 = map stored nodes.
Proof.
  unfold finalNodes. generalize (fold_left largest nodes 0%Q). intros maxZ.
  assert (H : ∀ acc m,
    map stored (fold_left assign nodes (acc, m)).1
    = map stored acc ++ map stored nodes).
  { induction nodes as [|n nodes IH]; intros acc m; simpl.
    - by rewrite app_nil_r.
    - unfold assign at 2. destruct (zIndex n); cbn [fst snd];
        by rewrite IH, fmap_app, <- app_assoc. }
  by rewrite H.
Qed.

Lemma stored_ids_kept nodes k :
  k ∈ map stored_id (finalNodes nodes).1 → k ∈ map stored_id nodes.
Proof.
  unfold stored_id.
  rewrite <- (map_map stored node_id (finalNodes nodes).1).
  rewrite <- (map_map stored node_id nodes).
  by rewrite finalNodes_stored.
Qed.

End StackingFacts.

(** What [finalNodes] computes, entry by entry, for integer indices
    that stay below 2^53. *)
Lemma finalNodes_entries (nodes : list Loader.StoredNode) (top : Z) :
  Forall (λ n, ∀ q, Loader.zIndex n = Loader.Num q → ∃ z : Z, q = inject_Z z)
         nodes →
  fold_left Loader.largest nodes 0%Q = inject_Z top →
  (top + Loader.missing nodes ≤ 2 ^ 53)%Z →
  let final := Loader.finalNodes nodes in
  (0 ≤ top)%Z ∧
  length final.1 = length nodes ∧
  (∀ i n, nodes !! i = Some n →
     final.1 !! i
     = Some (Loader.mkStoredNode (Loader.stored n)
               (match Loader.zIndex n with
                | Loader.Absent =>
                    Loader.Num
                      (inject_Z (top + Loader.missing (take (S i) nodes)))
                | given => given
                end))) ∧
  (∀ n z, n ∈ nodes → Loader.zIndex n = Loader.Num (inject_Z z) →
          (z ≤ top)%Z) ∧
  final.2 = inject_Z (top + Loader.missing nodes).
Proof.
  intros Hint Htop Hsafe final.
  destruct (largest_ge nodes 0%Z Hint) as (top' & Htop' & Hpos & _ & Hall).
  change (inject_Z 0) with 0%Q in Htop'. rewrite Htop in Htop'.
  injection Htop' as <-.
  unfold final, Loader.finalNodes. rewrite Htop.
  destruct (assign_fold nodes [] top) as (R & -> & Hlen & Hlook); [done|done|].
  split; [done|]. split; [done|]. split; [done|]. split; [|done].
  intros n z Hn Hz. by apply (Hall n z Hn Hz).
Qed.

(** X23.  Loading gives the nodes their stacking indices (App.tsx 979-996).
    For a file whose indices are integers, [null] or absent, and as long
    as the largest index plus the number of nodes without one stays
    below 2^53 (where the increments of [maxZ] are exact): a node that
    has an index, or [null], keeps it; the nodes without one are put on
    top, in file order, above every index of the file (the k-th of them
    gets the largest index present, or 0, plus k); and the counter for
    new nodes ends above every index, so a node added later is on
    top. *)
Theorem finalNodes_stacking (nodes : list Loader.StoredNode) (top : Z) :
  Forall (λ n, ∀ q, Loader.zIndex n = Loader.Num q → ∃ z : Z, q = inject_Z z)
         nodes →
  fold_left Loader.largest nodes 0%Q = inject_Z top →
  (top + Loader.missing nodes < 2 ^ 53)%Z →
  let final := Loader.finalNodes nodes in
  length final.1 = length nodes ∧
  (∀ i n, nodes !! i = Some n →
     final.1 !! i
     = Some (Loader.mkStoredNode (Loader.stored n)
               (match Loader.zIndex n with
                | Loader.Absent =>
                    Loader.Num
                      (inject_Z (top + Loader.missing (take (S i) nodes)))
                | given => given
                end))) ∧
  (∀ n z, n ∈ nodes → Loader.zIndex n = Loader.Num (inject_Z z) →
          (z ≤ top)%Z) ∧
  JsNumber.succ final.2 = inject_Z (top + Loader.missing nodes + 1) ∧
  Forall (λ n', ∀ z, Loader.zIndex n' = Loader.Num (inject_Z z) →
                     (z < top + Loader.missing nodes + 1)%Z) final.1.
Proof.
  intros Hint Htop Hsafe final.
  destruct (finalNodes_entries nodes top Hint Htop)
    as (Hpos & Hlen & Hlook & Hall & Hcount); [lia|].
  fold final in Hlen, Hlook, Hcount.
  pose proof (missing_nonneg nodes) as Hmiss.
  split; [done|]. split; [done|]. split; [done|]. split.
  { rewrite Hcount. apply succ_exact. lia. }
  apply Forall_forall. intros n' Hn' z Hz'.
  apply list_elem_of_lookup in Hn' as [i Hi].
  assert (Hlt : (i < length nodes)%nat).
  { rewrite <- Hlen. by eapply lookup_lt_Some. }
  apply lookup_lt_is_Some in Hlt as [n Hn].
  rewrite (Hlook i n Hn) in Hi. injection Hi as <-. simpl in Hz'.
  pose proof (missing_take (S i) nodes).
  destruct (Loader.zIndex n) as [| |q] eqn:Hq; [|done|].
  - injection Hz' as Hz'. lia.
  - injection Hz' as ->.
    assert (z ≤ top)%Z; [|lia].
    eapply Hall; [|done]. by eapply list_elem_of_lookup_2.
Qed.

Lemma finalNodes_stacking_witness :
  (Loader.finalNodes Scenarios.stackedFile).1 !! 3%nat
  = Some (Loader.mkStoredNode (Examples.outputDisplay "o") (Loader.Num 7)).
Proof.
  assert (Hint : Forall (λ n, ∀ q, Loader.zIndex n = Loader.Num q →
                              ∃ z : Z, q = inject_Z z)
                        Scenarios.stackedFile).
  { repeat constructor; intros q Hq; try done.
    injection Hq as <-. by exists 5%Z. }
  assert (Htop : fold_left Loader.largest Scenarios.stackedFile 0%Q
                 = inject_Z 5) by reflexivity.
  assert (Hsafe : (5 + Loader.missing Scenarios.stackedFile < 2 ^ 53)%Z)
    by (by vm_compute).
  exact (proj1 (proj2 (finalNodes_stacking Scenarios.stackedFile 5
                         Hint Htop Hsafe))
           3%nat (Loader.mkStoredNode (Examples.outputDisplay "o") Loader.Absent)
           eq_refl).
Defined.

(** At 2^53 the increment of [maxZ] changes nothing: the two nodes
    without an index get the same one, which the node that had it keeps,
    and the counter is not above them. *)
Lemma stacking_at_2_53 :
  let nodes :=
    [Loader.mkStoredNode (Examples.textInput "t" "a cat")
       (Loader.Num 9007199254740992);
     Loader.mkStoredNode (Examples.textGenerator "g" false) Loader.Absent;
     Loader.mkStoredNode (Examples.outputDisplay "o") Loader.Absent] in
  map Loader.zIndex (Loader.finalNodes nodes).1
  = [Loader.Num 9007199254740992; Loader.Num 9007199254740992;
     Loader.Num 9007199254740992] ∧
  JsNumber.succ (Loader.finalNodes nodes).2 = 9007199254740992%Q.
Proof. by vm_compute. Qed.

Section RoundTripFacts.
Import Loader.

Lemma assign_complete nodes maxZ :
  Forall (λ n, zIndex n ≠ Absent) nodes →
  ∀ acc, fold_left assign nodes (acc, maxZ) = (acc ++ nodes, maxZ).
Proof.
  induction 1 as [|n nodes Hn _ IH]; intros acc; simpl.
  - by rewrite app_nil_r.
  - unfold assign at 2. destruct (zIndex n) eqn:Hz; [done| |];
      cbn [fst snd]; by rewrite IH, <- app_assoc.
Qed.

(** A file in which every node has an index is loaded as it is. *)
Lemma finalNodes_complete nodes :
  Forall (λ n, zIndex n ≠ Absent) nodes →
  finalNodes nodes = (nodes, fold_left largest nodes 0%Q).
Proof.
  intros Hall. unfold finalNodes. by rewrite assign_complete.
Qed.

End RoundTripFacts.

(** X24.  Saving and loading again gives back the workflow: when the JSON
    text renders the saved object faithfully, every map holds each item
    once under its own identifier, in the order in which an object lists
    its entries, and every node has a stacking index (a number or
    [null]), [handleFileChange] applied to what [downloadWorkflow]
    produced restores the nodes, edges, groups and history exactly, in
    their order; and when the indices are integers below 2^53 it sets
    the counter above every index. *)
Theorem save_load_roundtrip (JSON_stringify : Loader.File → string)
    (JSON_parse : string → option Loader.File) (st st0 : Loader.State) :
  JSON_parse (JSON_stringify (Loader.workflowOf st))
    = Some (Loader.workflowOf st) →
  JsObject.wf (Loader.s_nodes st) →
  Editor.keyed Loader.stored_id (Loader.s_nodes st) →
  OwnKeys.ownOrder (Loader.s_nodes st) = Loader.s_nodes st →
  JsObject.wf (Loader.s_edges st) →
  Editor.keyed edge_id (Loader.s_edges st) →
  OwnKeys.ownOrder (Loader.s_edges st) = Loader.s_edges st →
  JsObject.wf (Loader.s_groups st) →
  Editor.keyed Editor.group_id (Loader.s_groups st) →
  OwnKeys.ownOrder (Loader.s_groups st) = Loader.s_groups st →
  Forall (λ n, Loader.zIndex n ≠ Loader.Absent)
         (JsObject.values (Loader.s_nodes st)) →
  let st' :=
    Loader.handleFileChange JSON_parse
      (Loader.downloadWorkflow JSON_stringify st) st0 in
  Loader.s_nodes st' = Loader.s_nodes st ∧
  Loader.s_edges st' = Loader.s_edges st ∧
  Loader.s_groups st' = Loader.s_groups st ∧
  Loader.s_history st' = Loader.s_history st ∧
  (Forall (λ n, ∀ q, Loader.zIndex n = Loader.Num q →
                     ∃ z : Z, q = inject_Z z ∧ (z < 2 ^ 53)%Z)
          (JsObject.values (Loader.s_nodes st)) →
   Forall (λ n, ∀ q, Loader.zIndex n = Loader.Num q →
                     (q < Loader.s_zIndexCounter st')%Q)
          (JsObject.values (Loader.s_nodes st'))).
Proof.
  intros Hjson Hwn Hkn Hon Hwe Hke Hoe Hwg Hkg Hog Hz st'.
  unfold st', Loader.handleFileChange, Loader.downloadWorkflow.
  rewrite Hjson. cbn [Loader.workflowOf Loader.file_nodes Loader.file_edges
                      Loader.file_groups Loader.file_history].
  cbv zeta. cbn [Loader.s_nodes Loader.s_edges Loader.s_groups Loader.s_history
                 Loader.s_zIndexCounter default].
  rewrite finalNodes_complete by done. cbn [fst snd].
  rewrite !fromEntries_values by done.
  repeat (split; [done|]).
  intros Hsmall.
  set (nodes := JsObject.values (Loader.s_nodes st)) in *.
  assert (Hint : Forall (λ n, ∀ q, Loader.zIndex n = Loader.Num q →
                              ∃ z : Z, q = inject_Z z) nodes).
  { eapply Forall_impl; [exact Hsmall|]. intros n Hn q Hq.
    destruct (Hn q Hq) as (z & -> & _). by exists z. }
  destruct (largest_ge nodes 0%Z Hint) as (top & Htop & Hpos & Hor & Hall).
  change (inject_Z 0) with 0%Q in Htop. rewrite Htop.
  assert (Hbound : (top < 2 ^ 53)%Z).
  { destruct Hor as [->|(n & Hn & Hq)]; [done|].
    eapply Forall_forall in Hsmall; [|exact Hn].
    destruct (Hsmall _ Hq) as (z & Hz' & Hlt). by injection Hz' as ->. }
  rewrite succ_exact by lia.
  apply Forall_forall. intros n Hn q Hq.
  eapply Forall_forall in Hsmall; [|exact Hn].
  destruct (Hsmall q Hq) as (z & -> & _).
  rewrite <- Zlt_Qlt.
  assert (z ≤ top)%Z; [|lia]. by apply (Hall n z Hn Hq).
Qed.

Lemma save_load_roundtrip_witness :
  Loader.s_nodes
    (Loader.handleFileChange (λ _, Some (Loader.workflowOf Scenarios.savedState))
       (Loader.downloadWorkflow (λ _, "workflow.json") Scenarios.savedState)
       (Loader.mkState [] [] [] [] 1))
  = Loader.s_nodes Scenarios.savedState.
Proof.
  refine (proj1 (save_load_roundtrip (λ _, "workflow.json")
                   (λ _, Some (Loader.workflowOf Scenarios.savedState))
                   Scenarios.savedState (Loader.mkState [] [] [] [] 1)
                   eq_refl _ _ eq_refl _ _ eq_refl _ _ eq_refl _)).
  - decide_by_compute.
  - unfold Editor.keyed. decide_by_compute.
  - decide_by_compute.
  - unfold Editor.keyed. decide_by_compute.
  - decide_by_compute.
  - unfold Editor.keyed. decide_by_compute.
  - repeat constructor; done.
Defined.

(** X25.  Loading checks nothing about the edges: a file with an edge whose
    source node is not among its nodes is accepted, the loaded edge map
    holds every edge of the file (in file order when no edge identifier
    is an array index), and running the loaded workflow then raises the
    scheduler's TypeError, which leaves the processing flag set. *)
Theorem loaded_dangling_edge_crashes (env : Env) (geminiService : Service)
    (JSON_parse : string → option Loader.File) (text : string)
    (st : Loader.State) (file : Loader.File)
    (nodes : list Loader.StoredNode) (edges : list Edge) (e : Edge)
    (w : Workflow.World) :
  JSON_parse text = Some file →
  Loader.file_nodes file = Some nodes →
  Loader.file_edges file = Some edges →
  NoDup (map edge_id edges) →
  e ∈ edges →
  sourceNodeId e ∉ map Loader.stored_id nodes →
  let st' := Loader.handleFileChange JSON_parse text st in
  Workflow.w_nodes w = Loader.graph st' →
  JsObject.values (Loader.s_edges st') ≡ₚ edges ∧
  (Forall (λ x, OwnKeys.arrayIndex (edge_id x) = None) edges →
   JsObject.values (Loader.s_edges st') = edges) ∧
  Workflow.runWorkflow env geminiService (Loader.s_edges st') w
  = (Workflow.Crashed TypeError, Workflow.startRun w) ∧
  Workflow.w_isProcessing (Workflow.startRun w) = true.
Proof.
  intros Hparse Hnodes Hedges Hnd He Hsrc st' Hw.
  assert (Hst : st' = Loader.mkState
                        (Loader.fromEntries Loader.stored_id
                           (Loader.finalNodes nodes).1)
                        (Loader.fromEntries edge_id edges)
                        (match Loader.file_groups file with
                         | Some groups => Loader.fromEntries Editor.group_id groups
                         | None => []
                         end)
                        (default [] (Loader.file_history file))
                        (JsNumber.succ (Loader.finalNodes nodes).2)).
  { unfold st', Loader.handleFileChange. by rewrite Hparse, Hnodes, Hedges. }
  assert (Hvalues : JsObject.values (Loader.s_edges st') ≡ₚ edges).
  { rewrite Hst. cbn [Loader.s_edges]. by apply fromEntries_perm. }
  split; [exact Hvalues|]. split; [|split; [|done]].
  { intros Hplain. rewrite Hst. cbn [Loader.s_edges]. unfold Loader.fromEntries.
    rewrite (fold_set_fresh edge_id edges []) by done. simpl.
    rewrite ownOrder_plain.
    - unfold JsObject.values. rewrite map_map. simpl. by rewrite map_id.
    - apply Forall_fmap. eapply Forall_impl; [exact Hplain|]. done. }
  unfold Workflow.runWorkflow.
  rewrite executionOrder_raises; [done|].
  exists e. rewrite Hvalues. split; [done|].
  rewrite Hw, Hst. unfold Loader.graph. cbn [Loader.s_nodes].
  intros Hin. apply Hsrc.
  unfold JsObject.keys in Hin. rewrite map_map in Hin. cbn [fst] in Hin.
  change (map (λ x : string * Loader.StoredNode, x.1)
              (Loader.fromEntries Loader.stored_id (Loader.finalNodes nodes).1))
    with (JsObject.keys (Loader.fromEntries Loader.stored_id
                           (Loader.finalNodes nodes).1)) in Hin.
  apply (proj2 (proj2 (fromEntries_spec Loader.stored_id _))) in Hin.
  apply list_elem_of_fmap in Hin as (n' & -> & Hn').
  apply (stored_ids_kept nodes). by apply list_elem_of_fmap_2.
Qed.

Lemma loaded_dangling_edge_crashes_witness :
  Workflow.runWorkflow (Examples.sampleEnv true) Examples.mockService
    (Loader.s_edges
       (Loader.handleFileChange (λ _, Some Scenarios.brokenFile) "{...}"
          (Loader.mkState [] [] [] [] 1)))
    (Examples.world [("g", Examples.textGenerator "g" false)])
  = (Workflow.Crashed TypeError,
     Workflow.startRun (Examples.world [("g", Examples.textGenerator "g" false)])).
Proof.
  refine (proj1 (proj2 (proj2 (loaded_dangling_edge_crashes
            (Examples.sampleEnv true)
            Examples.mockService (λ _, Some Scenarios.brokenFile) "{...}"
            (Loader.mkState [] [] [] [] 1) Scenarios.brokenFile
            [Loader.mkStoredNode (Examples.textGenerator "g" false) Loader.Absent]
            [mkEdge "e1" "ghost" "ghost-output" "g" "g-input"]
            (mkEdge "e1" "ghost" "ghost-output" "g" "g-input")
            (Examples.world [("g", Examples.textGenerator "g" false)])
            eq_refl eq_refl eq_refl _ _ _ _)))).
  - decide_by_compute.
  - by left.
  - decide_by_compute.
  - vm_compute. reflexivity.
Defined.

(** ** Data URLs and colours *)
Section SplitFacts.

Lemma includes_char_cons c a s :
  JsString.includes (String a s) (String c "") = false ↔
  c ≠ a ∧ JsString.includes s (String c "") = false.
Proof.
  cbn [JsString.includes String.prefix].
  destruct (ascii_dec c a) as [->|Hne].
  - assert (String.prefix "" s = true) as -> by (by destruct s).
    simpl. split; [done|]. by intros [? _].
  - simpl. split; [done|]. by intros [_ ?].
Qed.

Lemma includes_char_append c a b :
  JsString.includes a (String c "") = false →
  JsString.includes b (String c "") = false →
  JsString.includes (a +:+ b) (String c "") = false.
Proof.
  intros Ha Hb. induction a as [|x a IH]; [done|].
  apply includes_char_cons in Ha as [Hne Ha]. rewrite append_cons.
  apply includes_char_cons. auto.
Qed.

Lemma split_without sep s :
  JsString.includes s (String sep "") = false → JsString.split s sep = [s].
Proof.
  induction s as [|a s IH]; [done|].
  intros [Hne Hs]%includes_char_cons. cbn [JsString.split].
  rewrite (proj2 (Ascii.eqb_neq a sep)) by done.
  by rewrite IH.
Qed.

Lemma split_at sep a b :
  JsString.includes a (String sep "") = false →
  JsString.split (a +:+ String sep b) sep = a :: JsString.split b sep.
Proof.
  induction a as [|c a IH].
  - intros _. change ("" +:+ String sep b) with (String sep b).
    cbn [JsString.split]. by rewrite Ascii.eqb_refl.
  - intros [Hne Ha]%includes_char_cons. rewrite append_cons.
    cbn [JsString.split]. rewrite (proj2 (Ascii.eqb_neq c sep)) by done.
    by rewrite IH.
Qed.

End SplitFacts.

(** X26.  The image an editor, generator or preset node puts out is read back
    by the next node as the same image: [processImageInput]
    (App.tsx 562-574) applied to the data URL
    [data:<mimeType>;base64,<data>] gives back the MIME type and the
    data, for an image MIME type without [,], [:] or [;] and data
    without [,]. *)
Theorem dataUrl_roundtrip (mimeType base64 : string) :
  JsString.startsWith mimeType "image" = true →
  JsString.includes mimeType "," = false →
  JsString.includes mimeType ":" = false →
  JsString.includes mimeType ";" = false →
  JsString.includes base64 "," = false →
  Workflow.processImageInput
    (VString ("data:" +:+ mimeType +:+ ";base64," +:+ base64))
  = Some (mkImageFile (Some base64) mimeType).
Proof.
  intros Himage Hcomma Hcolon Hsemi Hdata.
  unfold Workflow.processImageInput.
  assert (Hstart : JsString.nonEmpty ("data:" +:+ mimeType +:+ ";base64," +:+ base64)
                   && JsString.startsWith
                        ("data:" +:+ mimeType +:+ ";base64," +:+ base64)
                        "data:image" = true).
  { unfold JsString.startsWith in *.
    apply prefix_inv in Himage as [m ->].
    change ("data:" +:+ ("image" +:+ m) +:+ ";base64," +:+ base64)
      with ("data:image" +:+ (m +:+ ";base64," +:+ base64)).
    by rewrite prefix_append. }
  rewrite Hstart. cbv zeta.
  assert (Hmeta : JsString.includes ("data:" +:+ mimeType +:+ ";base64") ","
                  = false).
  { apply includes_char_append; [done|]. by apply includes_char_append. }
  assert (Hpieces :
    JsString.split ("data:" +:+ mimeType +:+ ";base64," +:+ base64) ","
    = ["data:" +:+ mimeType +:+ ";base64"; base64]).
  { replace ("data:" +:+ mimeType +:+ ";base64," +:+ base64)
      with (("data:" +:+ mimeType +:+ ";base64") +:+ String "," base64)
      by (by rewrite !append_assoc).
    by rewrite split_at, split_without. }
  rewrite Hpieces. cbn [lookup list_lookup default from_option id].
  change ("data:" +:+ mimeType +:+ ";base64")
    with ("data" +:+ String ":" (mimeType +:+ ";base64")).
  rewrite split_at by done.
  rewrite (split_without ":" (mimeType +:+ ";base64"))
    by (by apply includes_char_append).
  cbn [lookup list_lookup default from_option id].
  replace (mimeType +:+ ";base64") with (mimeType +:+ String ";" "base64")
    by done.
  rewrite split_at by done. done.
Qed.

Lemma dataUrl_roundtrip_witness :
  Workflow.processImageInput
    (VString ("data:" +:+ "image/png" +:+ ";base64," +:+ "IMGY"))
  = Some (mkImageFile (Some "IMGY") "image/png").
Proof.
  apply (dataUrl_roundtrip "image/png" "IMGY"); vm_compute; reflexivity.
Defined.

Section ColorFacts.
Import Color.

Lemma toHex_parse (c : N) :
  (c < 256)%N →
  ∃ x y, toHex c = String x (String y "") ∧ parsePair x y = Some c.
Proof.
  intros Hc.
  assert (Hall :
    forallb (λ c, match toHex c with
                  | String x (String y "") =>
                      bool_decide (parsePair x y = Some c)
                  | _ => false
                  end) (map N.of_nat (seq 0 256)) = true)
    by (vm_compute; reflexivity).
  rewrite forallb_forall in Hall.
  specialize (Hall c). 
  assert (Hin : In c (map N.of_nat (seq 0 256))).
  { apply in_map_iff. exists (N.to_nat c). split; [lia|].
    apply in_seq. lia. }
  apply Hall in Hin.
  destruct (toHex c) as [|x [|y [|z s]]]; try done.
  apply bool_decide_eq_true in Hin. by exists x, y.
Qed.

End ColorFacts.

(** X27.  The colour written by the theme migration is read back unchanged:
    for channel values from 0 to 255, [hexToRgb] (App.tsx 99-109)
    applied to ['#' + toHex(r) + toHex(g) + toHex(b)] (App.tsx 1009-1010)
    gives [{r, g, b}]. *)
Theorem hex_roundtrip (r g b : N) :
  (r < 256)%N → (g < 256)%N → (b < 256)%N →
  Color.hexToRgb ("#" +:+ Color.toHex r +:+ Color.toHex g +:+ Color.toHex b)
  = Some (r, g, b).
Proof.
  intros Hr Hg Hb.
  destruct (toHex_parse r Hr) as (r1 & r2 & -> & Hpr).
  destruct (toHex_parse g Hg) as (g1 & g2 & -> & Hpg).
  destruct (toHex_parse b Hb) as (b1 & b2 & -> & Hpb).
  rewrite !append_cons, !append_nil_l.
  cbv beta iota zeta delta [Color.hexToRgb].
  by rewrite Hpr, Hpg, Hpb.
Qed.

Lemma hex_roundtrip_witness :
  Color.hexToRgb ("#" +:+ Color.toHex 26 +:+ Color.toHex 255 +:+ Color.toHex 0)
  = Some (26%N, 255%N, 0%N).
Proof. apply (hex_roundtrip 26 255 0); reflexivity. Defined.

(** ** Copy and paste *)
Section PasteFacts.
Import Clipboard.
Variable uuid : nat → string.

Lemma merge_fresh {V} (added : JsObject.t V) : ∀ prev : JsObject.t V,
  NoDup (JsObject.keys prev ++ JsObject.keys added) →
  merge prev added = prev ++ added.
Proof.
  unfold merge. induction added as [|[k v] added IH]; intros prev Hnd.
  - by rewrite app_nil_r.
  - cbn [fold_left fst snd]. rewrite set_fresh.
    + rewrite IH; [by rewrite <- app_assoc|].
      unfold JsObject.keys in *. rewrite fmap_app, <- app_assoc. exact Hnd.
    + apply NoDup_app in Hnd as (_ & Hdisj & _). intros Hin.
      apply (Hdisj _ Hin). by left.
Qed.

Lemma add_fresh s x : x ∉ s → Editor.add s x = s ++ [x].
Proof. intros Hx. unfold Editor.add. by rewrite bool_decide_eq_false_2. Qed.

Lemma pasteNodes_fold ns : ∀ st,
  NoDup (JsObject.keys (newNodes st) ++ map uuid (seq (uuids st) (length ns))) →
  NoDup (newSelectedIds st ++ map uuid (seq (uuids st) (length ns))) →
  let st' := fold_left (pasteNode uuid) ns st in
  uuids st' = (uuids st + length ns)%nat ∧
  newEdges st' = newEdges st ∧
  newNodes st'
  = newNodes st ++
    imap (λ i n, (uuid (uuids st + i), pastedNode (uuid (uuids st + i)) n)) ns ∧
  newSelectedIds st'
  = newSelectedIds st ++ map uuid (seq (uuids st) (length ns)) ∧
  (∀ i n, ns !! i = Some n →
          node_id n ∉ map node_id (drop (S i) ns) →
          idMap st' !! node_id n = Some (uuid (uuids st + i))) ∧
  (∀ k, k ∉ map node_id ns → idMap st' !! k = idMap st !! k).
Proof.
  induction ns as [|n ns IH]; intros st Hn Hs.
  - simpl. rewrite Nat.add_0_r, !app_nil_r. repeat split; done.
  - cbn [fold_left]. cbn [length seq map] in Hn, Hs.
    assert (Hfresh1 : uuid (uuids st) ∉ JsObject.keys (newNodes st)).
    { apply NoDup_app in Hn as (_ & Hdisj & _). intros Hin.
      apply (Hdisj _ Hin). by left. }
    assert (Hfresh2 : uuid (uuids st) ∉ newSelectedIds st).
    { apply NoDup_app in Hs as (_ & Hdisj & _). intros Hin.
      apply (Hdisj _ Hin). by left. }
    assert (E1 : uuids (pasteNode uuid st n) = S (uuids st)) by done.
    assert (E2 : newEdges (pasteNode uuid st n) = newEdges st) by done.
    assert (E3 : newNodes (pasteNode uuid st n)
                 = newNodes st ++
                   [(uuid (uuids st), pastedNode (uuid (uuids st)) n)]).
    { unfold pasteNode. cbn [newNodes]. by rewrite set_fresh. }
    assert (E4 : newSelectedIds (pasteNode uuid st n)
                 = newSelectedIds st ++ [uuid (uuids st)]).
    { unfold pasteNode. cbn [newSelectedIds]. by rewrite add_fresh. }
    assert (E5 : idMap (pasteNode uuid st n)
                 = <[node_id n := uuid (uuids st)]> (idMap st)) by done.
    destruct (IH (pasteNode uuid st n)) as (H1 & H2 & H3 & H4 & H5 & H6).
    { rewrite E1, E3. unfold JsObject.keys in *.
      rewrite fmap_app, <- app_assoc. exact Hn. }
    { rewrite E1, E4. rewrite <- app_assoc. exact Hs. }
    cbv zeta. rewrite H1, H2, H3, H4, E1, E2, E3, E4.
    rewrite E1 in H5. rewrite E5 in H6.
    split; [simpl; lia|]. split; [done|]. split; [|split; [|split]].
    + rewrite <- app_assoc. f_equal. cbn [imap app]. rewrite Nat.add_0_r.
      f_equal. apply imap_ext. intros i x _. simpl.
      by rewrite Nat.add_succ_r.
    + by rewrite <- app_assoc.
    + intros [|i] m Hm Hlater.
      * injection Hm as <-. rewrite H6 by done.
        rewrite Nat.add_0_r. apply lookup_insert_eq.
      * rewrite (H5 i m Hm Hlater). f_equal. f_equal. lia.
    + intros k Hk. cbn [map] in Hk. apply not_elem_of_cons in Hk as [Hne Hk].
      rewrite (H6 k Hk). by apply lookup_insert_ne.
Qed.

(** The pasted edge of [e], stored under [newEdgeId]. *)
Lemma pasteEdges_fold (m : gmap string string) es : ∀ st,
  idMap st = m →
  (∀ e, e ∈ es → is_Some (m !! sourceNodeId e) ∧ is_Some (m !! targetNodeId e)) →
  NoDup (JsObject.keys (newEdges st) ++ map uuid (seq (uuids st) (length es))) →
  ∃ pasted,
    fold_left (pasteEdge uuid) es (Some st)
    = Some (mkPasting m (newNodes st)
              (newEdges st ++ map (λ e, (edge_id e, e)) pasted)
              (newSelectedIds st) (uuids st + length es)) ∧
    Forall2 (λ e e',
               ∃ s t, m !! sourceNodeId e = Some s ∧
                      m !! targetNodeId e = Some t ∧
                      sourceNodeId e' = s ∧ targetNodeId e' = t ∧
                      sourceHandleId e'
                      = replace (sourceHandleId e) (sourceNodeId e) s ∧
                      targetHandleId e'
                      = replace (targetHandleId e) (targetNodeId e) t)
            es pasted ∧
    map edge_id pasted = map uuid (seq (uuids st) (length es)).
Proof.
  induction es as [|e es IH]; intros st Hm Hclosed Hnd.
  - exists []. simpl. rewrite Nat.add_0_r, app_nil_r. split; [|done].
    destruct st; simpl in *. by subst.
  - cbn [length seq map] in Hnd.
    assert (Hfresh : uuid (uuids st) ∉ JsObject.keys (newEdges st)).
    { apply NoDup_app in Hnd as (_ & Hdisj & _). intros Hin.
      apply (Hdisj _ Hin). by left. }
    destruct (Hclosed e) as [[s Hs] [t Ht]]; [by left|].
    cbn [fold_left]. unfold pasteEdge at 2. rewrite Hm, Hs, Ht. cbv zeta.
    rewrite set_fresh by done.
    match goal with
    | |- context [fold_left _ es (Some ?st1)] =>
        destruct (IH st1) as (pasted & -> & Hrel & Hids)
    end.
    + done.
    + intros e' He'. apply Hclosed. by right.
    + cbn [newEdges uuids]. unfold JsObject.keys in *.
      rewrite fmap_app, <- app_assoc. exact Hnd.
    + cbn [newEdges newNodes newSelectedIds uuids] in *.
      exists (mkEdge (uuid (uuids st)) s
                (replace (sourceHandleId e) (sourceNodeId e) s) t
                (replace (targetHandleId e) (targetNodeId e) t) :: pasted).
      split; [|split].
      * replace (S (uuids st) + length es)%nat
          with (uuids st + length (e :: es))%nat by (simpl; lia).
        by rewrite <- app_assoc.
      * constructor; [|exact Hrel]. by exists s, t.
      * cbn [map edge_id]. by rewrite Hids.
Qed.

End PasteFacts.

Section PasteWiring.
Import Clipboard.

Lemma Forall2_elem_r {A B} (P : A → B → Prop) l k y :
  Forall2 P l k → y ∈ k → ∃ x, x ∈ l ∧ P x y.
Proof.
  induction 1 as [|x y' l k HP _ IH]; intros Hy.
  - by apply elem_of_nil in Hy.
  - apply elem_of_cons in Hy as [->|Hy].
    + exists x. split; [by left|done].
    + destruct (IH Hy) as (x' & Hx' & HP'). exists x'. split; [by right|done].
Qed.

Lemma NoDup_later (ns : list Node) i a :
  NoDup (map node_id ns) → ns !! i = Some a →
  node_id a ∉ map node_id (drop (S i) ns).
Proof.
  intros Hnd Hi. rewrite <- (take_drop_middle ns i a Hi) in Hnd.
  rewrite fmap_app, fmap_cons in Hnd.
  apply NoDup_app in Hnd as (_ & _ & Hnd).
  by apply NoDup_cons in Hnd as [Hfresh _].
Qed.

Lemma pasted_ids (uuid : nat → string) drawn (ns : list Node) :
  map node_id (imap (λ i n, pastedNode (uuid (drawn + i)%nat) n) ns)
  = map uuid (seq drawn (length ns)).
Proof.
  apply list_eq. intros i.
  rewrite !list_lookup_fmap, list_lookup_imap.
  destruct (ns !! i) as [n|] eqn:Hn; simpl.
  - rewrite lookup_seq_lt by (by eapply lookup_lt_Some). done.
  - rewrite lookup_seq_ge by (by apply lookup_ge_None). done.
Qed.

Lemma pasted_entries (uuid : nat → string) drawn (ns : list Node) :
  imap (λ i n, (uuid (drawn + i)%nat, pastedNode (uuid (drawn + i)%nat) n)) ns
  = map (λ n, (node_id n, n))
        (imap (λ i n, pastedNode (uuid (drawn + i)%nat) n) ns).
Proof.
  apply list_eq. intros i.
  rewrite list_lookup_fmap, !list_lookup_imap.
  by destruct (ns !! i).
Qed.

End PasteWiring.

(** X28.  Pasting keeps the wiring (App.tsx 867-913): with fresh, distinct
    identifiers from [crypto.randomUUID()], the clipboard's nodes and
    edges are added after the existing ones, which stay as they are, and
    the pasted nodes become the selection.  The i-th pasted node is the
    copy of the i-th clipboard node under the i-th new identifier, with
    its ports renamed.  The k-th pasted edge is the copy of the k-th
    clipboard edge: where that edge joined the output port [p] of the
    i-th node to the input port [q] of the j-th node, its copy joins the
    copy of [p] on the i-th pasted node to the copy of [q] on the j-th
    pasted node. *)
Theorem paste_keeps_wiring (crypto_randomUUID : nat → string)
    (nodesToPaste : list Node) (edgesToPaste : list Edge)
    (nodes : JsObject.t Node) (edges : JsObject.t Edge)
    (selectedNodeIds : list string) (drawn : nat) :
  NoDup (map node_id nodesToPaste) →
  NoDup (JsObject.keys nodes ++
         map crypto_randomUUID (seq drawn (length nodesToPaste))) →
  NoDup (JsObject.keys edges ++
         map crypto_randomUUID
             (seq (drawn + length nodesToPaste) (length edgesToPaste))) →
  Forall (Clipboard.wired nodesToPaste) edgesToPaste →
  ∃ pastedEdges,
    let newId (i : nat) := crypto_randomUUID (drawn + i)%nat in
    let pastedNodes :=
      imap (λ i n, Clipboard.pastedNode (newId i) n) nodesToPaste in
    Clipboard.paste crypto_randomUUID (Some (nodesToPaste, edgesToPaste))
                    nodes edges selectedNodeIds drawn
    = Some (nodes ++ map (λ n, (node_id n, n)) pastedNodes,
            edges ++ map (λ e, (edge_id e, e)) pastedEdges,
            map node_id pastedNodes,
            (drawn + length nodesToPaste + length edgesToPaste)%nat) ∧
    length pastedEdges = length edgesToPaste ∧
    (∀ k e i j a b p q,
       edgesToPaste !! k = Some e →
       nodesToPaste !! i = Some a → nodesToPaste !! j = Some b →
       p ∈ outputs (data a) → q ∈ inputs (data b) →
       sourceNodeId e = node_id a → sourceHandleId e = port_id p →
       targetNodeId e = node_id b → targetHandleId e = port_id q →
       pastedEdges !! k
       = Some (mkEdge (newId (length nodesToPaste + k))
                 (newId i)
                 (port_id (Clipboard.renamePort (node_id a) (newId i) p))
                 (newId j)
                 (port_id (Clipboard.renamePort (node_id b) (newId j) q)))) ∧
    Forall (Clipboard.wired pastedNodes) pastedEdges.
Proof.
  intros Hids Hfresh_n Hfresh_e Hwired.
  set (st0 := Clipboard.mkPasting ∅ [] [] [] drawn).
  destruct (pasteNodes_fold crypto_randomUUID nodesToPaste st0)
    as (H1 & H2 & H3 & H4 & H5 & H6).
  { simpl. by apply NoDup_app in Hfresh_n as (_ & _ & ?). }
  { simpl. by apply NoDup_app in Hfresh_n as (_ & _ & ?). }
  cbv zeta in H1, H2, H3, H4, H5, H6.
  set (st1 := fold_left (Clipboard.pasteNode crypto_randomUUID) nodesToPaste st0)
    in *.
  cbn [st0 Clipboard.uuids Clipboard.newEdges Clipboard.newNodes
       Clipboard.newSelectedIds app] in H1, H2, H3, H4, H5.
  assert (Hat : ∀ i a, nodesToPaste !! i = Some a →
            Clipboard.idMap st1 !! node_id a
            = Some (crypto_randomUUID (drawn + i)%nat)).
  { intros i a Hi. apply H5; [done|]. by apply NoDup_later. }
  assert (Hmap : ∀ a, a ∈ nodesToPaste →
            ∃ i, nodesToPaste !! i = Some a ∧
                 Clipboard.idMap st1 !! node_id a
                 = Some (crypto_randomUUID (drawn + i)%nat)).
  { intros a Ha. apply list_elem_of_lookup in Ha as [i Hi]. exists i.
    split; [done|]. by apply Hat. }
  destruct (pasteEdges_fold crypto_randomUUID (Clipboard.idMap st1)
              edgesToPaste st1 eq_refl) as (pasted & Hfold & Hrel & Hpids).
  { intros e He. eapply Forall_forall in Hwired; [|exact He].
    destruct Hwired as (a & b & p & q & Ha & Hb & _ & _ & Hs & _ & Ht & _).
    destruct (Hmap a Ha) as (i & _ & Hi). destruct (Hmap b Hb) as (j & _ & Hj).
    rewrite Hs, Ht, Hi, Hj. eauto. }
  { rewrite H2, H1. simpl. by apply NoDup_app in Hfresh_e as (_ & _ & ?). }
  exists pasted. cbv zeta. split; [|split; [|split]].
  - unfold Clipboard.paste. fold st0. fold st1. rewrite Hfold.
    cbn [Clipboard.newNodes Clipboard.newEdges Clipboard.newSelectedIds
         Clipboard.uuids].
    rewrite H1, H2, H3, H4. cbn [app].
    rewrite !merge_fresh.
    + by rewrite pasted_entries, pasted_ids.
    + unfold JsObject.keys at 2. rewrite map_map. cbn [fst].
      change (map (λ x : Edge, edge_id x) pasted) with (map edge_id pasted).
      rewrite Hpids, H1. exact Hfresh_e.
    + rewrite pasted_entries. unfold JsObject.keys at 2. rewrite map_map.
      cbn [fst].
      change (map (λ x : Node, node_id x)
                  (imap (λ i n, Clipboard.pastedNode
                                  (crypto_randomUUID (drawn + i)%nat) n)
                        nodesToPaste))
        with (map node_id
                  (imap (λ i n, Clipboard.pastedNode
                                  (crypto_randomUUID (drawn + i)%nat) n)
                        nodesToPaste)).
      rewrite pasted_ids. exact Hfresh_n.
  - apply Forall2_length in Hrel. by rewrite Hrel.
  - intros k e i j a b p q Hk Hi Hj Hp Hq Hsa Hsp Htb Htq.
    destruct (Forall2_lookup_l _ _ _ _ _ Hrel Hk)
      as (e' & Hk' & s & t & Hs & Ht & Hs' & Ht' & Hsh & Hth).
    rewrite Hsa, (Hat i a Hi) in Hs. injection Hs as <-.
    rewrite Htb, (Hat j b Hj) in Ht. injection Ht as <-.
    assert (Hid : edge_id e'
                  = crypto_randomUUID (drawn + (length nodesToPaste + k))%nat).
    { assert (H : map edge_id pasted !! k = Some (edge_id e'))
        by (by rewrite list_lookup_fmap, Hk').
      rewrite Hpids, H1, list_lookup_fmap in H.
      rewrite lookup_seq_lt in H.
      - simpl in H. injection H as <-. f_equal. lia.
      - apply Forall2_length in Hrel. rewrite Hrel.
        by eapply lookup_lt_Some. }
    rewrite Hk'. f_equal. destruct e' as [eid es eh et eth]. simpl in *.
    by rewrite Hid, Hs', Hsh, Hsp, Hsa, Ht', Hth, Htq, Htb.
  - apply Forall_forall. intros e' He'.
    destruct (Forall2_elem_r _ _ _ _ Hrel He')
      as (e & He & s & t & Hs & Ht & Hs' & Ht' & Hsh & Hth).
    eapply Forall_forall in Hwired; [|exact He].
    destruct Hwired as (a & b & p & q & Ha & Hb & Hp & Hq & Hsa & Hsp & Htb & Htq).
    destruct (Hmap a Ha) as (i & Hia & Hi). destruct (Hmap b Hb) as (j & Hjb & Hj).
    rewrite Hsa, Hi in Hs. injection Hs as <-.
    rewrite Htb, Hj in Ht. injection Ht as <-.
    exists (Clipboard.pastedNode (crypto_randomUUID (drawn + i)%nat) a),
           (Clipboard.pastedNode (crypto_randomUUID (drawn + j)%nat) b),
           (Clipboard.renamePort (node_id a) (crypto_randomUUID (drawn + i)%nat) p),
           (Clipboard.renamePort (node_id b) (crypto_randomUUID (drawn + j)%nat) q).
    split; [|split; [|split; [|split; [|split; [|split; [|split]]]]]].
    + apply list_elem_of_lookup. exists i. by rewrite list_lookup_imap, Hia.
    + apply list_elem_of_lookup. exists j. by rewrite list_lookup_imap, Hjb.
    + simpl. by apply list_elem_of_fmap_2.
    + simpl. by apply list_elem_of_fmap_2.
    + done.
    + simpl. by rewrite Hsh, Hsp, Hsa.
    + done.
    + simpl. by rewrite Hth, Htq, Htb.
Qed.

Lemma paste_keeps_wiring_witness :
  ∃ pastedEdges,
    Clipboard.paste Scenarios.uuid
      (Some ([Examples.textInput "t" "a cat"; Examples.textGenerator "g" false],
             [mkEdge "e1" "t" "t-output" "g" "g-input"]))
      Examples.chainNodes Examples.chainEdges ["g"] 0
    = Some (Examples.chainNodes ++
            [("copy-0", Clipboard.pastedNode "copy-0" (Examples.textInput "t" "a cat"));
             ("copy-1", Clipboard.pastedNode "copy-1"
                          (Examples.textGenerator "g" false))],
            Examples.chainEdges ++ map (λ e, (edge_id e, e)) pastedEdges,
            ["copy-0"; "copy-1"], 3%nat) ∧
    pastedEdges
    = [mkEdge "copy-2" "copy-0" "copy-0-output" "copy-1" "copy-1-input"].
Proof.
  destruct (paste_keeps_wiring Scenarios.uuid
              [Examples.textInput "t" "a cat"; Examples.textGenerator "g" false]
              [mkEdge "e1" "t" "t-output" "g" "g-input"]
              Examples.chainNodes Examples.chainEdges ["g"] 0)
    as (pastedEdges & Hpaste & Hlen & Hcopy & _).
  - decide_by_compute.
  - decide_by_compute.
  - decide_by_compute.
  - constructor; [|constructor].
    do 4 eexists. split; [by left|]. split; [right; by left|].
    split; [by left|]. split; [by left|]. done.
  - exists pastedEdges. split; [exact Hpaste|].
    pose proof (Hcopy 0%nat (mkEdge "e1" "t" "t-output" "g" "g-input")
                  0%nat 1%nat (Examples.textInput "t" "a cat")
                  (Examples.textGenerator "g" false)
                  (mkPort "t-output" "Text" text)
                  (mkPort "g-input" "Prompt" text)
                  eq_refl eq_refl eq_refl) as H0.
    destruct pastedEdges as [|e' [|? ?]]; [done| |done].
    assert (He' : Some e'
                  = Some (mkEdge "copy-2" "copy-0" "copy-0-output"
                                 "copy-1" "copy-1-input")).
    { apply H0; [by left|by left|done|done|done|done]. }
    by injection He' as ->.
Defined.

(** ** The aggregating port of a preset node *)
Section PresetCalls.
Import GeminiService.
Variable env : Env.


End PresetCalls.

Section PresetOrder.


End PresetOrder.



